(** * Tagger / verbalizer grammars of NeMo text processing

    A shallow embedding of

    - [nemo_text_processing/text_normalization/ja/graph_utils.py]
    - [nemo_text_processing/inverse_text_normalization/es/verbalizers/date.py]
    - [nemo_text_processing/inverse_text_normalization/hi/verbalizers/verbalize_final.py]

    The grammars are built with the transducer algebra of pynini, which is an
    external library.  A transducer is modelled by what it does to a string:
    run on an input, it reads a prefix of it and yields an output, a cost and
    the part of the input it did not read.  Strings are byte strings, as in
    pynini's default (UTF-8) mode, and costs are weights of the tropical
    semiring, which the library holds as 32-bit floats. *)

From Stdlib Require Import List Ascii String Bool Arith NArith Lia QArith
  Qround Qabs.
Import ListNotations.

Local Close Scope Q_scope.
Local Open Scope list_scope.

(** ** Byte strings *)

Definition bytes := list ascii.

Definition str (s : string) : bytes := list_ascii_of_string s.

Definition byte_of (n : nat) : ascii := ascii_of_nat n.

Definition is_nil {A : Type} (l : list A) : bool :=
  match l with
  | [] => true
  | _ :: _ => false
  end.

(** [strip_prefix p s] is [Some r] when [s = p ++ r]. *)
Fixpoint strip_prefix (p s : bytes) : option bytes :=
  match p with
  | [] => Some s
  | a :: p' =>
      match s with
      | [] => None
      | b :: s' => if Ascii.eqb a b then strip_prefix p' s' else None
      end
  end.

Definition bytes_eqb (a b : bytes) : bool :=
  match strip_prefix a b with
  | Some [] => true
  | _ => false
  end.

(** An occurrence of [p] inside [s]. *)
Definition infix_of (p s : bytes) : Prop :=
  exists l r, s = l ++ p ++ r.

(** ** The transducer algebra (pynini, pynutil) *)

Module Pynini.

(** A weight of the tropical semiring ([TropicalWeight]), which is a 32-bit
    float: a number, by its value; [+inf], which is the zero of the semiring,
    the weight of what is not accepted; or a float that is no weight of the
    semiring ([-inf] and the floats that are not numbers). *)
Inductive weight : Type :=
  | Finite (cost : Q)
  | Infinity
  | NoWeight.

(** The one of the semiring, the weight of an arc or of a final state that
    is given none. *)
Definition One : weight := Finite 0.

Definition is_finite (w : weight) : bool :=
  match w with
  | Finite _ => true
  | _ => false
  end.

Definition pow2 (k : Z) : Q :=
  if (0 <=? k)%Z then inject_Z (2 ^ k) else (1 # Z.to_pos (2 ^ (- k)))%Q.

(** The integer nearest to [x], the even one of two that are as near. *)
Definition round_half_even (x : Q) : Z :=
  let f := Qfloor x in
  match ((x - inject_Z f) ?= (1 # 2))%Q with
  | Lt => f
  | Gt => (f + 1)%Z
  | Eq => if Z.even f then f else (f + 1)%Z
  end.

(** The 32-bit float nearest to [q] (binary32, round to nearest even): a
    significand of 24 bits, exponents from -126, the last place of a number
    below [2^-126] being [2^-149]; what rounds to [2^128] or more is
    infinite. *)
Definition round32 (q : Q) : weight :=
  if Qeq_bool q 0 then Finite 0
  else
    let a := Qabs q in
    let e0 := (Z.log2 (Qnum a) - Z.log2 (Zpos (Qden a)))%Z in
    let e := if Qle_bool (pow2 e0) a then e0 else (e0 - 1)%Z in
    let ulp := pow2 (Z.max e (-126) - 23) in
    let r := Qred (inject_Z (round_half_even (a / ulp)) * ulp) in
    if Qle_bool (pow2 128) r
    then (if Qle_bool 0 q then Infinity else NoWeight)
    else Finite (if Qle_bool 0 q then r else Qred (- r)).

(** A Python float that is a number, by its value. *)
Definition pyfloat := Q.

(** The weight that the library reads from a Python float. *)
Definition weight_of_float (x : pyfloat) : weight := round32 x.

(** The product of the semiring ([Times]), which gives the cost of a path
    from the weights along it: the sum of two floats, rounded; adding zero
    changes nothing. *)
Definition Times (w1 w2 : weight) : weight :=
  match w1, w2 with
  | NoWeight, _ | _, NoWeight => NoWeight
  | Infinity, _ | _, Infinity => Infinity
  | Finite x, Finite y =>
      if Qeq_bool x 0 then w2
      else if Qeq_bool y 0 then w1
      else round32 (x + y)
  end.

(** One way of reading a prefix of the input: the output written, the cost
    of the path, and the input left. *)
Definition result : Type := bytes * weight * bytes.

Definition Fst := bytes -> list result.

(** [T] maps the whole of [i] to [o]. *)
Definition transduces (T : Fst) (i o : bytes) : Prop :=
  exists w, In (o, w, []) (T i).

(** [T] reads a prefix of [i], writes [o] and leaves [r]. *)
Definition yields (T : Fst) (i o r : bytes) : Prop :=
  exists w, In (o, w, r) (T i).

(** The outputs of [T] on the whole of [i]. *)
Definition outputs (T : Fst) (i : bytes) : list bytes :=
  flat_map (fun '(o, _, r) => if is_nil r then [o] else []) (T i).

(** [i] is in the domain of [T]. *)
Definition accepts (T : Fst) (i : bytes) : bool :=
  existsb (fun '(_, _, r) => is_nil r) (T i).

(** [pynini.accep(s, weight=w)]: [w] is the weight of the final state.  A
    state whose final weight is the zero of the semiring is not final, so
    an acceptor of infinite weight accepts nothing. *)
Definition accep_w (s : bytes) (w : weight) : Fst :=
  fun i =>
    match w with
    | Infinity => []
    | _ =>
        match strip_prefix s i with
        | Some r => [(s, w, r)]
        | None => []
        end
    end.

(** [pynini.accep(s)]; a Python string used as a transducer. *)
Definition accep (s : bytes) : Fst := accep_w s One.

(** A single byte in a range: [pynini.lib.byte] and [pynini.lib.utf8]. *)
Definition byte_range (lo hi : nat) : Fst :=
  fun i =>
    match i with
    | [] => []
    | c :: r =>
        if (lo <=? nat_of_ascii c) && (nat_of_ascii c <=? hi)
        then [([c], One, r)] else []
    end.

(** [pynini.cross(A, s)] for an acceptor [A] and a string [s]. *)
Definition cross_to (A : Fst) (s : bytes) : Fst :=
  fun i => map (fun '(_, w, r) => (s, w, r)) (A i).

(** [pynini.cross(a, b)] for two strings. *)
Definition cross (a b : bytes) : Fst := cross_to (accep a) b.

(** [pynutil.insert(s)] *)
Definition insert (s : bytes) : Fst := fun i => [(s, One, i)].

(** [pynutil.delete(A)] *)
Definition delete (A : Fst) : Fst := cross_to A [].

(** [pynini.union(A, B)], [A | B] *)
Definition union (A B : Fst) : Fst := fun i => A i ++ B i.

(** [pynini.union] over the members of a list. *)
Definition union_list (l : list Fst) : Fst :=
  fun i => flat_map (fun T => T i) l.

(** [A + B] *)
Definition concat (A B : Fst) : Fst :=
  fun i =>
    flat_map (fun '(o1, w1, m) =>
                map (fun '(o2, w2, r) => (o1 ++ o2, Times w1 w2, r)) (B m))
             (A i).

(** Kleene star.  An iteration that reads nothing is not repeated. *)
Fixpoint star_fuel (n : nat) (T : Fst) (i : bytes) : list result :=
  ([], One, i) ::
  match n with
  | O => []
  | S n' =>
      flat_map (fun '(o1, w1, m) =>
                  if List.length m <? List.length i
                  then map (fun '(o2, w2, r) => (o1 ++ o2, Times w1 w2, r))
                           (star_fuel n' T m)
                  else [])
               (T i)
  end.

(** [pynini.closure(T)] *)
Definition closure (T : Fst) : Fst := fun i => star_fuel (List.length i) T i.

(** [pynini.closure(T, 1)] *)
Definition closure_1 (T : Fst) : Fst := concat T (closure T).

(** [pynini.closure(T, 0, 1)] *)
Definition closure_0_1 (T : Fst) : Fst := union (accep []) T.

(** What [T] read of [i] when it left [r]. *)
Definition consumed (i r : bytes) : bytes := firstn (List.length i - List.length r) i.

(** [pynini.project(T, "input")] *)
Definition project_input (T : Fst) : Fst :=
  fun i => map (fun '(_, w, r) => (consumed i r, w, r)) (T i).

(** [pynini.difference(A, B)], [A - B], for acceptors. *)
Definition difference (A B : Fst) : Fst :=
  fun i => filter (fun '(o, _, _) => negb (accepts B o)) (A i).

(** [A @ B], [pynini.compose(A, B)]: [B] reads the whole output of [A]. *)
Definition compose (A B : Fst) : Fst :=
  fun i =>
    flat_map (fun '(m, w1, r) =>
                flat_map (fun '(o, w2, r2) =>
                            if is_nil r2 then [(o, Times w1 w2, r)] else [])
                         (B m))
             (A i).

(** [pynini.invert(T)].  The inverse of a transducer with finitely many
    outputs for an input may have infinitely many, so it is a relation. *)
Definition invert (T : Fst) (i o : bytes) : Prop := transduces T o i.

(** [pynini.string_map], [pynini.string_file]: the rows of a table. *)
Definition string_map (t : list (bytes * bytes)) : Fst :=
  union_list (map (fun '(k, v) => cross k v) t).

(** [pynutil.add_weight(T, w)]: the empty string with weight [w], then [T].
    With an infinite [w] nothing is left of [T]. *)
Definition add_weight (T : Fst) (w : weight) : Fst :=
  concat (accep_w [] w) T.

(** [T.optimize()] keeps the relation of [T]. *)
Definition optimize (T : Fst) : Fst := T.

(** Obligatory left-to-right replacement of the occurrences of [a] by [b];
    [skip] counts the bytes of the occurrence being replaced. *)
Fixpoint rewrite_ltr (a b s : bytes) (skip : nat) : bytes :=
  match s with
  | [] => []
  | c :: t =>
      match skip with
      | S k => rewrite_ltr a b t k
      | O =>
          match strip_prefix a s with
          | Some _ => b ++ rewrite_ltr a b t (List.length a - 1)
          | None => c :: rewrite_ltr a b t 0
          end
      end
  end.

(** [pynini.cdrewrite(pynini.cross(a, b), l, r, sigma_star)] with empty
    contexts [l] and [r]. *)
Definition cdrewrite_cross (a b : bytes) (sigma_star : Fst) : Fst :=
  fun i => map (fun '(o, w, r) => (rewrite_ltr a b o 0, w, r)) (sigma_star i).

(** [pynini.lib.utf8.VALID_UTF8_CHAR] *)
Definition SINGLE_BYTE : Fst := byte_range 1 127.
Definition LEADING_BYTE_2 : Fst := byte_range 192 223.
Definition LEADING_BYTE_3 : Fst := byte_range 224 239.
Definition LEADING_BYTE_4 : Fst := byte_range 240 247.
Definition CONTINUATION_BYTE : Fst := byte_range 128 191.

Definition VALID_UTF8_CHAR : Fst :=
  union_list
    [ SINGLE_BYTE;
      concat LEADING_BYTE_2 CONTINUATION_BYTE;
      concat (concat LEADING_BYTE_3 CONTINUATION_BYTE) CONTINUATION_BYTE;
      concat (concat (concat LEADING_BYTE_4 CONTINUATION_BYTE)
                     CONTINUATION_BYTE) CONTINUATION_BYTE ].

(** [pynini.lib.byte.DIGIT] *)
Definition DIGIT : Fst := byte_range 48 57.

(** [pynini.examples.plurals._priority_union(q, r, sigma)]:
    [q | ((sigma - project(q, "input")) @ r)]. *)
Definition _priority_union (q r sigma : Fst) : Fst :=
  let complement_domain_q := difference sigma (project_input q) in
  union q (compose complement_domain_q r).

End Pynini.

Import Pynini.

(** ** graph_utils.py *)

Definition dquote : bytes := [byte_of 34].

(** A value between double quotes. *)
Definition quoted (v : bytes) : bytes := dquote ++ v ++ dquote.

Definition ascii_lowercase : bytes := str "abcdefghijklmnopqrstuvwxyz".
Definition ascii_uppercase : bytes := str "ABCDEFGHIJKLMNOPQRSTUVWXYZ".

(** The one-character strings of a Python string, each as an acceptor. *)
Definition chars (s : bytes) : list Fst := map (fun c => accep [c]) s.

Definition NEMO_CHAR : Fst := VALID_UTF8_CHAR.

Definition NEMO_DIGIT : Fst := DIGIT.
Definition NEMO_LOWER : Fst := optimize (union_list (chars ascii_lowercase)).
Definition NEMO_UPPER : Fst := optimize (union_list (chars ascii_uppercase)).
Definition NEMO_ALPHA : Fst := optimize (union NEMO_LOWER NEMO_UPPER).
Definition NEMO_ALNUM : Fst := optimize (union NEMO_DIGIT NEMO_ALPHA).
(** U+00A0 in UTF-8. *)
Definition NEMO_NON_BREAKING_SPACE : bytes := [byte_of 194; byte_of 160].
Definition NEMO_SPACE : bytes := str " ".
Definition NEMO_WHITE_SPACE : Fst :=
  optimize
    (union_list
       [ accep (str " "); accep [byte_of 9]; accep [byte_of 10];
         accep [byte_of 13]; accep NEMO_NON_BREAKING_SPACE ]).
Definition NEMO_NOT_SPACE : Fst :=
  optimize (difference NEMO_CHAR NEMO_WHITE_SPACE).
Definition NEMO_NOT_QUOTE : Fst :=
  optimize (difference NEMO_CHAR (accep dquote)).

(** [string.hexdigits] and [string.punctuation] *)
Definition hexdigits : bytes := str "0123456789abcdefABCDEF".
Definition punctuation : bytes :=
  str "!" ++ dquote ++ str "#$%&'()*+,-./:;<=>?@[\]^_`{|}~".
Definition NEMO_HEX : Fst := optimize (union_list (chars hexdigits)).
(** [pynini.escape] protects the brackets and the backslash, which then
    stand for themselves. *)
Definition NEMO_PUNCT : Fst := optimize (union_list (chars punctuation)).
Definition NEMO_GRAPH : Fst := optimize (union NEMO_ALNUM NEMO_PUNCT).

Definition NEMO_SIGMA : Fst := closure NEMO_CHAR.
Definition NEMO_LOWER_NOT_A : Fst :=
  optimize (union_list (chars (str "bcdefghijklmnopqrstuvwxyz"))).
Definition NEMO_SPACES_AND_ALHPANUMERICS : Fst :=
  optimize
    (closure
       (union (union (union (union
          NEMO_SIGMA
          (closure (accep NEMO_SPACE)))
          (closure (accep NEMO_NON_BREAKING_SPACE)))
          (closure NEMO_DIGIT))
          (closure NEMO_WHITE_SPACE))).

Definition delete_space : Fst := delete (closure NEMO_WHITE_SPACE).
Definition delete_zero_or_one_space : Fst :=
  delete (closure_0_1 NEMO_WHITE_SPACE).
Definition insert_space : Fst := insert (str " ").
Definition delete_extra_space : Fst :=
  cross_to (closure_1 NEMO_WHITE_SPACE) (str " ").
Definition delete_preserve_order : Fst :=
  closure
    (union (delete (accep (str " preserve_order: true")))
           (concat (concat (delete (accep (str " field_order: " ++ dquote)))
                           NEMO_NOT_QUOTE)
                   (delete (accep dquote)))).

Definition _c : Fst :=
  union_list (chars (str "bcdfghjklmnpqrstvwxyz")).
Definition _ies : Fst :=
  concat (concat NEMO_SIGMA _c) (cross (str "y") (str "ies")).
Definition _es : Fst :=
  concat (concat NEMO_SIGMA
                 (union_list [ accep (str "s"); accep (str "sh");
                               accep (str "ch"); accep (str "x");
                               accep (str "z") ]))
         (insert (str "es")).
Definition _s : Fst := concat NEMO_SIGMA (insert (str "s")).

Section Plurals.

(** The rows of [data/suppletive.tsv], which the module reads when it is
    loaded. *)
Variable suppletive_tsv : list (bytes * bytes).

Definition suppletive : Fst := string_map suppletive_tsv.

Definition graph_plural : Fst :=
  optimize
    (_priority_union suppletive
       (_priority_union _ies
          (_priority_union _es _s NEMO_SIGMA) NEMO_SIGMA) NEMO_SIGMA).

Definition SINGULAR_TO_PLURAL : Fst := graph_plural.
Definition PLURAL_TO_SINGULAR : bytes -> bytes -> Prop := invert graph_plural.

(** [get_plurals] *)
Definition get_plurals (T : Fst) : Fst := compose SINGULAR_TO_PLURAL T.

End Plurals.

(** [get_singulars]: the inverse of the plural transducer, then [T]. *)
Definition get_singulars (suppletive_tsv : list (bytes * bytes)) (T : Fst)
    : bytes -> bytes -> Prop :=
  fun i o =>
    exists m, PLURAL_TO_SINGULAR suppletive_tsv i m /\ transduces T m o.

Definition TO_LOWER : Fst :=
  union_list
    (map (fun '(x, y) => cross [x] [y])
         (combine ascii_uppercase ascii_lowercase)).
Definition TO_UPPER : bytes -> bytes -> Prop := invert TO_LOWER.
(** The floats [-0.0001] and [0.0001], by their values. *)
Definition MIN_NEG_WEIGHT : pyfloat :=
  (- (7378697629483821 # 73786976294838206464))%Q.
Definition MIN_POS_WEIGHT : pyfloat :=
  (7378697629483821 # 73786976294838206464)%Q.
Definition INPUT_CASED : string := "cased".
Definition INPUT_LOWER_CASED : string := "lower_cased".
Definition MINUS : Fst :=
  optimize (union_list [accep (str "minus"); accep (str "Minus")]).

Definition capitalized_input_graph
    (graph : Fst)
    (original_graph_weight capitalized_graph_weight : option pyfloat)
    : Fst :=
  let capitalized_graph :=
    optimize (compose (concat TO_LOWER NEMO_SIGMA) graph) in
  let graph :=
    match original_graph_weight with
    | Some w => add_weight graph (weight_of_float w)
    | None => graph
    end in
  let capitalized_graph :=
    match capitalized_graph_weight with
    | Some w => add_weight capitalized_graph (weight_of_float w)
    | None => capitalized_graph
    end in
  union graph capitalized_graph.

Definition convert_space (T : Fst) : Fst :=
  compose T (cdrewrite_cross NEMO_SPACE NEMO_NON_BREAKING_SPACE NEMO_SIGMA).

Inductive Kind : Type :=
  | classify
  | verbalize.

(** The base class of the grammars.  [fst_] is the transducer of the unit,
    absent until the grammar is built or read from its archive. *)
Record GraphFst : Type := mkGraphFst {
  name : bytes;
  kind : Kind;
  deterministic : bool;
  fst_ : option Fst
}.

(** [GraphFst.__init__] when there is no archive for the unit. *)
Definition GraphFst_init (name : bytes) (kind : Kind) (deterministic : bool)
    : GraphFst :=
  mkGraphFst name kind deterministic None.

(** The setter of the [fst] property. *)
Definition set_fst (self : GraphFst) (T : Fst) : GraphFst :=
  mkGraphFst (name self) (kind self) (deterministic self) (Some T).

Definition add_tokens (self : GraphFst) (T : Fst) : Fst :=
  concat (concat (insert (name self ++ str " { ")) T) (insert (str " }")).

(** The value of [res] in [delete_tokens]. *)
Definition delete_tokens_res (self : GraphFst) (T : Fst) : Fst :=
  concat (concat (concat (concat (concat (concat
    (delete (accep (name self)))
    delete_space)
    (delete (accep (str "{"))))
    delete_space)
    T)
    delete_space)
    (delete (accep (str "}"))).

Definition delete_tokens (self : GraphFst) (T : Fst) : Fst :=
  let res := delete_tokens_res self T in
  compose res (cdrewrite_cross NEMO_NON_BREAKING_SPACE (str " ") NEMO_SIGMA).

(** *** string_map_cased

    A Python string is the list of its code points.  The methods [upper]
    and [capitalize] of Python strings, the encoding of a string by pynini
    and the reading of a weight are parameters; [load_labels] gives the rows
    of the file. *)

Definition pystr := list N.

Definition pystr_of (s : string) : pystr :=
  map N_of_ascii (list_ascii_of_string s).

Fixpoint pystr_prefix (p s : pystr) : bool :=
  match p with
  | [] => true
  | a :: p' =>
      match s with
      | [] => false
      | b :: s' => N.eqb a b && pystr_prefix p' s'
      end
  end.

(** [s.replace(old, new)] for a non-empty [old]; [skip] counts the
    characters of the occurrence being replaced. *)
Fixpoint replace_from (old new s : pystr) (skip : nat) : pystr :=
  match s with
  | [] => []
  | c :: t =>
      match skip with
      | S k => replace_from old new t k
      | O =>
          if pystr_prefix old s
          then new ++ replace_from old new t (List.length old - 1)
          else c :: replace_from old new t 0
      end
  end.

Definition str_replace (s old new : pystr) : pystr := replace_from old new s 0.

(** A value, or the exception that is raised. *)
Inductive py (A : Type) : Type :=
  | Ok (a : A)
  | IndexError
  | ValueError
  | FstArgError.

Arguments Ok {A} a.
Arguments IndexError {A}.
Arguments ValueError {A}.
Arguments FstArgError {A}.

(** A row of labels: written, spoken and an optional weight. *)
Definition row := list pystr.

(** The second column of a row. *)
Definition spoken_of (r : row) : pystr := nth 1 r [].

(** [len(spoken) == (2 * len(spoken_no_space) - 1)] *)
Definition abbreviation_test (spoken : pystr) : bool :=
  let spoken_no_space := str_replace spoken (pystr_of " ") [] in
  (Z.of_nat (List.length spoken)
   =? 2 * Z.of_nat (List.length spoken_no_space) - 1)%Z.

Section StringMapCased.

Variables str_upper str_capitalize : pystr -> pystr.
Variable encode : pystr -> bytes.
Variable read_weight : pystr -> weight.

(** The rows that one pass of the loop adds for a row. *)
Definition added_rows (r : row) : py (list row) :=
  match r with
  | written :: spoken :: weight =>
      match written with
      | [] => IndexError
      | c :: t =>
          let written_capitalized := str_upper [c] ++ t in
          let first :=
            [ [written_capitalized; str_capitalize spoken];
              [written_capitalized;
               str_replace (str_upper spoken) (pystr_of " AND ") (pystr_of " and ")] ] in
          let spoken_no_space := str_replace spoken (pystr_of " ") [] in
          if abbreviation_test spoken then
            match weight with
            | [] =>
                Ok (first ++
                    [ [written; spoken_no_space];
                      [written_capitalized; str_upper spoken_no_space] ])
            | w0 :: _ =>
                Ok (first ++
                    [ [written; spoken_no_space; w0];
                      [written_capitalized; str_upper spoken_no_space; w0] ])
            end
          else Ok first
      end
  | _ => ValueError
  end.

(** The value of [additional_labels] after the loop. *)
Fixpoint additional_labels (labels : list row) : py (list row) :=
  match labels with
  | [] => Ok []
  | r :: rest =>
      match added_rows r with
      | Ok a =>
          match additional_labels rest with
          | Ok b => Ok (a ++ b)
          | e => e
          end
      | IndexError => IndexError
      | ValueError => ValueError
      | FstArgError => FstArgError
      end
  end.

(** The labels after the [if] on the input case. *)
Definition cased_labels (labels : list row) (input_case : string)
    : py (list row) :=
  if String.eqb input_case INPUT_CASED then
    match additional_labels labels with
    | Ok a => Ok (labels ++ a)
    | e => e
    end
  else Ok labels.

(** [pynini.string_map] of rows of one, two or three columns. *)
Fixpoint string_map_rows (rows : list row) : py Fst :=
  match rows with
  | [] => Ok (union_list [])
  | r :: rest =>
      match string_map_rows rest with
      | Ok T =>
          match r with
          | [w] => Ok (union (accep (encode w)) T)
          | [w; s] => Ok (union (cross (encode w) (encode s)) T)
          | [w; s; c] =>
              Ok (union (add_weight (cross (encode w) (encode s))
                                    (read_weight c)) T)
          | _ => FstArgError
          end
      | e => e
      end
  end.

(** [string_map_cased]; the inverse of a transducer is a relation, which
    [optimize] keeps. *)
Definition string_map_cased (labels : list row) (input_case : string)
    : py (bytes -> bytes -> Prop) :=
  match cased_labels labels input_case with
  | Ok labels' =>
      match string_map_rows labels' with
      | Ok T => Ok (invert T)
      | IndexError => IndexError
      | ValueError => ValueError
      | FstArgError => FstArgError
      end
  | IndexError => IndexError
  | ValueError => ValueError
  | FstArgError => FstArgError
  end.

End StringMapCased.

(** ** es/verbalizers/date.py *)

Section Date.

(** The rows of [data/dates/months.tsv] and [data/dates/months_cased.tsv]. *)
Variables months_tsv months_cased_tsv : list (bytes * bytes).

Definition graph_month : Fst :=
  union (string_map months_tsv) (string_map months_cased_tsv).

Definition year : Fst :=
  concat (concat (concat (concat
    (delete (accep (str "year:")))
    delete_space)
    (delete (accep dquote)))
    (closure_1 NEMO_NOT_QUOTE))
    (delete (accep dquote)).

Definition month : Fst :=
  concat (concat (concat (concat
    (delete (accep (str "month:")))
    delete_space)
    (delete (accep dquote)))
    graph_month)
    (delete (accep dquote)).

Definition day : Fst :=
  concat (concat (concat (concat
    (delete (accep (str "day:")))
    delete_space)
    (delete (accep dquote)))
    (closure_1 NEMO_NOT_QUOTE))
    (delete (accep dquote)).

Definition graph_dm : Fst :=
  concat (concat (concat (concat
    day delete_extra_space) (insert (str "de"))) insert_space) month.

Definition optional_preserve_order : Fst :=
  closure
    (union
       (concat (concat (concat
          (delete (accep (str "preserve_order:")))
          delete_space)
          (delete (accep (str "true"))))
          delete_space)
       (concat (concat (concat (concat (concat
          (delete (accep (str "field_order:")))
          delete_space)
          (delete (accep dquote)))
          NEMO_NOT_QUOTE)
          (delete (accep dquote)))
          delete_space)).

Definition final_graph : Fst :=
  concat (concat (union graph_dm year) delete_space) optional_preserve_order.

Definition DateFst : GraphFst :=
  let self := GraphFst_init (str "date") verbalize true in
  set_fst self (optimize (delete_tokens self final_graph)).

(** The transducer of the unit. *)
Definition DateFst_fst : Fst :=
  optimize (delete_tokens (GraphFst_init (str "date") verbalize true) final_graph).

End Date.

(** ** hi/verbalizers/verbalize_final.py *)

Section VerbalizeFinal.

(** [VerbalizeFst().fst] and [WordFst().fst]. *)
Variables verbalize_fst word_fst : Fst.

Definition types : Fst := union verbalize_fst word_fst.

Definition tokens_graph : Fst :=
  concat (concat (concat (concat (concat (concat
    (delete (accep (str "tokens")))
    delete_space)
    (delete (accep (str "{"))))
    delete_space)
    types)
    delete_space)
    (delete (accep (str "}"))).

Definition VerbalizeFinalFst_fst : Fst :=
  concat (concat (concat
    delete_space
    (closure (concat tokens_graph delete_extra_space)))
    tokens_graph)
    delete_space.

End VerbalizeFinal.

(** Sample rows for the data files. *)
Definition sample_months : list (bytes * bytes) :=
  map (fun s => (str s, str s))
      ["enero"; "febrero"; "marzo"; "abril"; "mayo"; "junio"; "julio";
       "agosto"; "septiembre"; "octubre"; "noviembre"; "diciembre"]%string.

Definition sample_date : bytes :=
  str "date { day: " ++ quoted (str "1") ++ str " month: "
    ++ quoted (str "enero") ++ str " preserve_order: true }".

(** ** Definitions for the properties *)

(** *** Transducers as relations *)

(** What a local transducer does depends only on the prefix it reads: its
    runs on [i] that leave [r] are its runs on the whole of [p], for
    [i = p ++ r]. *)
Definition local (T : Fst) : Prop :=
  forall i o w r,
    In (o, w, r) (T i) <-> exists p, i = p ++ r /\ In (o, w, []) (T p).

(** An acceptor writes what it reads. *)
Definition acceptor (T : Fst) : Prop :=
  forall i o w r, In (o, w, r) (T i) -> i = o ++ r.

(** [s] is a string: a sequence of [NEMO_CHAR]. *)
Definition is_string (s : bytes) : Prop := accepts NEMO_SIGMA s = true.

(** An acceptor of strings only. *)
Definition string_acceptor (T : Fst) : Prop :=
  forall i o r, yields T i o r -> i = o ++ r /\ is_string o.

(** [s] is white space: a sequence of [NEMO_WHITE_SPACE]. *)
Definition is_white (s : bytes) : Prop :=
  accepts (closure NEMO_WHITE_SPACE) s = true.

(** The white space characters: space, tab, line feed, carriage return
    and non-breaking space. *)
Definition white_units : list bytes :=
  [str " "; [byte_of 9]; [byte_of 10]; [byte_of 13]; NEMO_NON_BREAKING_SPACE].

(** The outputs and remainders of the runs of [T] on [i]. *)
Definition runs (T : Fst) (i : bytes) : list (bytes * bytes) :=
  map (fun '(o, _, r) => (o, r)) (T i).

(** *** Capitalization *)

Definition is_lower (c : ascii) : bool :=
  existsb (Ascii.eqb c) ascii_lowercase.

(** The upper-case letter of a lower-case ASCII letter. *)
Definition to_upper (c : ascii) : ascii :=
  if is_lower c then ascii_of_nat (nat_of_ascii c - 32) else c.

(** The second byte, after the byte 195, of a lower-case letter of Latin-1
    in UTF-8: U+00E0 to U+00FE other than the division sign U+00F7.  Its
    upper-case letter is 32 code points below. *)
Definition is_latin1_lower (d : ascii) : bool :=
  (160 <=? nat_of_ascii d) && (nat_of_ascii d <=? 190)
  && negb (nat_of_ascii d =? 183).

(** [s] with its first character in upper case, for a first character
    that is an ASCII letter or a letter of Latin-1; the other characters
    with an upper case are not known here. *)
Definition capitalize_first_letter (s : bytes) : bytes :=
  match s with
  | [] => []
  | c :: t =>
      if is_lower c then to_upper c :: t
      else
        match t with
        | d :: t' =>
            if (nat_of_ascii c =? 195) && is_latin1_lower d
            then c :: ascii_of_nat (nat_of_ascii d - 32) :: t'
            else s
        | [] => s
        end
  end.

(** [s] begins with one of the letters [a] to [z]. *)
Definition starts_ascii_lower (s : bytes) : bool :=
  match s with
  | [] => false
  | c :: _ => is_lower c
  end.

(** [s] begins with a lower-case letter, of ASCII or of Latin-1. *)
Definition starts_lower (s : bytes) : bool :=
  match s with
  | [] => false
  | c :: t =>
      is_lower c
      || ((nat_of_ascii c =? 195)
          && match t with
             | d :: _ => is_latin1_lower d
             | [] => false
             end)
  end.

(** The word [elan] with an acute accent on its first letter (U+00E9,
    the bytes 195 and 169). *)
Definition sample_elan : bytes := byte_of 195 :: byte_of 169 :: str "lan".

(** *** Weights *)

(** A weight that is not given, or that is read as a finite float. *)
Definition finite_weight (w : option pyfloat) : Prop :=
  match w with
  | Some x => is_finite (weight_of_float x) = true
  | None => True
  end.

(** A weight that is not given, or that is read as a weight of the
    semiring. *)
Definition member_weight (w : option pyfloat) : Prop :=
  match w with
  | Some x => weight_of_float x <> NoWeight
  | None => True
  end.

(** Whether the graph that is given the weight keeps its paths: it does
    unless the weight is read as infinite. *)
Definition keeps_paths (w : option pyfloat) : bool :=
  match w with
  | Some x =>
      match weight_of_float x with
      | Infinity => false
      | _ => true
      end
  | None => true
  end.

(** The float [1e39], by its value. *)
Definition sample_1e39 : pyfloat :=
  inject_Z 999999999999999939709166371603178586112.

(** *** Token framing *)

(** What the rewrite rule of [delete_tokens] does to a string. *)
Definition nbsp_to_space (s : bytes) : bytes :=
  rewrite_ltr NEMO_NON_BREAKING_SPACE (str " ") s 0.

(** What the rewrite rule of [convert_space] does to a string. *)
Definition space_to_nbsp (s : bytes) : bytes :=
  rewrite_ltr NEMO_SPACE NEMO_NON_BREAKING_SPACE s 0.

(** Framing a field content [x] on the classify side, then removing the
    frame on the verbalize side. *)
Definition round_trip (self : GraphFst) (x : bytes) : Fst :=
  compose (add_tokens self (accep x)) (delete_tokens self (accep x)).

(** A field whose value holds a non-breaking space, as [convert_space]
    writes it on the classify side. *)
Definition sample_field : bytes :=
  str "name: " ++ quoted (str "hello" ++ NEMO_NON_BREAKING_SPACE ++ str "kitty").

Definition sample_unit : GraphFst := GraphFst_init (str "tokens") classify true.

(** *** Plurals: the rule of the specification, the first that matches *)

Definition is_consonant (c : ascii) : bool :=
  existsb (Ascii.eqb c) (str "bcdfghjklmnpqrstvwxyz").

(** [w] ends with [u]. *)
Definition ends_with (u w : bytes) : bool :=
  match strip_prefix (rev u) (rev w) with
  | Some _ => true
  | None => false
  end.

Definition ends_consonant_y (w : bytes) : bool :=
  match rev w with
  | y :: c :: _ => Ascii.eqb y "y"%char && is_consonant c
  | _ => false
  end.

Definition sibilant_endings : list bytes :=
  [str "s"; str "sh"; str "ch"; str "x"; str "z"].

Definition ends_sibilant (w : bytes) : bool :=
  existsb (fun u => ends_with u w) sibilant_endings.

(** The values of the rows of a table whose key is [w]. *)
Definition lookup (t : list (bytes * bytes)) (w : bytes) : list bytes :=
  map snd (filter (fun '(k, _) => bytes_eqb k w) t).

Definition rule_ies (w : bytes) : bytes := removelast w ++ str "ies".
Definition rule_es (w : bytes) : bytes := w ++ str "es".
Definition rule_s (w : bytes) : bytes := w ++ str "s".

(** The plural of a word that is not in the table of exceptions. *)
Definition regular_plural (w : bytes) : bytes :=
  if ends_consonant_y w then rule_ies w
  else if ends_sibilant w then rule_es w
  else rule_s w.

Definition to_plural (t : list (bytes * bytes)) (w : bytes) : list bytes :=
  match lookup t w with
  | [] => [regular_plural w]
  | l => l
  end.

(** Sample rows for [data/suppletive.tsv]. *)
Definition sample_suppletive : list (bytes * bytes) :=
  map (fun '(k, v) => (str k, str v))
      [("deer", "deer"); ("fish", "fish"); ("sheep", "sheep");
       ("foot", "feet"); ("goose", "geese"); ("man", "men");
       ("mouse", "mice"); ("tooth", "teeth"); ("woman", "women");
       ("child", "children"); ("ox", "oxen"); ("wife", "wives");
       ("wolf", "wolves")]%string.

(** Each key of the table has one value. *)
Definition functional (t : list (bytes * bytes)) : Prop :=
  forall k v v', In (k, v) t -> In (k, v') t -> v = v'.

(** No two rows of the table have the same key. *)
Fixpoint keys_distinct (t : list (bytes * bytes)) : bool :=
  match t with
  | [] => true
  | (k, _) :: t' =>
      negb (existsb (fun '(k', _) => bytes_eqb k k') t') && keys_distinct t'
  end.

(** *** Dates *)

(** The fields of [sample_date] with the month first. *)
Definition sample_date_month_first : bytes :=
  str "date { month: " ++ quoted (str "enero") ++ str " day: "
    ++ quoted (str "1") ++ str " preserve_order: true }".

Definition sample_body : bytes :=
  str "day: " ++ quoted (str "1") ++ str " month: " ++ quoted (str "enero").

(** *** Sentences *)

(** The strings of a list with one space between them. *)
Fixpoint join_space (l : list bytes) : bytes :=
  match l with
  | [] => []
  | x :: l' =>
      match l' with
      | [] => x
      | _ :: _ => x ++ str " " ++ join_space l'
      end
  end.

(** [s] begins with one of the strings [us]. *)
Definition has_prefix_in (us : list bytes) (s : bytes) : bool :=
  existsb (fun u => match strip_prefix u s with
                    | Some _ => true
                    | None => false
                    end) us.

(** [s] begins with a white space character. *)
Definition starts_white (s : bytes) : bool := has_prefix_in white_units s.

(** [s] ends with a white space character. *)
Definition ends_white (s : bytes) : bool :=
  has_prefix_in (map (@rev ascii) white_units) (rev s).

(** A block of the sentence that is not the last: the block, the white
    space after it, and its verbalization. *)
Definition block : Type := bytes * bytes * bytes.

Definition block_out (b : block) : bytes := snd b.

Fixpoint blocks_in (bs : list block) : bytes :=
  match bs with
  | [] => []
  | (b, sep, _) :: bs' => b ++ sep ++ blocks_in bs'
  end.

Fixpoint blocks_out (bs : list block) : bytes :=
  match bs with
  | [] => []
  | (_, _, o) :: bs' => o ++ str " " ++ blocks_out bs'
  end.

(** A block that the grammar of a block maps to its verbalization, and
    that is followed by white space. *)
Definition block_ok (verbalize_fst word_fst : Fst) (b : block) : Prop :=
  let '(i, sep, o) := b in
  transduces (tokens_graph verbalize_fst word_fst) i o /\
  is_white sep /\ sep <> [].

(** A grammar of words, for the examples: [name: "w"] gives [w]. *)
Definition sample_word : Fst :=
  concat (concat (concat (concat
    (delete (accep (str "name:")))
    delete_space)
    (delete (accep dquote)))
    (closure_1 NEMO_NOT_QUOTE))
    (delete (accep dquote)).

Definition sample_sentence : bytes :=
  str "tokens { name: " ++ quoted (str "hoy") ++ str " }  tokens { "
    ++ sample_date ++ str " } ".

(** A sentence of one block, with nothing around it, whose day begins with
    a space. *)
Definition sample_sentence_space : bytes :=
  str "tokens { date { day: " ++ quoted (str " 1") ++ str " month: "
    ++ quoted (str "enero") ++ str " preserve_order: true } }".

(** * Properties *)

(** ** Byte strings *)

Lemma strip_prefix_spec (p s r : bytes) :
  strip_prefix p s = Some r <-> s = p ++ r.
Proof.
  revert s; induction p as [|a p IH]; intros s; simpl.
  - split; intros H; [injection H as ->; reflexivity | now subst].
  - destruct s as [|b s].
    + split; intros H; discriminate.
    + destruct (Ascii.eqb_spec a b) as [->|Hab].
      * rewrite IH. split; intros H; [now subst | now injection H].
      * split; intros H; [discriminate | injection H; congruence].
Qed.

Lemma strip_prefix_app (p r : bytes) : strip_prefix p (p ++ r) = Some r.
Proof. now apply strip_prefix_spec. Qed.

Lemma is_nil_true {A : Type} (l : list A) : is_nil l = true <-> l = [].
Proof. destruct l; simpl; split; intros H; congruence. Qed.

(** ** The transducer algebra *)

Lemma in_accep_w (s : bytes) (c : weight) (i o r : bytes) (w : weight) :
  In (o, w, r) (accep_w s c i) <->
  o = s /\ w = c /\ i = s ++ r /\ c <> Infinity.
Proof.
  assert (H : In (o, w, r)
                 match strip_prefix s i with
                 | Some r' => [(s, c, r')]
                 | None => []
                 end <-> o = s /\ w = c /\ i = s ++ r).
  { destruct (strip_prefix s i) as [r'|] eqn:E.
    - apply strip_prefix_spec in E. subst i. simpl. split.
      + intros [H|[]]. injection H as <- <- <-. auto.
      + intros (-> & -> & H). apply app_inv_head in H. subst. auto.
    - simpl. split; [tauto|]. intros (_ & _ & H).
      apply strip_prefix_spec in H. congruence. }
  unfold accep_w. destruct c.
  - rewrite H. split; [|tauto]. intros (-> & -> & ->).
    repeat split. discriminate.
  - simpl. split; [tauto|]. intros (_ & _ & _ & E). now contradiction E.
  - rewrite H. split; [|tauto]. intros (-> & -> & ->).
    repeat split. discriminate.
Qed.

Lemma in_accep (s i o r : bytes) (w : weight) :
  In (o, w, r) (accep s i) <-> o = s /\ w = One /\ i = s ++ r.
Proof.
  unfold accep. rewrite in_accep_w. split; [tauto|].
  intros (-> & -> & ->). repeat split. discriminate.
Qed.

Lemma in_byte_range (lo hi : nat) (i o r : bytes) (w : weight) :
  In (o, w, r) (byte_range lo hi i) <->
  exists c, i = c :: r /\ o = [c] /\ w = One /\
            lo <= nat_of_ascii c /\ nat_of_ascii c <= hi.
Proof.
  unfold byte_range. destruct i as [|c i].
  - simpl. split; [tauto|]. intros (c & H & _). discriminate.
  - destruct (lo <=? nat_of_ascii c) eqn:E1;
      destruct (nat_of_ascii c <=? hi) eqn:E2; simpl;
      try apply Nat.leb_le in E1; try apply Nat.leb_le in E2;
      try apply Nat.leb_gt in E1; try apply Nat.leb_gt in E2.
    + split.
      * intros [H|[]]. injection H as <- <- <-. exists c. auto.
      * intros (c' & H & -> & -> & _). injection H as <- <-. auto.
    + split; [tauto|]. intros (c' & H & _ & _ & _ & H2).
      injection H as <- _. lia.
    + split; [tauto|]. intros (c' & H & _ & _ & H1 & _).
      injection H as <- _. lia.
    + split; [tauto|]. intros (c' & H & _ & _ & H1 & _).
      injection H as <- _. lia.
Qed.

Lemma in_cross_to (A : Fst) (s i o r : bytes) (w : weight) :
  In (o, w, r) (cross_to A s i) <-> o = s /\ exists o', In (o', w, r) (A i).
Proof.
  unfold cross_to. rewrite in_map_iff. split.
  - intros ([[o' w'] r'] & H & Hin). injection H as <- <- <-. eauto.
  - intros (-> & o' & Hin). exists (o', w, r). auto.
Qed.

Lemma in_insert (s i o r : bytes) (w : weight) :
  In (o, w, r) (insert s i) <-> o = s /\ w = One /\ r = i.
Proof.
  unfold insert. simpl. split.
  - intros [H|[]]. injection H as <- <- <-. auto.
  - intros (-> & -> & ->). auto.
Qed.

Lemma in_union (A B : Fst) (i : bytes) (x : result) :
  In x (union A B i) <-> In x (A i) \/ In x (B i).
Proof. apply in_app_iff. Qed.

Lemma in_union_list (l : list Fst) (i : bytes) (x : result) :
  In x (union_list l i) <-> exists T, In T l /\ In x (T i).
Proof. apply in_flat_map. Qed.

Lemma in_concat (A B : Fst) (i o r : bytes) (w : weight) :
  In (o, w, r) (concat A B i) <->
  exists o1 w1 m o2 w2,
    In (o1, w1, m) (A i) /\ In (o2, w2, r) (B m) /\
    o = o1 ++ o2 /\ w = Times w1 w2.
Proof.
  unfold concat. rewrite in_flat_map. split.
  - intros ([[o1 w1] m] & HA & H). apply in_map_iff in H.
    destruct H as ([[o2 w2] r'] & E & HB). injection E as <- <- <-.
    exists o1, w1, m, o2, w2. auto.
  - intros (o1 & w1 & m & o2 & w2 & HA & HB & -> & ->).
    exists (o1, w1, m). split; [assumption|].
    apply in_map_iff. exists (o2, w2, r). auto.
Qed.

Lemma in_compose (A B : Fst) (i o r : bytes) (w : weight) :
  In (o, w, r) (compose A B i) <->
  exists m w1 w2,
    In (m, w1, r) (A i) /\ In (o, w2, []) (B m) /\ w = Times w1 w2.
Proof.
  unfold compose. rewrite in_flat_map. split.
  - intros ([[m w1] r'] & HA & H). apply in_flat_map in H.
    destruct H as ([[o' w2] r2] & HB & H).
    destruct r2 as [|c r2]; simpl in H; [|contradiction].
    destruct H as [E|[]]. injection E as <- <- <-.
    exists m, w1, w2. auto.
  - intros (m & w1 & w2 & HA & HB & ->).
    exists (m, w1, r). split; [assumption|].
    apply in_flat_map. exists (o, w2, []). simpl. auto.
Qed.

Lemma accepts_true (T : Fst) (i : bytes) :
  accepts T i = true <-> exists o, transduces T i o.
Proof.
  unfold accepts, transduces. rewrite existsb_exists. split.
  - intros ([[o w] r] & Hin & H). apply is_nil_true in H. subst. eauto.
  - intros (o & w & Hin). exists (o, w, []). auto.
Qed.

Lemma accepts_false (T : Fst) (i : bytes) :
  accepts T i = false <-> forall o, ~ transduces T i o.
Proof.
  rewrite <- not_true_iff_false, accepts_true. split.
  - intros H o Ho. apply H. eauto.
  - intros H (o & Ho). exact (H o Ho).
Qed.

Lemma in_difference (A B : Fst) (i o r : bytes) (w : weight) :
  In (o, w, r) (difference A B i) <->
  In (o, w, r) (A i) /\ accepts B o = false.
Proof.
  unfold difference. rewrite filter_In, negb_true_iff. tauto.
Qed.

Lemma in_outputs (T : Fst) (i o : bytes) :
  In o (outputs T i) <-> transduces T i o.
Proof.
  unfold outputs, transduces. rewrite in_flat_map. split.
  - intros ([[o' w] r] & Hin & H). destruct r; simpl in H; [|contradiction].
    destruct H as [<-|[]]. eauto.
  - intros (w & Hin). exists (o, w, []). simpl. auto.
Qed.

(** Fuel beyond the length of the input does not change the star. *)
Lemma star_fuel_enough (T : Fst) (x : result) (n n' : nat) (i : bytes) :
  List.length i <= n' -> In x (star_fuel n T i) -> In x (star_fuel n' T i).
Proof.
  revert n' i x. induction n as [|n IH]; intros n' i x Hn H.
  - destruct H as [<-|[]]. destruct n'; simpl; auto.
  - simpl in H. destruct H as [<-|H]; [destruct n'; simpl; auto|].
    apply in_flat_map in H. destruct H as ([[o1 w1] m] & HT & H).
    destruct (List.length m <? List.length i) eqn:E; [|contradiction].
    apply Nat.ltb_lt in E. destruct n' as [|n']; [lia|].
    simpl. right. apply in_flat_map. exists (o1, w1, m).
    split; [assumption|].
    apply Nat.ltb_lt in E. rewrite E. apply Nat.ltb_lt in E.
    apply in_map_iff in H. destruct H as ([[o2 w2] r] & <- & H).
    apply in_map_iff. exists (o2, w2, r). split; [reflexivity|].
    apply IH; [lia | assumption].
Qed.

Lemma in_closure (T : Fst) (i o r : bytes) (w : weight) :
  In (o, w, r) (closure T i) <->
  (o = [] /\ w = One /\ r = i) \/
  exists o1 w1 m o2 w2,
    In (o1, w1, m) (T i) /\ List.length m < List.length i /\
    In (o2, w2, r) (closure T m) /\ o = o1 ++ o2 /\ w = Times w1 w2.
Proof.
  unfold closure. split.
  - intros H. destruct (List.length i) as [|n] eqn:En.
    + destruct H as [H|[]]. injection H as <- <- <-. auto.
    + simpl in H. destruct H as [H|H].
      * injection H as <- <- <-. auto.
      * right. apply in_flat_map in H. destruct H as ([[o1 w1] m] & HT & H).
        rewrite En in H.
        destruct (List.length m <? S n) eqn:E; [|contradiction].
        apply Nat.ltb_lt in E.
        apply in_map_iff in H. destruct H as ([[o2 w2] r'] & E' & H).
        injection E' as <- <- <-.
        exists o1, w1, m, o2, w2. repeat split; try assumption.
        apply (star_fuel_enough T _ n); [lia | assumption].
  - intros [(-> & -> & ->)|(o1 & w1 & m & o2 & w2 & HT & Hlt & H & -> & ->)].
    + destruct (List.length i); simpl; auto.
    + destruct (List.length i) as [|n] eqn:En; [lia|].
      simpl. right. apply in_flat_map. exists (o1, w1, m).
      split; [assumption|]. rewrite En.
      apply Nat.ltb_lt in Hlt. rewrite Hlt. apply Nat.ltb_lt in Hlt.
      apply in_map_iff. exists (o2, w2, r). split; [reflexivity|].
      apply (star_fuel_enough T _ (List.length m)); [lia | assumption].
Qed.

(** *** Transducers as relations on strings

    A transducer is [local] when what it does depends only on the prefix it
    reads: its runs on [i] that leave [r] are its runs on the whole of [p],
    for [i = p ++ r].  The transducers built with the algebra are local. *)

Lemma local_extend (T : Fst) (p o r : bytes) (w : weight) :
  local T -> In (o, w, []) (T p) -> In (o, w, r) (T (p ++ r)).
Proof. intros HT H. apply HT. eauto. Qed.

Lemma local_accep_w (s : bytes) (c : weight) : local (accep_w s c).
Proof.
  intros i o w r. rewrite in_accep_w. split.
  - intros (-> & -> & -> & Hc). exists s. split; [reflexivity|].
    apply in_accep_w. rewrite app_nil_r. auto.
  - intros (p & -> & H). apply in_accep_w in H.
    destruct H as (-> & -> & H & Hc). rewrite app_nil_r in H. subst. auto.
Qed.

Lemma local_accep (s : bytes) : local (accep s).
Proof. apply local_accep_w. Qed.

Lemma local_byte_range (lo hi : nat) : local (byte_range lo hi).
Proof.
  intros i o w r. rewrite in_byte_range. split.
  - intros (c & -> & -> & -> & Hc). exists [c]. split; [reflexivity|].
    apply in_byte_range. exists c. auto.
  - intros (p & -> & H). apply in_byte_range in H.
    destruct H as (c & -> & -> & -> & Hc). exists c. auto.
Qed.

Lemma local_cross_to (A : Fst) (s : bytes) : local A -> local (cross_to A s).
Proof.
  intros HA i o w r. rewrite in_cross_to. split.
  - intros (-> & o' & H). apply HA in H. destruct H as (p & -> & H).
    exists p. split; [reflexivity|]. apply in_cross_to. eauto.
  - intros (p & -> & H). apply in_cross_to in H. destruct H as (-> & o' & H).
    split; [reflexivity|]. exists o'. now apply local_extend.
Qed.

Lemma local_cross (a b : bytes) : local (cross a b).
Proof. apply local_cross_to, local_accep. Qed.

Lemma local_delete (A : Fst) : local A -> local (delete A).
Proof. apply local_cross_to. Qed.

Lemma local_insert (s : bytes) : local (insert s).
Proof.
  intros i o w r. rewrite in_insert. split.
  - intros (-> & -> & ->). exists []. split; [reflexivity|].
    apply in_insert. auto.
  - intros (p & -> & H). apply in_insert in H. destruct H as (-> & -> & <-).
    auto.
Qed.

Lemma local_union (A B : Fst) : local A -> local B -> local (union A B).
Proof.
  intros HA HB i o w r. rewrite in_union, (HA i), (HB i). split.
  - intros [(p & E & H)|(p & E & H)]; exists p; rewrite in_union; auto.
  - intros (p & E & H). apply in_union in H. destruct H; eauto.
Qed.

Lemma local_union_list (l : list Fst) : Forall local l -> local (union_list l).
Proof.
  intros Hl i o w r. rewrite Forall_forall in Hl. rewrite in_union_list. split.
  - intros (T & HT & H). apply (Hl T HT) in H. destruct H as (p & E & H).
    exists p. rewrite in_union_list. eauto.
  - intros (p & E & H). apply in_union_list in H. destruct H as (T & HT & H).
    exists T. split; [assumption|]. apply (Hl T HT). eauto.
Qed.

Lemma local_concat (A B : Fst) : local A -> local B -> local (concat A B).
Proof.
  intros HA HB i o w r. rewrite in_concat. split.
  - intros (o1 & w1 & m & o2 & w2 & H1 & H2 & -> & ->).
    apply HA in H1. destruct H1 as (p1 & -> & H1).
    apply HB in H2. destruct H2 as (p2 & -> & H2).
    exists (p1 ++ p2). split; [now rewrite app_assoc|].
    apply in_concat. exists o1, w1, p2, o2, w2.
    repeat split; try assumption. now apply local_extend.
  - intros (p & -> & H). apply in_concat in H.
    destruct H as (o1 & w1 & m & o2 & w2 & H1 & H2 & -> & ->).
    apply HA in H1. destruct H1 as (p1 & -> & H1).
    exists o1, w1, (m ++ r), o2, w2. repeat split.
    + rewrite <- app_assoc. now apply local_extend.
    + now apply local_extend.
Qed.

Lemma local_closure (T : Fst) : local T -> local (closure T).
Proof.
  intros HT i o w r. split.
  - remember (List.length i) as n eqn:En. revert i o w r En.
    induction n as [n IH] using lt_wf_ind. intros i o w r En H.
    apply in_closure in H.
    destruct H as [(-> & -> & ->)|(o1 & w1 & m & o2 & w2 & H1 & Hlt & H2 & -> & ->)].
    + exists []. split; [reflexivity|]. apply in_closure. auto.
    + apply HT in H1. destruct H1 as (p1 & -> & H1).
      apply (IH (List.length m)) in H2; [|lia|reflexivity].
      destruct H2 as (p2 & -> & H2).
      exists (p1 ++ p2). split; [now rewrite app_assoc|].
      apply in_closure. right. exists o1, w1, p2, o2, w2.
      repeat split; try assumption.
      * now apply local_extend.
      * rewrite !length_app in *. lia.
  - intros (p & -> & H).
    remember (List.length p) as n eqn:En. revert p o w En H.
    induction n as [n IH] using lt_wf_ind. intros p o w En H.
    apply in_closure in H.
    destruct H as [(-> & -> & <-)|(o1 & w1 & m & o2 & w2 & H1 & Hlt & H2 & -> & ->)].
    + apply in_closure. auto.
    + apply HT in H1. destruct H1 as (p1 & -> & H1).
      apply in_closure. right. exists o1, w1, (m ++ r), o2, w2.
      repeat split.
      * rewrite <- app_assoc. now apply local_extend.
      * rewrite !length_app in *. lia.
      * apply (IH (List.length m)); [lia | reflexivity | assumption].
Qed.

Lemma local_closure_1 (T : Fst) : local T -> local (closure_1 T).
Proof. intros HT. apply local_concat; [assumption | now apply local_closure]. Qed.

Lemma local_closure_0_1 (T : Fst) : local T -> local (closure_0_1 T).
Proof. intros HT. apply local_union; [apply local_accep | assumption]. Qed.

Lemma consumed_app (p r : bytes) : consumed (p ++ r) r = p.
Proof.
  unfold consumed. rewrite length_app, Nat.add_sub.
  rewrite firstn_app, Nat.sub_diag, firstn_all. simpl. apply app_nil_r.
Qed.

Lemma consumed_nil (p : bytes) : consumed p [] = p.
Proof. unfold consumed. simpl. rewrite Nat.sub_0_r. apply firstn_all. Qed.

Lemma local_project_input (T : Fst) : local T -> local (project_input T).
Proof.
  intros HT i o w r. unfold project_input. rewrite in_map_iff. split.
  - intros ([[o' w'] r'] & E & H). injection E as <- <- <-.
    apply HT in H. destruct H as (p & -> & H). exists p.
    split; [reflexivity|]. apply in_map_iff. exists (o', w', []).
    split; [|assumption]. now rewrite consumed_app, consumed_nil.
  - intros (p & -> & H). apply in_map_iff in H.
    destruct H as ([[o' w'] r'] & E & H). injection E as E1 E2 E3. subst.
    exists (o', w, r). split; [|now apply local_extend].
    now rewrite consumed_app, consumed_nil.
Qed.

Lemma local_difference (A B : Fst) : local A -> local (difference A B).
Proof.
  intros HA i o w r. rewrite in_difference, (HA i). split.
  - intros ((p & E & H) & HB). exists p. rewrite in_difference. auto.
  - intros (p & E & H). apply in_difference in H. destruct H. eauto.
Qed.

Lemma local_compose (A B : Fst) : local A -> local (compose A B).
Proof.
  intros HA i o w r. rewrite in_compose. split.
  - intros (m & w1 & w2 & H1 & H2 & ->). apply HA in H1.
    destruct H1 as (p & -> & H1). exists p. split; [reflexivity|].
    apply in_compose. exists m, w1, w2. auto.
  - intros (p & -> & H). apply in_compose in H.
    destruct H as (m & w1 & w2 & H1 & H2 & ->).
    exists m, w1, w2. repeat split; try assumption. now apply local_extend.
Qed.

Lemma local_cdrewrite_cross (a b : bytes) (sigma_star : Fst) :
  local sigma_star -> local (cdrewrite_cross a b sigma_star).
Proof.
  intros HS i o w r. unfold cdrewrite_cross. rewrite in_map_iff. split.
  - intros ([[o' w'] r'] & E & H). injection E as <- <- <-.
    apply HS in H. destruct H as (p & -> & H). exists p.
    split; [reflexivity|]. apply in_map_iff. exists (o', w', []). auto.
  - intros (p & -> & H). apply in_map_iff in H.
    destruct H as ([[o' w'] r'] & E & H). injection E as E1 E2 E3. subst.
    exists (o', w, r). split; [reflexivity | now apply local_extend].
Qed.

Lemma local_string_map (t : list (bytes * bytes)) : local (string_map t).
Proof.
  apply local_union_list. apply Forall_forall. intros T H.
  apply in_map_iff in H. destruct H as ([k v] & <- & _). apply local_cross.
Qed.

Lemma local_add_weight (T : Fst) (w : weight) : local T -> local (add_weight T w).
Proof. intros HT. apply local_concat; [apply local_accep_w | assumption]. Qed.

Lemma local_priority_union (q r sigma : Fst) :
  local q -> local sigma -> local (_priority_union q r sigma).
Proof.
  intros Hq Hs. apply local_union; [assumption|].
  now apply local_compose, local_difference.
Qed.

Lemma local_chars (s : bytes) : Forall local (chars s).
Proof.
  apply Forall_forall. intros T H. apply in_map_iff in H.
  destruct H as (c & <- & _). apply local_accep.
Qed.

Create HintDb fst_local.

#[export] Hint Resolve local_accep_w local_accep local_byte_range local_cross_to
  local_cross local_delete local_insert local_union local_union_list
  local_concat local_closure local_closure_1 local_closure_0_1
  local_project_input local_difference local_compose local_cdrewrite_cross
  local_string_map local_add_weight local_priority_union local_chars
  : fst_local.

#[export] Hint Constructors Forall : fst_local.

Ltac solve_local :=
  repeat (unfold optimize, NEMO_CHAR, VALID_UTF8_CHAR, SINGLE_BYTE,
           LEADING_BYTE_2, LEADING_BYTE_3, LEADING_BYTE_4, CONTINUATION_BYTE,
           NEMO_WHITE_SPACE, NEMO_NOT_QUOTE, NEMO_NOT_SPACE, NEMO_SIGMA,
           delete_space, delete_extra_space, insert_space);
  auto 20 with fst_local.

Lemma local_NEMO_CHAR : local NEMO_CHAR.
Proof. solve_local. Qed.

Lemma local_NEMO_SIGMA : local NEMO_SIGMA.
Proof. solve_local. Qed.

Lemma local_NEMO_WHITE_SPACE : local NEMO_WHITE_SPACE.
Proof. solve_local. Qed.

Lemma local_NEMO_NOT_QUOTE : local NEMO_NOT_QUOTE.
Proof. solve_local. Qed.

Lemma local_delete_space : local delete_space.
Proof. solve_local. Qed.

Lemma local_delete_extra_space : local delete_extra_space.
Proof. solve_local. Qed.

#[export] Hint Resolve local_NEMO_CHAR local_NEMO_SIGMA local_NEMO_WHITE_SPACE
  local_NEMO_NOT_QUOTE local_delete_space local_delete_extra_space : fst_local.

(** *** Acceptors *)

Lemma acceptor_accep (s : bytes) : acceptor (accep s).
Proof. intros i o w r H. apply in_accep in H. now destruct H as (-> & _ & ->). Qed.

Lemma acceptor_byte_range (lo hi : nat) : acceptor (byte_range lo hi).
Proof.
  intros i o w r H. apply in_byte_range in H.
  now destruct H as (c & -> & -> & _).
Qed.

Lemma acceptor_union (A B : Fst) : acceptor A -> acceptor B -> acceptor (union A B).
Proof. intros HA HB i o w r H. apply in_union in H. destruct H; eauto. Qed.

Lemma acceptor_union_list (l : list Fst) :
  Forall acceptor l -> acceptor (union_list l).
Proof.
  intros Hl i o w r H. rewrite Forall_forall in Hl.
  apply in_union_list in H. destruct H as (T & HT & H). exact (Hl T HT _ _ _ _ H).
Qed.

Lemma acceptor_concat (A B : Fst) :
  acceptor A -> acceptor B -> acceptor (concat A B).
Proof.
  intros HA HB i o w r H. apply in_concat in H.
  destruct H as (o1 & w1 & m & o2 & w2 & H1 & H2 & -> & _).
  apply HA in H1. apply HB in H2. subst. now rewrite app_assoc.
Qed.

Lemma acceptor_closure (T : Fst) : acceptor T -> acceptor (closure T).
Proof.
  intros HT i. remember (List.length i) as n eqn:En. revert i En.
  induction n as [n IH] using lt_wf_ind. intros i En o w r H.
  apply in_closure in H.
  destruct H as [(-> & _ & ->)|(o1 & w1 & m & o2 & w2 & H1 & Hlt & H2 & -> & _)].
  - reflexivity.
  - apply HT in H1. apply (IH (List.length m)) in H2; [|lia|reflexivity].
    subst. now rewrite app_assoc.
Qed.

Lemma acceptor_difference (A B : Fst) : acceptor A -> acceptor (difference A B).
Proof. intros HA i o w r H. apply in_difference in H. destruct H. eauto. Qed.

Lemma acceptor_chars (s : bytes) : Forall acceptor (chars s).
Proof.
  apply Forall_forall. intros T H. apply in_map_iff in H.
  destruct H as (c & <- & _). apply acceptor_accep.
Qed.

Create HintDb fst_acceptor.

#[export] Hint Resolve acceptor_accep acceptor_byte_range acceptor_union
  acceptor_union_list acceptor_concat acceptor_closure acceptor_difference
  acceptor_chars : fst_acceptor.

#[export] Hint Constructors Forall : fst_acceptor.

Ltac solve_acceptor :=
  repeat (unfold optimize, NEMO_CHAR, VALID_UTF8_CHAR, SINGLE_BYTE,
           LEADING_BYTE_2, LEADING_BYTE_3, LEADING_BYTE_4, CONTINUATION_BYTE,
           NEMO_WHITE_SPACE, NEMO_NOT_QUOTE, NEMO_NOT_SPACE, NEMO_SIGMA);
  auto 20 with fst_acceptor.

Lemma acceptor_NEMO_CHAR : acceptor NEMO_CHAR.
Proof. solve_acceptor. Qed.

Lemma acceptor_NEMO_SIGMA : acceptor NEMO_SIGMA.
Proof. solve_acceptor. Qed.

Lemma acceptor_NEMO_WHITE_SPACE : acceptor NEMO_WHITE_SPACE.
Proof. solve_acceptor. Qed.

Lemma acceptor_NEMO_NOT_QUOTE : acceptor NEMO_NOT_QUOTE.
Proof. solve_acceptor. Qed.

(** *** Runs without their costs *)

Lemma yields_accep (s i o r : bytes) :
  yields (accep s) i o r <-> o = s /\ i = s ++ r.
Proof.
  unfold yields. split.
  - intros (w & H). apply in_accep in H. tauto.
  - intros (-> & ->). exists One. apply in_accep. auto.
Qed.

Lemma yields_cross_to (A : Fst) (s i o r : bytes) :
  yields (cross_to A s) i o r <-> o = s /\ exists o', yields A i o' r.
Proof.
  unfold yields. split.
  - intros (w & H). apply in_cross_to in H. destruct H as (-> & o' & H). eauto.
  - intros (-> & o' & w & H). exists w. apply in_cross_to. eauto.
Qed.

Lemma yields_delete (A : Fst) (i o r : bytes) :
  yields (delete A) i o r <-> o = [] /\ exists o', yields A i o' r.
Proof. apply yields_cross_to. Qed.

Lemma yields_delete_accep (s i o r : bytes) :
  yields (delete (accep s)) i o r <-> o = [] /\ i = s ++ r.
Proof.
  rewrite yields_delete. split.
  - intros (-> & o' & H). apply yields_accep in H. tauto.
  - intros (-> & ->). split; [reflexivity|]. exists s. now apply yields_accep.
Qed.

Lemma yields_insert (s i o r : bytes) :
  yields (insert s) i o r <-> o = s /\ r = i.
Proof.
  unfold yields. split.
  - intros (w & H). apply in_insert in H. tauto.
  - intros (-> & ->). exists One. apply in_insert. auto.
Qed.

Lemma yields_union (A B : Fst) (i o r : bytes) :
  yields (union A B) i o r <-> yields A i o r \/ yields B i o r.
Proof.
  unfold yields. split.
  - intros (w & H). apply in_union in H. destruct H; eauto.
  - intros [(w & H)|(w & H)]; exists w; apply in_union; auto.
Qed.

Lemma yields_union_list (l : list Fst) (i o r : bytes) :
  yields (union_list l) i o r <-> exists T, In T l /\ yields T i o r.
Proof.
  unfold yields. split.
  - intros (w & H). apply in_union_list in H. destruct H as (T & HT & H). eauto.
  - intros (T & HT & w & H). exists w. apply in_union_list. eauto.
Qed.

Lemma yields_concat (A B : Fst) (i o r : bytes) :
  yields (concat A B) i o r <->
  exists o1 m o2, yields A i o1 m /\ yields B m o2 r /\ o = o1 ++ o2.
Proof.
  unfold yields. split.
  - intros (w & H). apply in_concat in H.
    destruct H as (o1 & w1 & m & o2 & w2 & H1 & H2 & -> & _).
    exists o1, m, o2. eauto.
  - intros (o1 & m & o2 & (w1 & H1) & (w2 & H2) & ->).
    exists (Times w1 w2). apply in_concat. exists o1, w1, m, o2, w2. auto.
Qed.

Lemma yields_compose (A B : Fst) (i o r : bytes) :
  yields (compose A B) i o r <-> exists m, yields A i m r /\ transduces B m o.
Proof.
  unfold yields, transduces. split.
  - intros (w & H). apply in_compose in H.
    destruct H as (m & w1 & w2 & H1 & H2 & _). eauto.
  - intros (m & (w1 & H1) & (w2 & H2)).
    exists (Times w1 w2). apply in_compose. exists m, w1, w2. auto.
Qed.

Lemma yields_closure (T : Fst) (i o r : bytes) :
  yields (closure T) i o r <->
  (o = [] /\ r = i) \/
  exists o1 m o2,
    yields T i o1 m /\ List.length m < List.length i /\
    yields (closure T) m o2 r /\ o = o1 ++ o2.
Proof.
  unfold yields. split.
  - intros (w & H). apply in_closure in H.
    destruct H as [(-> & _ & ->)|(o1 & w1 & m & o2 & w2 & H1 & Hlt & H2 & -> & _)].
    + auto.
    + right. exists o1, m, o2. repeat split; eauto.
  - intros [(-> & ->)|(o1 & m & o2 & (w1 & H1) & Hlt & (w2 & H2) & ->)].
    + exists One. apply in_closure. auto.
    + exists (Times w1 w2). apply in_closure. right.
      exists o1, w1, m, o2, w2. auto.
Qed.

Lemma yields_difference (A B : Fst) (i o r : bytes) :
  yields (difference A B) i o r <-> yields A i o r /\ accepts B o = false.
Proof.
  unfold yields. split.
  - intros (w & H). apply in_difference in H. destruct H. eauto.
  - intros ((w & H) & HB). exists w. apply in_difference. auto.
Qed.

Lemma yields_local (T : Fst) (i o r : bytes) :
  local T -> (yields T i o r <-> exists p, i = p ++ r /\ transduces T p o).
Proof.
  intros HT. unfold yields, transduces. split.
  - intros (w & H). apply HT in H. destruct H as (p & E & H). eauto.
  - intros (p & E & w & H). exists w. apply HT. eauto.
Qed.

Lemma yields_extend (T : Fst) (p o r : bytes) :
  local T -> transduces T p o -> yields T (p ++ r) o r.
Proof. intros HT H. apply yields_local; eauto. Qed.

Lemma transduces_yields (T : Fst) (i o : bytes) :
  transduces T i o <-> yields T i o [].
Proof. reflexivity. Qed.

Lemma yields_acceptor (T : Fst) (i o r : bytes) :
  acceptor T -> yields T i o r -> i = o ++ r.
Proof. intros HT (w & H). exact (HT _ _ _ _ H). Qed.

Lemma transduces_acceptor (T : Fst) (i o : bytes) :
  acceptor T -> transduces T i o -> o = i.
Proof.
  intros HT H. apply (yields_acceptor _ _ _ _ HT) in H.
  now rewrite app_nil_r in H.
Qed.

(** *** Strings: sequences of characters *)

Lemma is_string_transduces (s : bytes) :
  is_string s <-> transduces NEMO_SIGMA s s.
Proof.
  unfold is_string. rewrite accepts_true. split.
  - intros (o & H).
    now pose proof (transduces_acceptor _ _ _ acceptor_NEMO_SIGMA H) as ->.
  - eauto.
Qed.

Lemma yields_NEMO_SIGMA (i o r : bytes) :
  yields NEMO_SIGMA i o r <-> i = o ++ r /\ is_string o.
Proof.
  rewrite (yields_local _ _ _ _ local_NEMO_SIGMA), is_string_transduces. split.
  - intros (p & -> & H).
    pose proof (transduces_acceptor _ _ _ acceptor_NEMO_SIGMA H) as ->. auto.
  - intros (-> & H). eauto.
Qed.

Lemma transduces_NEMO_SIGMA (i o : bytes) :
  transduces NEMO_SIGMA i o <-> o = i /\ is_string i.
Proof.
  rewrite transduces_yields, yields_NEMO_SIGMA, app_nil_r. split.
  - now intros (-> & H).
  - now intros (-> & H).
Qed.

Lemma is_string_nil : is_string [].
Proof. reflexivity. Qed.

(** A character is one byte below 128, or a byte from 192 followed by bytes
    from 128. *)
Lemma NEMO_CHAR_shape (i o r : bytes) :
  yields NEMO_CHAR i o r ->
  exists c cs,
    o = c :: cs /\
    ((cs = [] /\ 1 <= nat_of_ascii c <= 127) \/
     (cs <> [] /\ 192 <= nat_of_ascii c /\
      Forall (fun k => 128 <= nat_of_ascii k) cs)).
Proof.
  intros (w & H). unfold NEMO_CHAR, VALID_UTF8_CHAR in H.
  apply in_union_list in H. destruct H as (T & HT & H).
  simpl in HT.
  repeat match goal with
         | H : _ \/ _ |- _ => destruct H as [H|H]
         end; try contradiction; subst T;
  repeat match goal with
         | H : In _ (concat _ _ _) |- _ =>
             apply in_concat in H;
             destruct H as (? & ? & ? & ? & ? & H & ? & ? & ?)
         end;
  repeat match goal with
         | H : In _ (_ _) |- _ =>
             apply in_byte_range in H;
             destruct H as (? & ? & ? & ? & ? & ?)
         end; subst; simpl.
  - eexists _, _. split; [reflexivity|]. left. split; [reflexivity | lia].
  - eexists _, _. split; [reflexivity|]. right.
    split; [discriminate|]. split; [lia|]. repeat constructor; lia.
  - eexists _, _. split; [reflexivity|]. right.
    split; [discriminate|]. split; [lia|]. repeat constructor; lia.
  - eexists _, _. split; [reflexivity|]. right.
    split; [discriminate|]. split; [lia|]. repeat constructor; lia.
Qed.

Lemma is_string_cons_iff (s : bytes) :
  is_string s <->
  s = [] \/
  exists c t, s = c ++ t /\ c <> [] /\ transduces NEMO_CHAR c c /\ is_string t.
Proof.
  rewrite is_string_transduces at 1. unfold NEMO_SIGMA at 1.
  rewrite transduces_yields, yields_closure. split.
  - intros [(_ & <-)|(o1 & m & o2 & H1 & Hlt & H2 & E)]; [auto|].
    right. apply (yields_local _ _ _ _ local_NEMO_CHAR) in H1.
    destruct H1 as (p & -> & H1).
    pose proof (transduces_acceptor _ _ _ acceptor_NEMO_CHAR H1) as ->.
    apply yields_NEMO_SIGMA in H2. rewrite app_nil_r in H2.
    destruct H2 as (-> & H2). exists p, o2. repeat split; try assumption.
    intros ->. simpl in Hlt. lia.
  - intros [->|(c & t & -> & Hc & H1 & H2)]; [auto|].
    right. exists c, t, t. repeat split.
    + now apply yields_extend; [apply local_NEMO_CHAR|].
    + rewrite length_app. destruct c; [congruence | simpl; lia].
    + apply yields_NEMO_SIGMA. now rewrite app_nil_r.
Qed.

Lemma is_string_app (s t : bytes) :
  is_string s -> is_string t -> is_string (s ++ t).
Proof.
  remember (List.length s) as n eqn:En. revert s En.
  induction n as [n IH] using lt_wf_ind. intros s En Hs Ht.
  apply is_string_cons_iff in Hs.
  destruct Hs as [->|(c & s' & -> & Hc & H1 & H2)]; [assumption|].
  apply is_string_cons_iff. right. exists c, (s' ++ t).
  rewrite <- app_assoc. repeat split; try assumption.
  apply (IH (List.length s')); try assumption; try reflexivity.
  rewrite length_app in En. destruct c; [congruence | simpl in En; lia].
Qed.

(** A byte below 128 is a character of its own. *)
Lemma is_string_single (a : ascii) :
  1 <= nat_of_ascii a <= 127 -> is_string [a].
Proof.
  intros Ha. apply is_string_cons_iff. right. exists [a], [].
  split; [reflexivity|]. split; [discriminate|].
  split; [|apply is_string_nil].
  exists One. unfold NEMO_CHAR, VALID_UTF8_CHAR. apply in_union_list.
  exists SINGLE_BYTE. split; [simpl; auto|].
  apply in_byte_range. exists a. auto.
Qed.

(** Removing a last byte below 128 from a string leaves a string. *)
Lemma is_string_remove_last (s : bytes) (a : ascii) :
  nat_of_ascii a < 128 -> is_string (s ++ [a]) -> is_string s.
Proof.
  intros Ha. remember (List.length s) as n eqn:En. revert s En.
  induction n as [n IH] using lt_wf_ind. intros s En H.
  apply is_string_cons_iff in H.
  destruct H as [H|(c & t & E & Hc & H1 & H2)].
  - destruct s; discriminate.
  - destruct t as [|x t0].
    + (* the last character is the whole of [s ++ [a]] *)
      rewrite app_nil_r in E. subst c.
      apply NEMO_CHAR_shape in H1.
      destruct H1 as (c0 & cs & E & [(-> & _)|(Hcs & _ & Hall)]).
      * destruct s as [|x [|y s]]; try discriminate. apply is_string_nil.
      * destruct (exists_last Hcs) as (cs' & b & ->).
        change (c0 :: cs' ++ [b]) with ((c0 :: cs') ++ [b]) in E.
        apply app_inj_tail in E. destruct E as (_ & ->).
        apply Forall_app in Hall. destruct Hall as (_ & Hb).
        inversion Hb; subst. lia.
    + assert (Hne : x :: t0 <> []) by discriminate.
      destruct (exists_last Hne) as (t' & b & Et). rewrite Et in *.
      rewrite app_assoc in E. apply app_inj_tail in E.
      destruct E as (-> & ->).
      apply is_string_cons_iff. right. exists c, t'.
      repeat split; try assumption.
      apply (IH (List.length t')); try assumption; try reflexivity.
      rewrite length_app in En. destruct c; [congruence | simpl in En; lia].
Qed.

Lemma is_string_tail (c : ascii) (t : bytes) :
  nat_of_ascii c < 128 -> is_string (c :: t) -> is_string t.
Proof.
  intros Hc H. apply is_string_cons_iff in H.
  destruct H as [H|(ch & t' & E & _ & H1 & H2)]; [discriminate|].
  apply NEMO_CHAR_shape in H1.
  destruct H1 as (c0 & cs & -> & [(-> & _)|(_ & H192 & _)]).
  - now injection E as _ <-.
  - injection E as <- _. lia.
Qed.

(** ** Capitalized input *)

Lemma yields_add_weight (T : Fst) (c : weight) (i o r : bytes) :
  yields (add_weight T c) i o r <-> c <> Infinity /\ yields T i o r.
Proof.
  unfold add_weight. rewrite yields_concat. split.
  - intros (o1 & m & o2 & (w1 & H1) & H2 & ->).
    apply in_accep_w in H1. destruct H1 as (-> & _ & -> & Hc). auto.
  - intros (Hc & H). exists [], i, o. repeat split; [|assumption].
    exists c. apply in_accep_w. auto.
Qed.

Lemma keeps_paths_spec (w : option pyfloat) :
  keeps_paths w = true <->
  match w with
  | Some x => weight_of_float x <> Infinity
  | None => True
  end.
Proof.
  destruct w as [x|]; simpl; [|tauto].
  destruct (weight_of_float x); split; try tauto; try discriminate.
Qed.

Lemma finite_weight_keeps (w : option pyfloat) :
  finite_weight w -> keeps_paths w = true.
Proof.
  destruct w as [x|]; simpl; [|reflexivity].
  now destruct (weight_of_float x).
Qed.

Lemma yields_optional_weight (T : Fst) (c : option pyfloat) (i o r : bytes) :
  yields match c with
         | Some w => add_weight T (weight_of_float w)
         | None => T
         end i o r <->
  keeps_paths c = true /\ yields T i o r.
Proof.
  rewrite keeps_paths_spec.
  destruct c; [apply yields_add_weight | tauto].
Qed.

Lemma is_lower_ascii (c : ascii) : is_lower c = true -> nat_of_ascii c < 128.
Proof.
  unfold is_lower. rewrite existsb_exists. intros (x & Hx & E).
  apply Ascii.eqb_eq in E. subst x. simpl in Hx.
  repeat (destruct Hx as [<-|Hx]; [apply Nat.ltb_lt; reflexivity|]).
  contradiction.
Qed.

Lemma TO_LOWER_to_upper (c : ascii) (t : bytes) :
  is_lower c = true -> yields TO_LOWER (to_upper c :: t) [c] t.
Proof.
  intros Hc. unfold to_upper. rewrite Hc. revert Hc.
  unfold is_lower. rewrite existsb_exists. intros (x & Hx & E).
  apply Ascii.eqb_eq in E. subst x. exists One.
  unfold TO_LOWER. apply in_union_list.
  exists (cross [ascii_of_nat (nat_of_ascii c - 32)] [c]). split.
  - simpl in Hx.
    repeat (destruct Hx as [<-|Hx]; [simpl; tauto|]). contradiction.
  - apply in_cross_to. split; [reflexivity|].
    eexists. apply in_accep. eauto.
Qed.

(** What the capitalized graph accepts, costs apart. *)
Lemma yields_capitalized_input_graph
    (G : Fst) (ow cw : option pyfloat) (i o r : bytes) :
  yields (capitalized_input_graph G ow cw) i o r <->
  (keeps_paths ow = true /\ yields G i o r) \/
  (keeps_paths cw = true /\
   yields (compose (concat TO_LOWER NEMO_SIGMA) G) i o r).
Proof.
  unfold capitalized_input_graph, optimize.
  now rewrite yields_union, !yields_optional_weight.
Qed.

(** C7.  Weights that are absent or that the library reads as finite floats
    do not change the strings that [capitalized_input_graph] accepts nor
    what it maps them to: it relates an input to an output with such weights
    exactly when it does without weights. *)
Theorem capitalized_input_graph_weights
    (G : Fst) (original_graph_weight capitalized_graph_weight : option pyfloat)
    (i o : bytes) :
  finite_weight original_graph_weight ->
  finite_weight capitalized_graph_weight ->
  (transduces
     (capitalized_input_graph G original_graph_weight capitalized_graph_weight)
     i o <->
   transduces (capitalized_input_graph G None None) i o).
Proof.
  intros Ho Hc. apply finite_weight_keeps in Ho, Hc.
  rewrite !transduces_yields, !yields_capitalized_input_graph.
  rewrite Ho, Hc. reflexivity.
Qed.

(** The float [1e39] is read as an infinite weight; given as the weight of
    the original graph it removes that graph, and the acceptor of [one] no
    longer accepts [one]. *)
Lemma capitalized_input_graph_weights_counterexample :
  weight_of_float sample_1e39 = Infinity /\
  transduces (capitalized_input_graph (accep (str "one")) None None)
             (str "one") (str "one") /\
  forall o,
    ~ transduces
        (capitalized_input_graph (accep (str "one")) (Some sample_1e39) None)
        (str "one") o.
Proof.
  split; [vm_compute; reflexivity|]. split.
  - apply in_outputs. vm_compute. auto.
  - intros o H. apply in_outputs in H. vm_compute in H. exact H.
Qed.

Lemma capitalized_input_graph_weights_witness :
  transduces
    (capitalized_input_graph (cross (str "one") (str "1"))
       (Some MIN_POS_WEIGHT) (Some MIN_NEG_WEIGHT))
    (str "One") (str "1") <->
  transduces (capitalized_input_graph (cross (str "one") (str "1")) None None)
    (str "One") (str "1").
Proof.
  apply (capitalized_input_graph_weights (cross (str "one") (str "1"))
           (Some MIN_POS_WEIGHT) (Some MIN_NEG_WEIGHT) (str "One") (str "1")).
  - vm_compute. reflexivity.
  - vm_compute. reflexivity.
Defined.

(** C5.  When a grammar [G] maps a string [s] that begins with a lower-case
    ASCII letter to [o], the graph built by [capitalized_input_graph] from
    [G], with weights that are absent or read as finite floats, maps [s]
    with its first letter capitalized to [o] too. *)
Theorem capitalized_input_graph_accepts
    (G : Fst) (ow cw : option pyfloat) (s o : bytes) :
  finite_weight ow ->
  finite_weight cw ->
  starts_ascii_lower s = true ->
  is_string s ->
  transduces G s o ->
  transduces (capitalized_input_graph G ow cw) (capitalize_first_letter s) o.
Proof.
  intros _ Hcw Hl Hs HG. destruct s as [|c t]; [discriminate|].
  simpl in Hl. unfold capitalize_first_letter. rewrite Hl.
  rewrite transduces_yields, yields_capitalized_input_graph. right.
  split; [now apply finite_weight_keeps|].
  apply yields_compose. exists (c :: t). split; [|assumption].
  apply yields_concat. exists [c], t, t. repeat split.
  - now apply TO_LOWER_to_upper.
  - apply yields_NEMO_SIGMA. rewrite app_nil_r. split; [reflexivity|].
    apply (is_string_tail c); [now apply is_lower_ascii | assumption].
Qed.

(** The acceptor of [sample_elan] accepts it, and it begins with a
    lower-case letter that is not an ASCII letter; the capitalized graph
    does not accept it with its first letter capitalized. *)
Lemma capitalized_input_graph_accepts_counterexample :
  starts_lower sample_elan = true /\
  is_string sample_elan /\
  transduces (accep sample_elan) sample_elan sample_elan /\
  capitalize_first_letter sample_elan =
    byte_of 195 :: byte_of 137 :: str "lan" /\
  forall o,
    ~ transduces (capitalized_input_graph (accep sample_elan) None None)
        (capitalize_first_letter sample_elan) o.
Proof.
  split; [reflexivity|]. split; [reflexivity|]. split.
  - apply in_outputs. vm_compute. auto.
  - split; [reflexivity|].
    intros o H. apply in_outputs in H. vm_compute in H. exact H.
Qed.

Lemma capitalized_input_graph_accepts_witness :
  transduces
    (capitalized_input_graph (cross (str "one") (str "1"))
       (Some MIN_POS_WEIGHT) (Some MIN_NEG_WEIGHT))
    (str "One") (str "1").
Proof.
  apply (capitalized_input_graph_accepts
           (cross (str "one") (str "1")) _ _ (str "one") (str "1")).
  - vm_compute. reflexivity.
  - vm_compute. reflexivity.
  - reflexivity.
  - reflexivity.
  - exists One. simpl. auto.
Defined.

(** ** Non-breaking spaces *)

Lemma rewrite_ltr_cons (a b : bytes) (c : ascii) (t : bytes) :
  rewrite_ltr a b (c :: t) 0 =
  match strip_prefix a (c :: t) with
  | Some _ => b ++ rewrite_ltr a b t (List.length a - 1)
  | None => c :: rewrite_ltr a b t 0
  end.
Proof. reflexivity. Qed.

Lemma nbsp_to_space_nbsp (t : bytes) :
  nbsp_to_space (NEMO_NON_BREAKING_SPACE ++ t) = str " " ++ nbsp_to_space t.
Proof. reflexivity. Qed.

Lemma nbsp_to_space_other (c : ascii) (t : bytes) :
  strip_prefix NEMO_NON_BREAKING_SPACE (c :: t) = None ->
  nbsp_to_space (c :: t) = c :: nbsp_to_space t.
Proof. intros H. unfold nbsp_to_space. now rewrite rewrite_ltr_cons, H. Qed.

Lemma nbsp_to_space_cases (s : bytes) :
  s = [] \/
  (exists t, s = NEMO_NON_BREAKING_SPACE ++ t) \/
  (exists c t, s = c :: t /\ strip_prefix NEMO_NON_BREAKING_SPACE s = None).
Proof.
  destruct s as [|c t]; [auto|]. right.
  destruct (strip_prefix NEMO_NON_BREAKING_SPACE (c :: t)) as [r|] eqn:E.
  - left. exists r. now apply strip_prefix_spec.
  - right. eauto.
Qed.

Lemma infix_of_cons (p : bytes) (c : ascii) (s : bytes) :
  infix_of p (c :: s) -> (exists r, c :: s = p ++ r) \/ infix_of p s.
Proof.
  intros ([|x l] & r & E).
  - left. eauto.
  - right. injection E as _ ->. exists l, r. reflexivity.
Qed.

Lemma infix_of_nil (p : bytes) : infix_of p [] -> p = [].
Proof.
  intros (l & r & E). symmetry in E. apply app_eq_nil in E.
  destruct E as (_ & E). now apply app_eq_nil in E.
Qed.

(** The rewritten string begins with the second byte of a non-breaking space
    only where the string did. *)
Lemma nbsp_to_space_head (s x : bytes) :
  nbsp_to_space s = byte_of 160 :: x -> exists t, s = byte_of 160 :: t.
Proof.
  destruct (nbsp_to_space_cases s) as [->|[(t & ->)|(c & t & -> & E)]].
  - discriminate.
  - rewrite nbsp_to_space_nbsp. discriminate.
  - rewrite (nbsp_to_space_other _ _ E). intros H. injection H as -> _. eauto.
Qed.

Lemma nbsp_to_space_clean (s : bytes) :
  ~ infix_of NEMO_NON_BREAKING_SPACE (nbsp_to_space s).
Proof.
  remember (List.length s) as n eqn:En. revert s En.
  induction n as [n IH] using lt_wf_ind. intros s En H.
  destruct (nbsp_to_space_cases s) as [->|[(t & ->)|(c & t & -> & E)]].
  - apply infix_of_nil in H. discriminate.
  - rewrite nbsp_to_space_nbsp in H. apply infix_of_cons in H.
    destruct H as [(r & H)|H]; [discriminate|].
    apply (IH (List.length t)) in H; [assumption | | reflexivity].
    subst n. rewrite length_app. simpl. lia.
  - rewrite (nbsp_to_space_other _ _ E) in H. apply infix_of_cons in H.
    destruct H as [(r & H)|H].
    + injection H as -> H. apply nbsp_to_space_head in H.
      destruct H as (t' & ->). discriminate.
    + apply (IH (List.length t)) in H; [assumption | | reflexivity].
      subst n. simpl. lia.
Qed.

(** A string without a non-breaking space is left as it is. *)
Lemma nbsp_to_space_id (s : bytes) :
  ~ infix_of NEMO_NON_BREAKING_SPACE s -> nbsp_to_space s = s.
Proof.
  induction s as [|c t IH]; intros H; [reflexivity|].
  destruct (strip_prefix NEMO_NON_BREAKING_SPACE (c :: t)) as [r|] eqn:E.
  - apply strip_prefix_spec in E. exfalso. apply H. exists [], r. exact E.
  - rewrite (nbsp_to_space_other _ _ E). f_equal. apply IH.
    intros (l & r & ->). apply H. exists (c :: l), r. reflexivity.
Qed.

Lemma transduces_cdrewrite_cross (a b m o : bytes) :
  transduces (cdrewrite_cross a b NEMO_SIGMA) m o <->
  is_string m /\ o = rewrite_ltr a b m 0.
Proof.
  unfold transduces, cdrewrite_cross. split.
  - intros (w & H). apply in_map_iff in H.
    destruct H as ([[m' w'] r'] & E & H). injection E as E1 E2 E3. subst.
    assert (Hm : transduces NEMO_SIGMA m m') by (exists w; assumption).
    apply transduces_NEMO_SIGMA in Hm. destruct Hm as (-> & Hm). auto.
  - intros (Hm & ->). apply is_string_transduces in Hm.
    destruct Hm as (w & Hm). exists w. apply in_map_iff.
    exists (m, w, []). auto.
Qed.

Lemma transduces_delete_tokens (self : GraphFst) (T : Fst) (i o : bytes) :
  transduces (delete_tokens self T) i o <->
  exists m, transduces (delete_tokens_res self T) i m /\
            is_string m /\ o = nbsp_to_space m.
Proof.
  unfold delete_tokens. rewrite transduces_yields, yields_compose.
  split; intros (m & H1 & H2); exists m; split; try assumption;
    now apply transduces_cdrewrite_cross.
Qed.

(** C8.  Every output of [delete_tokens] is an output of the framed grammar
    in which the non-breaking spaces have been rewritten to spaces, and no
    non-breaking space (U+00A0) is left in it. *)
Theorem delete_tokens_no_nbsp (self : GraphFst) (T : Fst) (i o : bytes) :
  transduces (delete_tokens self T) i o ->
  (exists m, transduces (delete_tokens_res self T) i m /\ o = nbsp_to_space m)
  /\ ~ infix_of NEMO_NON_BREAKING_SPACE o.
Proof.
  intros H. apply transduces_delete_tokens in H.
  destruct H as (m & H & _ & ->). split; [eauto|]. apply nbsp_to_space_clean.
Qed.

(** ** Plurals *)

Lemma bytes_eqb_eq (a b : bytes) : bytes_eqb a b = true <-> a = b.
Proof.
  unfold bytes_eqb. destruct (strip_prefix a b) as [[|c r]|] eqn:E.
  - apply strip_prefix_spec in E. rewrite app_nil_r in E. subst. tauto.
  - apply strip_prefix_spec in E. split; [discriminate|]. intros ->.
    rewrite <- (app_nil_r b) in E at 1. apply app_inv_head in E. discriminate.
  - split; [discriminate|]. intros ->.
    rewrite <- (app_nil_r b) in E at 2. rewrite strip_prefix_app in E.
    discriminate.
Qed.

Lemma in_lookup (t : list (bytes * bytes)) (w o : bytes) :
  In o (lookup t w) <-> In (w, o) t.
Proof.
  unfold lookup. rewrite in_map_iff. split.
  - intros ([k v] & <- & H). apply filter_In in H. destruct H as (H & E).
    apply bytes_eqb_eq in E. now subst.
  - intros H. exists (w, o). split; [reflexivity|]. apply filter_In.
    split; [assumption|]. now apply bytes_eqb_eq.
Qed.

Lemma transduces_string_map (t : list (bytes * bytes)) (w o : bytes) :
  transduces (string_map t) w o <-> In o (lookup t w).
Proof.
  rewrite in_lookup. unfold string_map.
  rewrite transduces_yields, yields_union_list. split.
  - intros (T & HT & H). apply in_map_iff in HT.
    destruct HT as ([k v] & <- & HT). apply yields_cross_to in H.
    destruct H as (-> & o' & H). apply yields_accep in H.
    destruct H as (_ & ->). now rewrite app_nil_r.
  - intros H. exists (cross w o). split.
    + apply in_map_iff. exists (w, o). auto.
    + apply yields_cross_to. split; [reflexivity|]. exists w.
      apply yields_accep. now rewrite app_nil_r.
Qed.

Lemma accepts_string_map (t : list (bytes * bytes)) (w : bytes) :
  accepts (string_map t) w = false <-> lookup t w = [].
Proof.
  rewrite accepts_false. split.
  - intros H. destruct (lookup t w) as [|o l] eqn:E; [reflexivity|].
    exfalso. apply (H o). apply transduces_string_map. rewrite E. now left.
  - intros E o H. apply transduces_string_map in H. now rewrite E in H.
Qed.

Lemma accepts_project_input (T : Fst) (i : bytes) :
  accepts (project_input T) i = accepts T i.
Proof.
  unfold accepts, project_input. induction (T i) as [|[[o w] r] l IH].
  - reflexivity.
  - simpl. now rewrite IH.
Qed.

Lemma transduces_priority_union (q r : Fst) (w o : bytes) :
  transduces (_priority_union q r NEMO_SIGMA) w o <->
  transduces q w o \/
  (is_string w /\ accepts q w = false /\ transduces r w o).
Proof.
  unfold _priority_union.
  rewrite transduces_yields, yields_union, yields_compose.
  apply or_iff_compat_l. split.
  - intros (m & H1 & H2). apply yields_difference in H1.
    destruct H1 as (H1 & H3). apply transduces_NEMO_SIGMA in H1.
    destruct H1 as (-> & H1). rewrite accepts_project_input in H3. auto.
  - intros (H1 & H2 & H3). exists w. split; [|assumption].
    apply yields_difference. rewrite accepts_project_input.
    split; [|assumption]. now apply transduces_NEMO_SIGMA.
Qed.

Lemma ends_with_spec (u w : bytes) :
  ends_with u w = true <-> exists p, w = p ++ u.
Proof.
  unfold ends_with. destruct (strip_prefix (rev u) (rev w)) as [r|] eqn:E.
  - apply strip_prefix_spec in E. split; [intros _|reflexivity].
    exists (rev r). apply (f_equal (@rev ascii)) in E.
    now rewrite rev_involutive, rev_app_distr, rev_involutive in E.
  - split; [discriminate|]. intros (p & ->).
    rewrite rev_app_distr, strip_prefix_app in E. discriminate.
Qed.

Lemma is_consonant_ascii (c : ascii) :
  is_consonant c = true -> nat_of_ascii c < 128.
Proof.
  unfold is_consonant. rewrite existsb_exists. intros (x & Hx & E).
  apply Ascii.eqb_eq in E. subst x. simpl in Hx.
  repeat (destruct Hx as [<-|Hx]; [apply Nat.ltb_lt; reflexivity|]).
  contradiction.
Qed.

Lemma transduces__s (w o : bytes) :
  transduces _s w o <-> is_string w /\ o = rule_s w.
Proof.
  unfold _s, rule_s. rewrite transduces_yields, yields_concat. split.
  - intros (o1 & m & o2 & H1 & H2 & ->). apply yields_insert in H2.
    destruct H2 as (-> & <-). apply transduces_NEMO_SIGMA in H1.
    destruct H1 as (-> & H1). auto.
  - intros (H & ->). exists w, [], (str "s").
    repeat split; [now apply transduces_NEMO_SIGMA | now apply yields_insert].
Qed.

Lemma ends_consonant_y_spec (w : bytes) :
  ends_consonant_y w = true <->
  exists p c, w = p ++ [c; "y"%char] /\ is_consonant c = true.
Proof.
  unfold ends_consonant_y. split.
  - destruct (rev w) as [|y [|c q]] eqn:E; try discriminate.
    intros H. apply andb_true_iff in H. destruct H as (Hy & Hc).
    apply Ascii.eqb_eq in Hy. subst y. exists (rev q), c. split; [|assumption].
    apply (f_equal (@rev ascii)) in E. rewrite rev_involutive in E.
    rewrite E. simpl. now rewrite <- app_assoc.
  - intros (p & c & -> & Hc). rewrite rev_app_distr. simpl. now rewrite Hc.
Qed.

Lemma transduces__ies (w o : bytes) :
  is_string w ->
  (transduces _ies w o <-> ends_consonant_y w = true /\ o = rule_ies w).
Proof.
  intros Hw. unfold _ies, rule_ies.
  rewrite transduces_yields, yields_concat, ends_consonant_y_spec. split.
  - intros (o1 & m & o2 & H0 & H3 & ->). apply yields_concat in H0.
    destruct H0 as (o3 & m' & o4 & H1 & H2 & ->).
    apply yields_NEMO_SIGMA in H1. destruct H1 as (-> & H1).
    unfold _c in H2. apply yields_union_list in H2.
    destruct H2 as (T & HT & H2). apply in_map_iff in HT.
    destruct HT as (c & <- & Hc). apply yields_accep in H2.
    destruct H2 as (-> & ->). apply yields_cross_to in H3.
    destruct H3 as (-> & o' & H3). apply yields_accep in H3.
    destruct H3 as (_ & ->). simpl.
    split.
    + exists o3, c. split; [reflexivity|]. unfold is_consonant.
      apply existsb_exists. exists c. split; [assumption | apply Ascii.eqb_refl].
    + replace (o3 ++ [c; "y"%char]) with ((o3 ++ [c]) ++ ["y"%char])
        by now rewrite <- app_assoc.
      now rewrite removelast_last.
  - intros ((p & c & -> & Hc) & ->).
    assert (Hp : is_string p).
    { apply (is_string_remove_last _ c); [now apply is_consonant_ascii|].
      apply (is_string_remove_last _ "y"%char);
        [apply Nat.ltb_lt; reflexivity|].
      now rewrite <- app_assoc. }
    exists (p ++ [c]), (str "y"), (str "ies"). repeat split.
    + apply yields_concat. exists p, (c :: str "y"), [c]. repeat split.
      * now apply yields_NEMO_SIGMA.
      * unfold _c. apply yields_union_list. exists (accep [c]). split.
        -- apply in_map_iff. exists c. split; [reflexivity|].
           unfold is_consonant in Hc. apply existsb_exists in Hc.
           destruct Hc as (x & Hx & E). apply Ascii.eqb_eq in E. now subst.
        -- now apply yields_accep.
    + apply yields_cross_to. split; [reflexivity|]. exists (str "y").
      now apply yields_accep.
    + replace (p ++ [c; "y"%char]) with ((p ++ [c]) ++ ["y"%char])
        by now rewrite <- app_assoc.
      now rewrite removelast_last.
Qed.

Lemma is_string_remove_ending (p u : bytes) :
  In u sibilant_endings -> is_string (p ++ u) -> is_string p.
Proof.
  intros Hu H. simpl in Hu.
  destruct Hu as [<-|[<-|[<-|[<-|[<-|[]]]]]];
    repeat match goal with
           | H : is_string (?p ++ str _) |- _ => simpl in H
           | H : is_string (?p ++ [?a; ?b]) |- _ =>
               replace (p ++ [a; b]) with ((p ++ [a]) ++ [b]) in H
                 by (now rewrite <- app_assoc);
               apply is_string_remove_last in H;
               [|apply Nat.ltb_lt; reflexivity]
           | H : is_string (?p ++ [?a]) |- _ =>
               apply is_string_remove_last in H;
               [|apply Nat.ltb_lt; reflexivity]
           end; assumption.
Qed.

Lemma transduces__es (w o : bytes) :
  is_string w ->
  (transduces _es w o <-> ends_sibilant w = true /\ o = rule_es w).
Proof.
  intros Hw. unfold _es, rule_es, ends_sibilant.
  rewrite transduces_yields, yields_concat, existsb_exists. split.
  - intros (o1 & m & o2 & H0 & H3 & ->). apply yields_concat in H0.
    destruct H0 as (o3 & m' & o4 & H1 & H2 & ->).
    apply yields_insert in H3. destruct H3 as (-> & <-).
    apply yields_NEMO_SIGMA in H1. destruct H1 as (-> & H1).
    apply yields_union_list in H2. destruct H2 as (T & HT & H2).
    assert (Hu : In o4 sibilant_endings /\ m' = o4).
    { simpl in HT.
      destruct HT as [<-|[<-|[<-|[<-|[<-|[]]]]]]; apply yields_accep in H2;
        destruct H2 as (-> & ->); simpl; tauto. }
    destruct Hu as (Hu & ->). split; [|reflexivity].
    exists o4. split; [assumption|]. apply ends_with_spec. eauto.
  - intros ((u & Hu & Hend) & ->). apply ends_with_spec in Hend.
    destruct Hend as (p & ->).
    exists (p ++ u), [], (str "es"). repeat split; [|now apply yields_insert].
    apply yields_concat. exists p, u, u. repeat split.
    + apply yields_NEMO_SIGMA. split; [reflexivity|].
      now apply (is_string_remove_ending p u).
    + apply yields_union_list. exists (accep u). split.
      * simpl in Hu. simpl.
        destruct Hu as [<-|[<-|[<-|[<-|[<-|[]]]]]]; tauto.
      * apply yields_accep. now rewrite app_nil_r.
Qed.

Lemma accepts__ies (w : bytes) :
  is_string w -> accepts _ies w = ends_consonant_y w.
Proof.
  intros Hw. destruct (ends_consonant_y w) eqn:E.
  - apply accepts_true. exists (rule_ies w). now apply transduces__ies.
  - apply accepts_false. intros o H. apply transduces__ies in H; [|assumption].
    destruct H. congruence.
Qed.

Lemma accepts__es (w : bytes) :
  is_string w -> accepts _es w = ends_sibilant w.
Proof.
  intros Hw. destruct (ends_sibilant w) eqn:E.
  - apply accepts_true. exists (rule_es w). now apply transduces__es.
  - apply accepts_false. intros o H. apply transduces__es in H; [|assumption].
    destruct H. congruence.
Qed.

Lemma transduces__ies_string (w o : bytes) :
  transduces _ies w o -> is_string w.
Proof.
  unfold _ies. rewrite transduces_yields, yields_concat.
  intros (o1 & m & o2 & H0 & H3 & ->). apply yields_concat in H0.
  destruct H0 as (o3 & m' & o4 & H1 & H2 & ->).
  apply yields_NEMO_SIGMA in H1. destruct H1 as (-> & H1).
  unfold _c in H2. apply yields_union_list in H2.
  destruct H2 as (T & HT & H2). apply in_map_iff in HT.
  destruct HT as (c & <- & Hc). apply yields_accep in H2.
  destruct H2 as (-> & ->). apply yields_cross_to in H3.
  destruct H3 as (-> & o' & H3). apply yields_accep in H3.
  destruct H3 as (_ & ->).
  apply is_string_app; [assumption|].
  apply (is_string_app [c] (str "y")); [|reflexivity].
  simpl in Hc.
  repeat (destruct Hc as [<-|Hc]; [reflexivity|]). contradiction.
Qed.

(** The three regular rules under their priority union. *)
Lemma transduces_regular (w o : bytes) :
  transduces
    (_priority_union _ies (_priority_union _es _s NEMO_SIGMA) NEMO_SIGMA) w o
  <-> is_string w /\ o = regular_plural w.
Proof.
  rewrite !transduces_priority_union. unfold regular_plural. split.
  - intros [H|(Hw & H1 & [H|(_ & H2 & H)])].
    + pose proof (transduces__ies_string w o H) as Hw.
      apply (transduces__ies w o Hw) in H. destruct H as (-> & ->). auto.
    + rewrite (accepts__ies w Hw) in H1. rewrite H1.
      apply (transduces__es w o Hw) in H. destruct H as (-> & ->). auto.
    + rewrite (accepts__ies w Hw) in H1. rewrite (accepts__es w Hw) in H2.
      rewrite H1, H2. apply transduces__s in H. tauto.
  - intros (Hw & ->).
    destruct (ends_consonant_y w) eqn:E1.
    + left. now apply transduces__ies.
    + right. rewrite (accepts__ies w Hw). repeat split; try assumption.
      destruct (ends_sibilant w) eqn:E2.
      * left. now apply transduces__es.
      * right. rewrite (accepts__es w Hw). repeat split; try assumption.
        now apply transduces__s.
Qed.

Lemma transduces_graph_plural (t : list (bytes * bytes)) (w o : bytes) :
  transduces (graph_plural t) w o <->
  In o (lookup t w) \/
  (lookup t w = [] /\ is_string w /\ o = regular_plural w).
Proof.
  unfold graph_plural, optimize, suppletive.
  rewrite transduces_priority_union, transduces_string_map,
    accepts_string_map, transduces_regular.
  tauto.
Qed.

(** C2.  The plural of a string [w] is given by one rule, the first that
    matches: the rows of the table of exceptions for [w]; else consonant and
    y to ies; else es after s, sh, ch, x or z; else s.  When box is not in
    the table, its plural is boxes, by the third rule, and the inverse
    transducer relates boxes to box. *)
Theorem graph_plural_priority (t : list (bytes * bytes)) (w o : bytes) :
  is_string w ->
  (transduces (SINGULAR_TO_PLURAL t) w o <-> In o (to_plural t w)) /\
  (lookup t (str "box") = [] ->
   ends_consonant_y (str "box") = false /\
   ends_sibilant (str "box") = true /\
   transduces (SINGULAR_TO_PLURAL t) (str "box") (str "boxes") /\
   PLURAL_TO_SINGULAR t (str "boxes") (str "box")).
Proof.
  intros Hw. unfold SINGULAR_TO_PLURAL, PLURAL_TO_SINGULAR, invert. split.
  - rewrite transduces_graph_plural. unfold to_plural.
    destruct (lookup t w) as [|x l] eqn:E.
    + simpl. split.
      * intros [[]|(_ & _ & ->)]. auto.
      * intros [<-|[]]. auto.
    + split.
      * intros [H|(H & _)]; [assumption | discriminate].
      * auto.
  - intros Hbox.
    assert (H : transduces (graph_plural t) (str "box") (str "boxes")).
    { apply transduces_graph_plural. right.
      split; [assumption|]. split; reflexivity. }
    repeat split; assumption.
Qed.

Lemma graph_plural_priority_witness :
  (transduces (SINGULAR_TO_PLURAL sample_suppletive) (str "city") (str "cities")
   <-> In (str "cities") (to_plural sample_suppletive (str "city"))) /\
  transduces (SINGULAR_TO_PLURAL sample_suppletive) (str "box") (str "boxes") /\
  PLURAL_TO_SINGULAR sample_suppletive (str "boxes") (str "box").
Proof.
  destruct (graph_plural_priority sample_suppletive (str "city") (str "cities"))
    as (H1 & H2).
  - reflexivity.
  - split; [exact H1|]. apply H2. reflexivity.
Defined.

Lemma graph_plural_functional (t : list (bytes * bytes)) (s p p' : bytes) :
  functional t ->
  transduces (graph_plural t) s p -> transduces (graph_plural t) s p' -> p = p'.
Proof.
  intros Ht H H'. apply transduces_graph_plural in H, H'.
  destruct H as [H|(E & _ & ->)], H' as [H'|(E' & _ & ->)].
  - apply in_lookup in H, H'. exact (Ht _ _ _ H H').
  - rewrite E' in H. contradiction.
  - rewrite E in H'. contradiction.
  - reflexivity.
Qed.

(** C6.  [PLURAL_TO_SINGULAR] is the inverse relation of
    [SINGULAR_TO_PLURAL].  For a string [w] that is not in the table of
    exceptions, whose keys have one value each: [w] has one plural, given by
    the regular rule that applies; the inverse relates that plural to [w];
    and the plurals of the singulars of that plural are that plural alone. *)
Theorem plural_singular_consistent (t : list (bytes * bytes)) (w : bytes) :
  functional t ->
  is_string w ->
  lookup t w = [] ->
  (forall a b, PLURAL_TO_SINGULAR t a b <-> transduces (SINGULAR_TO_PLURAL t) b a) /\
  (forall p, transduces (SINGULAR_TO_PLURAL t) w p <-> p = regular_plural w) /\
  (ends_consonant_y w = true -> PLURAL_TO_SINGULAR t (rule_ies w) w) /\
  (ends_consonant_y w = false -> ends_sibilant w = true ->
   PLURAL_TO_SINGULAR t (rule_es w) w) /\
  (ends_consonant_y w = false -> ends_sibilant w = false ->
   PLURAL_TO_SINGULAR t (rule_s w) w) /\
  (forall p',
     (exists p s, transduces (SINGULAR_TO_PLURAL t) w p /\
                  PLURAL_TO_SINGULAR t p s /\
                  transduces (SINGULAR_TO_PLURAL t) s p')
     <-> transduces (SINGULAR_TO_PLURAL t) w p').
Proof.
  intros Ht Hw Hl. unfold SINGULAR_TO_PLURAL, PLURAL_TO_SINGULAR, invert.
  assert (Hreg : forall p, transduces (graph_plural t) w p <-> p = regular_plural w).
  { intros p. rewrite transduces_graph_plural, Hl. simpl. tauto. }
  split; [reflexivity|]. split; [exact Hreg|].
  unfold regular_plural in Hreg.
  split; [|split; [|split]].
  - intros E. apply Hreg. now rewrite E.
  - intros E1 E2. apply Hreg. now rewrite E1, E2.
  - intros E1 E2. apply Hreg. now rewrite E1, E2.
  - intros p'. split.
    + intros (p & s & H1 & H2 & H3).
      now rewrite <- (graph_plural_functional t s p p' Ht H2 H3).
    + intros H. exists p', w. auto.
Qed.

Lemma keys_distinct_functional (t : list (bytes * bytes)) :
  keys_distinct t = true -> functional t.
Proof.
  induction t as [|[k0 v0] t IH]; intros H k v v' H1 H2; [contradiction|].
  simpl in H. apply andb_true_iff in H. destruct H as (Hk & Ht).
  apply negb_true_iff in Hk.
  assert (Hno : forall x, ~ In (k0, x) t).
  { intros x Hx. apply not_true_iff_false in Hk. apply Hk.
    apply existsb_exists. exists (k0, x). split; [assumption|].
    now apply bytes_eqb_eq. }
  destruct H1 as [H1|H1], H2 as [H2|H2].
  - congruence.
  - injection H1 as <- <-. now apply Hno in H2.
  - injection H2 as <- <-. now apply Hno in H1.
  - exact (IH Ht _ _ _ H1 H2).
Qed.

Lemma sample_suppletive_functional : functional sample_suppletive.
Proof. apply keys_distinct_functional. reflexivity. Qed.

Lemma plural_singular_consistent_witness :
  PLURAL_TO_SINGULAR sample_suppletive (rule_es (str "box")) (str "box") /\
  (forall p',
     (exists p s,
        transduces (SINGULAR_TO_PLURAL sample_suppletive) (str "box") p /\
        PLURAL_TO_SINGULAR sample_suppletive p s /\
        transduces (SINGULAR_TO_PLURAL sample_suppletive) s p')
     <-> transduces (SINGULAR_TO_PLURAL sample_suppletive) (str "box") p').
Proof.
  destruct (plural_singular_consistent sample_suppletive (str "box"))
    as (_ & _ & _ & H & _ & H').
  - exact sample_suppletive_functional.
  - reflexivity.
  - reflexivity.
  - split; [|exact H']. apply H; reflexivity.
Defined.

(** C10.  The plural transducer accepts every string, the empty one
    included: the rule of lowest priority, which appends s, accepts any
    string that no rule before it accepts. *)
Theorem graph_plural_total (t : list (bytes * bytes)) (w : bytes) :
  is_string w ->
  transduces _s w (w ++ str "s") /\
  (exists o, transduces (graph_plural t) w o) /\
  outputs (graph_plural t) w <> [].
Proof.
  intros Hw.
  assert (H : exists o, transduces (graph_plural t) w o).
  { destruct (lookup t w) as [|x l] eqn:E.
    - exists (regular_plural w). apply transduces_graph_plural. auto.
    - exists x. apply transduces_graph_plural. left. rewrite E. now left. }
  split; [now apply transduces__s|]. split; [assumption|].
  destruct H as (o & H). apply in_outputs in H. intros E. now rewrite E in H.
Qed.

Lemma graph_plural_total_witness :
  transduces _s [] (str "s") /\
  (exists o, transduces (graph_plural sample_suppletive) [] o) /\
  outputs (graph_plural sample_suppletive) [] <> [].
Proof. apply (graph_plural_total sample_suppletive []). reflexivity. Defined.

(** ** Token framing *)

Lemma transduces_add_tokens (self : GraphFst) (T : Fst) (i m : bytes) :
  transduces (add_tokens self T) i m <->
  exists c, transduces T i c /\ m = name self ++ str " { " ++ c ++ str " }".
Proof.
  unfold add_tokens. rewrite transduces_yields, yields_concat. split.
  - intros (o1 & m1 & o2 & H0 & H2 & ->). apply yields_concat in H0.
    destruct H0 as (o3 & m3 & o4 & H1 & H3 & ->).
    apply yields_insert in H1, H2. destruct H1 as (-> & ->), H2 as (-> & <-).
    exists o4. split; [assumption|]. now rewrite <- !app_assoc.
  - intros (c & H & ->).
    exists ((name self ++ str " { ") ++ c), [], (str " }"). repeat split.
    + apply yields_concat. exists (name self ++ str " { "), i, c.
      repeat split; [now apply yields_insert | assumption].
    + now apply yields_insert.
    + now rewrite <- !app_assoc.
Qed.

Lemma yields_delete_space_nil (s : bytes) : yields delete_space s [] s.
Proof.
  apply yields_delete. split; [reflexivity|]. exists [].
  apply yields_closure. auto.
Qed.

Lemma yields_delete_space_space (s : bytes) :
  yields delete_space (str " " ++ s) [] s.
Proof.
  apply yields_delete. split; [reflexivity|]. exists (str " " ++ []).
  apply yields_closure. right. exists (str " "), s, []. repeat split.
  - exists One. simpl. auto.
  - simpl. lia.
  - apply yields_closure. auto.
Qed.

(** The framed grammar only writes what the grammar inside writes. *)
Lemma transduces_delete_tokens_res (self : GraphFst) (T : Fst) (i o : bytes) :
  transduces (delete_tokens_res self T) i o -> exists j r, yields T j o r.
Proof.
  unfold delete_tokens_res. rewrite transduces_yields.
  repeat (let H := fresh "H" in
          let H' := fresh "H" in
          rewrite yields_concat;
          intros (? & ? & ? & H & H' & ->); revert H).
  intros H.
  repeat match goal with
         | H : yields (delete _) _ _ _ |- _ =>
             apply yields_delete in H; destruct H as (-> & _)
         | H : yields delete_space _ _ _ |- _ =>
             apply yields_delete in H; destruct H as (-> & _)
         end.
  simpl. rewrite !app_nil_r. eauto.
Qed.

Lemma transduces_delete_tokens_res_framed (self : GraphFst) (T : Fst) (c o : bytes) :
  local T ->
  transduces T c o ->
  transduces (delete_tokens_res self T)
             (name self ++ str " { " ++ c ++ str " }") o.
Proof.
  intros HT H. unfold delete_tokens_res. rewrite transduces_yields.
  apply yields_concat. exists o, (str "}"), []. repeat split.
  2: now apply yields_delete_accep.
  2: now rewrite app_nil_r.
  apply yields_concat. exists o, (str " }"), []. repeat split.
  2: apply (yields_delete_space_space (str "}")).
  2: now rewrite app_nil_r.
  apply yields_concat. exists [], (c ++ str " }"), o. repeat split.
  2: now apply yields_extend.
  apply yields_concat. exists [], (str " " ++ c ++ str " }"), []. repeat split.
  2: apply yields_delete_space_space.
  apply yields_concat. exists [], (str "{ " ++ c ++ str " }"), []. repeat split.
  2: now apply yields_delete_accep.
  apply yields_concat. exists [], (str " { " ++ c ++ str " }"), []. repeat split.
  - now apply yields_delete_accep.
  - apply (yields_delete_space_space (str "{ " ++ c ++ str " }")).
Qed.

Lemma transduces_accep (s i o : bytes) :
  transduces (accep s) i o <-> o = s /\ i = s.
Proof. rewrite transduces_yields, yields_accep, app_nil_r. tauto. Qed.

Lemma transduces_round_trip (self : GraphFst) (x o : bytes) :
  is_string x ->
  (transduces (round_trip self x) x o <-> o = nbsp_to_space x).
Proof.
  intros Hx. unfold round_trip. rewrite transduces_yields, yields_compose.
  split.
  - intros (m & _ & H). apply transduces_delete_tokens in H.
    destruct H as (m' & H & _ & ->). apply transduces_delete_tokens_res in H.
    destruct H as (j & r & H). apply yields_accep in H. now destruct H as (-> & _).
  - intros ->. exists (name self ++ str " { " ++ x ++ str " }"). split.
    + apply transduces_add_tokens. exists x. split; [|reflexivity].
      now apply transduces_accep.
    + apply transduces_delete_tokens. exists x. repeat split; [|assumption].
      apply transduces_delete_tokens_res_framed; [apply local_accep|].
      now apply transduces_accep.
Qed.

(** C1, as amended.  Framing a field content [x] and removing the frame
    gives [x] in which the non-breaking spaces are rewritten to spaces, and
    nothing else; so it gives [x], and only [x], when [x] has no non-breaking
    space. *)
Theorem token_framing_round_trip (self : GraphFst) (x o : bytes) :
  is_string x ->
  (transduces (round_trip self x) x o <-> o = nbsp_to_space x) /\
  (~ infix_of NEMO_NON_BREAKING_SPACE x ->
   (transduces (round_trip self x) x o <-> o = x)).
Proof.
  intros Hx. split; [now apply transduces_round_trip|].
  intros Hn. rewrite (transduces_round_trip self x o Hx).
  now rewrite (nbsp_to_space_id x Hn).
Qed.

(** The round trip does not give back a field content that holds a
    non-breaking space. *)
Lemma token_framing_round_trip_counterexample :
  is_string sample_field /\
  outputs (round_trip sample_unit sample_field) sample_field =
    [str "name: " ++ quoted (str "hello kitty")] /\
  ~ transduces (round_trip sample_unit sample_field) sample_field sample_field.
Proof.
  split; [reflexivity|].
  assert (E : outputs (round_trip sample_unit sample_field) sample_field =
              [str "name: " ++ quoted (str "hello kitty")])
    by (vm_compute; reflexivity).
  split; [exact E|]. intros H. apply in_outputs in H. rewrite E in H.
  destruct H as [H|[]]. vm_compute in H. discriminate.
Qed.

Lemma token_framing_round_trip_witness :
  (transduces (round_trip sample_unit (str "day: 1")) (str "day: 1") (str "day: 1")
   <-> str "day: 1" = nbsp_to_space (str "day: 1")) /\
  (transduces (round_trip sample_unit (str "day: 1")) (str "day: 1") (str "day: 1")
   <-> str "day: 1" = str "day: 1").
Proof.
  destruct (token_framing_round_trip sample_unit (str "day: 1") (str "day: 1"))
    as (H1 & H2).
  - reflexivity.
  - split; [exact H1|]. apply H2.
    intros (l & r & E). vm_compute in E.
    repeat (destruct l as [|? l]; [discriminate|injection E as _ E]).
    destruct l; discriminate.
Defined.

Lemma delete_tokens_no_nbsp_witness :
  (exists m,
     transduces (delete_tokens_res sample_unit (accep sample_field))
                (str "tokens { " ++ sample_field ++ str " }") m /\
     str "name: " ++ quoted (str "hello kitty") = nbsp_to_space m) /\
  ~ infix_of NEMO_NON_BREAKING_SPACE (str "name: " ++ quoted (str "hello kitty")).
Proof.
  apply (delete_tokens_no_nbsp sample_unit (accep sample_field)
           (str "tokens { " ++ sample_field ++ str " }")).
  eexists. vm_compute. left. reflexivity.
Defined.

(** ** The Spanish date verbalizer *)

Lemma yields_runs (T : Fst) (i o r : bytes) :
  yields T i o r <-> In (o, r) (runs T i).
Proof.
  unfold yields, runs. rewrite in_map_iff. split.
  - intros (w & H). exists (o, w, r). auto.
  - intros ([[o' w] r'] & E & H). injection E as <- <-. eauto.
Qed.

(** Runs of a transducer on an input, both known, by computation. *)
Ltac run_in H :=
  apply yields_runs in H; vm_compute in H;
  repeat match type of H with
         | _ \/ _ => destruct H as [H|H]
         end;
  try contradiction;
  try (inversion H; subst; clear H).

Ltac split_concat :=
  repeat match goal with
         | H : yields (concat _ _) _ _ _ |- _ =>
             apply yields_concat in H;
             let H' := fresh "H" in
             destruct H as (? & ? & ? & H & H' & ->)
         end.

(** Runs the transducers of the context whose input is known, except those
    that mention [T0]. *)
Ltac run_known T0 :=
  repeat match goal with
         | H : yields ?T ?i _ _ |- _ =>
             tryif is_var i then fail else
             lazymatch T with
             | context [T0] => fail
             | _ => run_in H
             end
         end.

(** The ways of writing a known string as [k ++ q :: r]: [E] is the
    equation, and [cont] is run for each way. *)
Ltac scan E k cont :=
  destruct k as [|? k]; simpl in E;
  [ first [discriminate E | injection E as E; cont]
  | first [discriminate E | injection E as <- E; scan E k cont] ].

(** A run of [concat A B]: what [A] writes, what it leaves, what [B] writes. *)
Ltac path o1 m o2 :=
  apply yields_concat; exists o1, m, o2; split; [|split; [|reflexivity]].

(** The same, for an output that is not known. *)
Ltac path_nil o1 m :=
  apply yields_concat; exists o1, m, (@nil ascii);
  split; [|split; [|now rewrite app_nil_r]].

Ltac run_goal :=
  apply yields_runs; vm_compute; tauto.

Lemma yields_string_map (t : list (bytes * bytes)) (i o r : bytes) :
  yields (string_map t) i o r <-> exists k, In (k, o) t /\ i = k ++ r.
Proof.
  unfold string_map. rewrite yields_union_list. split.
  - intros (T & HT & H). apply in_map_iff in HT.
    destruct HT as ([k v] & <- & HT). apply yields_cross_to in H.
    destruct H as (-> & o' & H). apply yields_accep in H.
    destruct H as (_ & ->). eauto.
  - intros (k & H & ->). exists (cross k o). split.
    + apply in_map_iff. exists (k, o). auto.
    + apply yields_cross_to. split; [reflexivity|]. exists k.
      now apply yields_accep.
Qed.

Section DateExample.

Variables months_tsv months_cased_tsv : list (bytes * bytes).

Hypothesis enero_row :
  In (str "enero", str "enero") (months_tsv ++ months_cased_tsv).
Hypothesis enero_only :
  forall v, In (str "enero", v) (months_tsv ++ months_cased_tsv) ->
            v = str "enero".

Lemma yields_graph_month (i o r : bytes) :
  yields (graph_month months_tsv months_cased_tsv) i o r <->
  exists k, In (k, o) (months_tsv ++ months_cased_tsv) /\ i = k ++ r.
Proof.
  unfold graph_month. rewrite yields_union, !yields_string_map. split.
  - intros [(k & H & E)|(k & H & E)]; exists k; rewrite in_app_iff; auto.
  - intros (k & H & E). apply in_app_iff in H. destruct H; eauto.
Qed.

Lemma DateFst_sample_date_only (o : bytes) :
  transduces (DateFst_fst months_tsv months_cased_tsv) sample_date o ->
  o = str "1 de enero".
Proof.
  unfold DateFst_fst, optimize. intros H.
  apply transduces_delete_tokens in H. destruct H as (m & H & _ & ->).
  unfold delete_tokens_res, final_graph in H. rewrite transduces_yields in H.
  split_concat. simpl name in *.
  run_known graph_dm.
  all: match goal with
       | H : yields (union _ _) _ _ _ |- _ =>
           apply yields_union in H; destruct H as [H|H]; [|now run_in H];
           unfold graph_dm, month in H
       end.
  all: split_concat; run_known graph_month.
  match goal with
  | Hm : yields (graph_month _ _) _ _ ?r,
    Hq : yields (delete (accep dquote)) ?r _ _ |- _ =>
      apply yields_graph_month in Hm; destruct Hm as (k & Hk & E);
      apply yields_delete_accep in Hq; destruct Hq as (-> & ->)
  end.
  unfold dquote, byte_of in E.
  scan E k ltac:(subst; apply enero_only in Hk; subst).
  run_known graph_month.
  all: reflexivity.
Qed.

Lemma DateFst_sample_date_some :
  transduces (DateFst_fst months_tsv months_cased_tsv) sample_date
             (str "1 de enero").
Proof.
  unfold DateFst_fst, optimize. apply transduces_delete_tokens.
  exists (str "1 de enero"). split; [|split; reflexivity].
  pose (r8 := str " preserve_order: true }").
  pose (r6 := str "enero" ++ dquote ++ r8).
  pose (r5 := str "month: " ++ dquote ++ r6).
  pose (r4 := str "day: " ++ quoted (str "1") ++ str " " ++ r5).
  unfold delete_tokens_res, final_graph. rewrite transduces_yields.
  path (str "1 de enero") (str "}") (@nil ascii); [|run_goal].
  path (str "1 de enero") (str "}") (@nil ascii); [|run_goal].
  path (@nil ascii) r4 (str "1 de enero"); [run_goal|].
  path (str "1 de enero") (str "preserve_order: true }") (@nil ascii);
    [|run_goal].
  path (str "1 de enero") r8 (@nil ascii); [|run_goal].
  apply yields_union. left. unfold graph_dm, month.
  path (str "1 de ") r5 (str "enero"); [run_goal|].
  path (str "enero") (dquote ++ r8) (@nil ascii); [|run_goal].
  path (@nil ascii) r6 (str "enero"); [run_goal|].
  apply yields_graph_month. exists (str "enero"). split; [exact enero_row|].
  reflexivity.
Qed.

End DateExample.

(** C4.  When the tables of months have enero as a row, with value enero,
    the date verbalizer maps
    [date { day: "1" month: "enero" preserve_order: true }] to [1 de enero],
    and to nothing else. *)
Theorem DateFst_sample_date
    (months_tsv months_cased_tsv : list (bytes * bytes)) (o : bytes) :
  In (str "enero", str "enero") (months_tsv ++ months_cased_tsv) ->
  (forall v, In (str "enero", v) (months_tsv ++ months_cased_tsv) ->
             v = str "enero") ->
  fst_ (DateFst months_tsv months_cased_tsv)
    = Some (DateFst_fst months_tsv months_cased_tsv) /\
  (transduces (DateFst_fst months_tsv months_cased_tsv) sample_date o <->
   o = str "1 de enero").
Proof.
  intros H1 H2. split; [reflexivity|]. split.
  - now apply DateFst_sample_date_only.
  - intros ->. now apply DateFst_sample_date_some.
Qed.

Lemma sample_months_enero (v : bytes) :
  In (str "enero", v) (sample_months ++ []) -> v = str "enero".
Proof.
  intros H. apply in_lookup in H. vm_compute in H.
  destruct H as [<-|[]]. reflexivity.
Qed.

Lemma DateFst_sample_date_witness :
  transduces (DateFst_fst sample_months []) sample_date (str "1 de enero") <->
  str "1 de enero" = str "1 de enero".
Proof.
  apply (DateFst_sample_date sample_months [] (str "1 de enero")).
  - simpl. auto.
  - exact sample_months_enero.
Defined.

(** *** The order of the fields *)

Ltac solve_local_date :=
  repeat (unfold final_graph, optional_preserve_order, graph_dm, day, month,
           year, graph_month, insert_space);
  solve_local.

Lemma local_final_graph (months_tsv months_cased_tsv : list (bytes * bytes)) :
  local (final_graph months_tsv months_cased_tsv).
Proof. solve_local_date. Qed.

Lemma local_graph_dm_year (months_tsv months_cased_tsv : list (bytes * bytes)) :
  local (union (graph_dm months_tsv months_cased_tsv) year).
Proof. solve_local_date. Qed.

(** What [delete_space] leaves: the input, or what it leaves after a first
    white space. *)
Lemma yields_delete_space_inv (i o r : bytes) :
  yields delete_space i o r ->
  o = [] /\
  (r = i \/
   exists ws m, In (ws, m) (runs NEMO_WHITE_SPACE i) /\ yields delete_space m [] r).
Proof.
  unfold delete_space. rewrite yields_delete. intros (-> & o' & H).
  split; [reflexivity|]. apply yields_closure in H.
  destruct H as [(_ & ->)|(o1 & m & o2 & H1 & _ & H2 & _)]; [auto|].
  right. exists o1, m. split; [now apply yields_runs|].
  apply yields_delete. eauto.
Qed.

(** Runs [delete_space] on an input whose first bytes are known. *)
Ltac run_delete_space H :=
  let ws := fresh "ws" in
  let m := fresh "m" in
  let Hw := fresh "Hw" in
  let Eo := fresh "Eo" in
  let Er := fresh "Er" in
  apply yields_delete_space_inv in H;
  destruct H as (Eo & [Er|(ws & m & Hw & H)]);
  [ try discriminate; subst; try clear Eo
  | vm_compute in Hw;
    repeat match type of Hw with
           | _ \/ _ => destruct Hw as [Hw|Hw]
           end;
    try contradiction;
    inversion Hw; subst; clear Hw;
    run_delete_space H ].

(** Runs [delete (accep s)] on an input whose first bytes are known. *)
Ltac run_delete_accep H :=
  let E := fresh "E" in
  let Eo := fresh "Eo" in
  apply yields_delete_accep in H; destruct H as (Eo & E);
  vm_compute in E; inversion E; subst; try clear E.

(** Runs the deletions of the context whose input begins with known bytes. *)
Ltac run_partial :=
  repeat match goal with
         | H : yields (delete (accep _)) ?i _ _ |- _ =>
             tryif is_var i then fail else run_delete_accep H
         | H : yields delete_space ?i _ _ |- _ =>
             tryif is_var i then fail else run_delete_space H
         | H : yields (union _ _) ?i _ _ |- _ =>
             tryif is_var i then fail else
             (apply yields_union in H; destruct H as [H|H]; split_concat)
         end.

Section DateOrder.

Variables months_tsv months_cased_tsv : list (bytes * bytes).

Local Abbreviation date_fst := (DateFst_fst months_tsv months_cased_tsv).

Lemma transduces_final_graph_plain (body o : bytes) :
  transduces (union (graph_dm months_tsv months_cased_tsv) year) body o ->
  transduces (final_graph months_tsv months_cased_tsv) body o.
Proof.
  intros H. unfold final_graph. rewrite transduces_yields.
  path_nil o (@nil ascii); [|run_goal].
  path_nil o (@nil ascii); [assumption|run_goal].
Qed.

Lemma transduces_final_graph_marker (body o : bytes) :
  transduces (union (graph_dm months_tsv months_cased_tsv) year) body o ->
  transduces (final_graph months_tsv months_cased_tsv)
             (body ++ str " preserve_order: true") o.
Proof.
  intros H. unfold final_graph. rewrite transduces_yields.
  path_nil o (str "preserve_order: true"); [|run_goal].
  path_nil o (str " preserve_order: true");
    [|apply (yields_delete_space_space (str "preserve_order: true"))].
  apply yields_extend; [apply local_graph_dm_year | assumption].
Qed.

Lemma DateFst_framed (c o : bytes) :
  is_string o ->
  transduces (final_graph months_tsv months_cased_tsv) c o ->
  transduces date_fst (str "date { " ++ c ++ str " }") (nbsp_to_space o).
Proof.
  intros Ho H. unfold date_fst, DateFst_fst, optimize.
  apply transduces_delete_tokens. exists o. repeat split; [|assumption].
  apply (transduces_delete_tokens_res_framed
           (GraphFst_init (str "date") verbalize true));
    [apply local_final_graph | assumption].
Qed.

Lemma DateFst_month_first (rest o : bytes) :
  ~ transduces date_fst (str "date { month:" ++ rest) o.
Proof.
  unfold date_fst, DateFst_fst, optimize. intros H.
  apply transduces_delete_tokens in H. destruct H as (m & H & _ & ->).
  unfold delete_tokens_res, final_graph, graph_dm, day, year in H.
  rewrite transduces_yields in H. split_concat.
  run_partial.
Qed.

End DateOrder.

(** C3, as amended.  The date verbalizer deletes a trailing
    [preserve_order: true] and renders the fields as it does without it:
    what the grammar of the fields (day then month, or a year) writes for
    [body] is written, with its non-breaking spaces rewritten, for the
    record of [body] with and without the marker.  The order of the fields
    is fixed: a record whose first field is the month is rejected, whatever
    follows it. *)
Theorem date_preserve_order_deleted
    (months_tsv months_cased_tsv : list (bytes * bytes))
    (body o rest o' : bytes) :
  transduces (union (graph_dm months_tsv months_cased_tsv) year) body o ->
  is_string o ->
  transduces (DateFst_fst months_tsv months_cased_tsv)
             (str "date { " ++ body ++ str " }") (nbsp_to_space o) /\
  transduces (DateFst_fst months_tsv months_cased_tsv)
             (str "date { " ++ (body ++ str " preserve_order: true") ++ str " }")
             (nbsp_to_space o) /\
  ~ transduces (DateFst_fst months_tsv months_cased_tsv)
               (str "date { month:" ++ rest) o'.
Proof.
  intros H Ho. split; [|split].
  - apply DateFst_framed; [assumption|].
    now apply transduces_final_graph_plain.
  - apply DateFst_framed; [assumption|].
    now apply transduces_final_graph_marker.
  - apply DateFst_month_first.
Qed.

(** With the marker, the record that lists the month first is still
    rejected, while the record that lists the day first is accepted. *)
Lemma date_preserve_order_counterexample :
  outputs (DateFst_fst sample_months []) sample_date_month_first = [] /\
  (forall o, ~ transduces (DateFst_fst sample_months [])
                          sample_date_month_first o) /\
  transduces (DateFst_fst sample_months []) sample_date (str "1 de enero").
Proof.
  assert (E : outputs (DateFst_fst sample_months []) sample_date_month_first = [])
    by (vm_compute; reflexivity).
  split; [exact E|]. split.
  - intros o H. apply in_outputs in H. now rewrite E in H.
  - apply in_outputs. vm_compute. auto.
Qed.

Lemma date_preserve_order_deleted_witness :
  transduces (DateFst_fst sample_months [])
             (str "date { " ++ sample_body ++ str " }")
             (nbsp_to_space (str "1 de enero")) /\
  transduces (DateFst_fst sample_months [])
             (str "date { " ++ (sample_body ++ str " preserve_order: true")
                ++ str " }")
             (nbsp_to_space (str "1 de enero")) /\
  ~ transduces (DateFst_fst sample_months [])
               (str "date { month:" ++ str " x") (str "x").
Proof.
  apply (date_preserve_order_deleted sample_months [] sample_body
           (str "1 de enero") (str " x") (str "x")).
  - apply in_outputs. vm_compute. auto.
  - reflexivity.
Defined.

(** ** The sentence verbalizer *)

Lemma yields_closure_acceptor (T : Fst) (i o r : bytes) :
  local T -> acceptor T ->
  (yields (closure T) i o r <-> i = o ++ r /\ accepts (closure T) o = true).
Proof.
  intros HL HA.
  rewrite (yields_local _ _ _ _ (local_closure T HL)), accepts_true. split.
  - intros (p & -> & H).
    pose proof (transduces_acceptor _ _ _ (acceptor_closure T HA) H) as ->.
    eauto.
  - intros (-> & o' & H).
    pose proof (transduces_acceptor _ _ _ (acceptor_closure T HA) H) as ->.
    eauto.
Qed.

Lemma yields_delete_space (i o r : bytes) :
  yields delete_space i o r <-> o = [] /\ exists ws, i = ws ++ r /\ is_white ws.
Proof.
  unfold delete_space. rewrite yields_delete. split.
  - intros (-> & o' & H).
    apply yields_closure_acceptor in H;
      [|apply local_NEMO_WHITE_SPACE | apply acceptor_NEMO_WHITE_SPACE].
    destruct H as (-> & H). eauto.
  - intros (-> & ws & -> & H). split; [reflexivity|]. exists ws.
    apply yields_closure_acceptor;
      [apply local_NEMO_WHITE_SPACE | apply acceptor_NEMO_WHITE_SPACE | auto].
Qed.

Lemma NEMO_WHITE_SPACE_nonempty (i o r : bytes) :
  yields NEMO_WHITE_SPACE i o r -> o <> [].
Proof.
  unfold NEMO_WHITE_SPACE, optimize. rewrite yields_union_list.
  intros (T & HT & H). simpl in HT.
  destruct HT as [<-|[<-|[<-|[<-|[<-|[]]]]]]; apply yields_accep in H;
    destruct H as (-> & _); discriminate.
Qed.

Lemma yields_closure_1_white (i o r : bytes) :
  yields (closure_1 NEMO_WHITE_SPACE) i o r <->
  i = o ++ r /\ is_white o /\ o <> [].
Proof.
  unfold closure_1, is_white. rewrite yields_concat. split.
  - intros (o1 & m & o2 & H1 & H2 & ->).
    pose proof (NEMO_WHITE_SPACE_nonempty _ _ _ H1) as Hne.
    pose proof (yields_acceptor _ _ _ _ acceptor_NEMO_WHITE_SPACE H1) as ->.
    apply yields_closure_acceptor in H2;
      [|apply local_NEMO_WHITE_SPACE | apply acceptor_NEMO_WHITE_SPACE].
    destruct H2 as (-> & H2). split; [now rewrite app_assoc|]. split.
    + apply accepts_true. exists (o1 ++ o2). rewrite transduces_yields.
      apply yields_closure. right. exists o1, o2, o2. repeat split.
      * apply yields_local; [apply local_NEMO_WHITE_SPACE|].
        exists o1. split; [reflexivity|].
        apply (yields_local _ _ _ _ local_NEMO_WHITE_SPACE) in H1.
        destruct H1 as (p & E & H1).
        pose proof (transduces_acceptor _ _ _ acceptor_NEMO_WHITE_SPACE H1) as E'.
        subst p. assumption.
      * rewrite length_app. destruct o1; [congruence | simpl; lia].
      * apply yields_closure_acceptor;
          [apply local_NEMO_WHITE_SPACE | apply acceptor_NEMO_WHITE_SPACE|].
        now rewrite app_nil_r.
    + destruct o1; [congruence | discriminate].
  - intros (-> & H & Hne). apply accepts_true in H. destruct H as (o' & H).
    pose proof (transduces_acceptor _ _ _
                  (acceptor_closure _ acceptor_NEMO_WHITE_SPACE) H) as ->.
    rewrite transduces_yields in H. apply yields_closure in H.
    destruct H as [(E & _)|(o1 & m & o2 & H1 & _ & H2 & E)]; [congruence|].
    pose proof (yields_acceptor _ _ _ _ acceptor_NEMO_WHITE_SPACE H1) as E1.
    pose proof (yields_acceptor _ _ _ _
                  (acceptor_closure _ acceptor_NEMO_WHITE_SPACE) H2) as E2.
    rewrite app_nil_r in E2. subst m.
    exists o1, (o2 ++ r), o2. repeat split.
    + rewrite E1 at 1. rewrite <- app_assoc.
      apply yields_local; [apply local_NEMO_WHITE_SPACE|].
      exists o1. split; [reflexivity|].
      apply (yields_local _ _ _ _ local_NEMO_WHITE_SPACE) in H1.
      destruct H1 as (p & E' & H1).
      pose proof (transduces_acceptor _ _ _ acceptor_NEMO_WHITE_SPACE H1) as E''.
      subst p. assumption.
    + apply yields_closure_acceptor;
        [apply local_NEMO_WHITE_SPACE | apply acceptor_NEMO_WHITE_SPACE|].
      split; [reflexivity|]. apply accepts_true. eauto.
    + assumption.
Qed.

Lemma yields_delete_extra_space (i o r : bytes) :
  yields delete_extra_space i o r <->
  o = str " " /\ exists ws, i = ws ++ r /\ is_white ws /\ ws <> [].
Proof.
  unfold delete_extra_space. rewrite yields_cross_to. split.
  - intros (-> & o' & H). apply yields_closure_1_white in H.
    destruct H as (-> & H). eauto.
  - intros (-> & ws & -> & H). split; [reflexivity|]. exists ws.
    now apply yields_closure_1_white.
Qed.

Lemma join_space_blocks (bs : list block) (o : bytes) :
  join_space (map block_out bs ++ [o]) = blocks_out bs ++ o.
Proof.
  induction bs as [|[[b sep] o'] bs IH]; [reflexivity|].
  change (map block_out ((b, sep, o') :: bs) ++ [o])
    with (o' :: (map block_out bs ++ [o])).
  change (blocks_out ((b, sep, o') :: bs))
    with (o' ++ str " " ++ blocks_out bs).
  simpl join_space. rewrite IH.
  destruct (map block_out bs ++ [o]) eqn:E.
  - destruct (map block_out bs); discriminate.
  - now rewrite <- !app_assoc.
Qed.

Section VerbalizeFinalProofs.

Variables verbalize_fst word_fst : Fst.
Hypothesis local_verbalize_fst : local verbalize_fst.
Hypothesis local_word_fst : local word_fst.

Local Abbreviation graph := (tokens_graph verbalize_fst word_fst).
Local Abbreviation block_ok := (block_ok verbalize_fst word_fst).

Lemma local_tokens_graph : local graph.
Proof. unfold graph, tokens_graph, types. solve_local. Qed.

Lemma yields_blocks (bs : list block) (rest : bytes) :
  Forall block_ok bs ->
  yields (closure (concat graph delete_extra_space))
         (blocks_in bs ++ rest) (blocks_out bs) rest.
Proof.
  induction bs as [|[[b sep] o] bs IH]; intros H.
  - apply yields_closure. auto.
  - inversion H as [|x l Hx Hbs]; subst. simpl in Hx.
    destruct Hx as (Hb & Hw & Hne).
    apply yields_closure. right.
    exists (o ++ str " "), (blocks_in bs ++ rest), (blocks_out bs).
    repeat split.
    + apply yields_concat. exists o, (sep ++ blocks_in bs ++ rest), (str " ").
      repeat split.
      * simpl. rewrite <- !app_assoc.
        apply yields_extend; [apply local_tokens_graph | assumption].
      * apply yields_delete_extra_space. split; [reflexivity|]. eauto.
    + simpl. rewrite !length_app. destruct sep; [congruence | simpl; lia].
    + now apply IH.
    + simpl. now rewrite <- !app_assoc.
Qed.

Lemma yields_blocks_inv (i o r : bytes) :
  yields (closure (concat graph delete_extra_space)) i o r ->
  exists bs, Forall block_ok bs /\ i = blocks_in bs ++ r /\ o = blocks_out bs.
Proof.
  remember (List.length i) as n eqn:En. revert i o En.
  induction n as [n IH] using lt_wf_ind. intros i o En H.
  apply yields_closure in H.
  destruct H as [(-> & ->)|(o1 & m & o2 & H1 & Hlt & H2 & ->)].
  - exists []. auto.
  - apply (IH (List.length m)) in H2; [|lia|reflexivity].
    destruct H2 as (bs & Hbs & -> & ->).
    apply yields_concat in H1. destruct H1 as (ob & m' & os & Hb & Hs & ->).
    apply yields_delete_extra_space in Hs.
    destruct Hs as (-> & sep & -> & Hw & Hne).
    apply (yields_local _ _ _ _ local_tokens_graph) in Hb.
    destruct Hb as (b & -> & Hb).
    exists ((b, sep, ob) :: bs). repeat split.
    + constructor; [now repeat split | assumption].
    + simpl. now rewrite <- !app_assoc.
    + simpl. now rewrite <- !app_assoc.
Qed.

Lemma transduces_VerbalizeFinalFst (i o : bytes) :
  transduces (VerbalizeFinalFst_fst verbalize_fst word_fst) i o <->
  exists lead bs b ob trail,
    is_white lead /\ Forall block_ok bs /\ transduces graph b ob /\
    is_white trail /\
    i = lead ++ blocks_in bs ++ b ++ trail /\
    o = join_space (map block_out bs ++ [ob]).
Proof.
  unfold VerbalizeFinalFst_fst. fold graph. rewrite transduces_yields. split.
  - intros H. apply yields_concat in H.
    destruct H as (o1 & m1 & o2 & H & Ht & ->).
    apply yields_concat in H. destruct H as (o3 & m3 & o4 & H & Hb & ->).
    apply yields_concat in H. destruct H as (o5 & m5 & o6 & Hl & Hbs & ->).
    apply yields_delete_space in Hl, Ht.
    destruct Hl as (-> & lead & -> & Hl), Ht as (-> & trail & E & Ht).
    rewrite app_nil_r in E. subst m1.
    apply yields_blocks_inv in Hbs. destruct Hbs as (bs & Hbs & -> & ->).
    apply (yields_local _ _ _ _ local_tokens_graph) in Hb.
    destruct Hb as (b & -> & Hb).
    exists lead, bs, b, o4, trail. repeat split; try assumption.
    rewrite join_space_blocks. simpl. now rewrite app_nil_r.
  - intros (lead & bs & b & ob & trail & Hl & Hbs & Hb & Ht & -> & ->).
    rewrite join_space_blocks.
    path_nil (blocks_out bs ++ ob) trail.
    + apply yields_concat. exists (blocks_out bs), (b ++ trail), ob.
      repeat split.
      * apply yields_concat.
        exists (@nil ascii), (blocks_in bs ++ b ++ trail), (blocks_out bs).
        repeat split.
        -- apply yields_delete_space. split; [reflexivity|]. eauto.
        -- now apply yields_blocks.
      * apply yields_extend; [apply local_tokens_graph | assumption].
    + apply yields_delete_space. split; [reflexivity|]. exists trail.
      now rewrite app_nil_r.
Qed.

(** A block is [tokens { c }], with any white space around the braces, and
    its verbalization is that of [c]. *)
Lemma transduces_tokens_graph (b o : bytes) :
  transduces graph b o <->
  exists w1 w2 c w3,
    is_white w1 /\ is_white w2 /\ is_white w3 /\
    transduces (types verbalize_fst word_fst) c o /\
    b = str "tokens" ++ w1 ++ str "{" ++ w2 ++ c ++ w3 ++ str "}".
Proof.
  assert (HT : local (types verbalize_fst word_fst))
    by (unfold types; solve_local).
  unfold graph, tokens_graph. rewrite transduces_yields. split.
  - intros H. split_concat.
    repeat match goal with
           | H : yields delete_space _ _ _ |- _ =>
               apply yields_delete_space in H;
               destruct H as (-> & ? & -> & ?)
           | H : yields (delete (accep _)) _ _ _ |- _ =>
               apply yields_delete_accep in H; destruct H as (-> & ->)
           | H : yields (types _ _) _ _ _ |- _ =>
               apply (yields_local _ _ _ _ HT) in H;
               destruct H as (? & -> & H)
           end.
    simpl. rewrite !app_nil_r.
    eexists _, _, _, _. repeat split; try eassumption.
  - intros (w1 & w2 & c & w3 & H1 & H2 & H3 & Hc & ->).
    path_nil o (str "}"); [|now apply yields_delete_accep].
    path_nil o (w3 ++ str "}");
      [|apply yields_delete_space; split; [reflexivity|]; eauto].
    apply yields_concat. exists (@nil ascii), (c ++ w3 ++ str "}"), o.
    repeat split; [|now apply yields_extend].
    path_nil (@nil ascii) (w2 ++ c ++ w3 ++ str "}");
      [|apply yields_delete_space; split; [reflexivity|]; eauto].
    path_nil (@nil ascii) (str "{" ++ w2 ++ c ++ w3 ++ str "}");
      [|now apply yields_delete_accep].
    path_nil (@nil ascii) (w1 ++ str "{" ++ w2 ++ c ++ w3 ++ str "}");
      [now apply yields_delete_accep|].
    apply yields_delete_space. split; [reflexivity|]. eauto.
Qed.

End VerbalizeFinalProofs.

(** *** White space at the ends of the output *)

Lemma starts_white_app (x y : bytes) :
  x <> [] ->
  y = [] \/ (exists y', y = " "%char :: y') ->
  has_prefix_in white_units (x ++ y) = has_prefix_in white_units x.
Proof.
  intros Hx [->|(y' & ->)]; [now rewrite app_nil_r|].
  destruct x as [|c [|d x']]; [congruence| |].
  - destruct c as [[] [] [] [] [] [] [] []]; reflexivity.
  - destruct c as [[] [] [] [] [] [] [] []]; try reflexivity.
    destruct d as [[] [] [] [] [] [] [] []]; reflexivity.
Qed.

Lemma ends_white_app (x y : bytes) :
  x <> [] ->
  y = [] \/ (exists y', y = " "%char :: y') ->
  has_prefix_in (map (@rev ascii) white_units) (x ++ y) =
  has_prefix_in (map (@rev ascii) white_units) x.
Proof.
  intros Hx [->|(y' & ->)]; [now rewrite app_nil_r|].
  destruct x as [|c [|d x']]; [congruence| |].
  - destruct c as [[] [] [] [] [] [] [] []]; reflexivity.
  - destruct c as [[] [] [] [] [] [] [] []]; try reflexivity.
    destruct d as [[] [] [] [] [] [] [] []]; reflexivity.
Qed.

Lemma join_space_snoc (l : list bytes) (x : bytes) :
  join_space (l ++ [x]) = flat_map (fun y => y ++ str " ") l ++ x.
Proof.
  induction l as [|y l IH]; [reflexivity|].
  change ((y :: l) ++ [x]) with (y :: (l ++ [x])).
  simpl join_space. rewrite IH.
  destruct (l ++ [x]) eqn:E.
  - destruct l; discriminate.
  - simpl flat_map. now rewrite <- !app_assoc.
Qed.

Lemma starts_white_join_space (l : list bytes) :
  hd [] l <> [] -> starts_white (join_space l) = starts_white (hd [] l).
Proof.
  destruct l as [|x l]; [reflexivity|]. simpl hd. intros Hx.
  unfold starts_white. destruct l as [|y l]; [reflexivity|].
  change (join_space (x :: y :: l)) with (x ++ str " " ++ join_space (y :: l)).
  apply starts_white_app; [assumption|]. right. eexists. reflexivity.
Qed.

Lemma ends_white_join_space (l : list bytes) :
  last l [] <> [] -> ends_white (join_space l) = ends_white (last l []).
Proof.
  induction l as [|x l0 _] using rev_ind; [reflexivity|].
  rewrite last_last, join_space_snoc. intros Hx.
  unfold ends_white. rewrite rev_app_distr.
  apply ends_white_app.
  - intros E. apply (f_equal (@rev ascii)) in E. rewrite rev_involutive in E.
    now apply Hx.
  - induction l0 as [|y l1 _] using rev_ind; [left; reflexivity|].
    right. rewrite flat_map_app. simpl flat_map. rewrite app_nil_r.
    rewrite !rev_app_distr. eexists. reflexivity.
Qed.

(** C9.  The sentence verbalizer maps an input to an output exactly when the
    input is: white space, then one or more blocks that the grammar of a
    block accepts, with white space (at least one character) after each
    block but the last, then white space; and the output is the
    verbalizations of the blocks with one space between them, and nothing
    before or after.  A block is [tokens { c }], and its verbalization is
    that of [c] by one of the grammars of the tokens.  The output so joined
    begins with white space exactly when the first verbalization does, if
    this is not empty, and ends with white space exactly when the last
    verbalization does, if this is not empty. *)
Theorem VerbalizeFinalFst_joins (verbalize_fst word_fst : Fst) :
  local verbalize_fst ->
  local word_fst ->
  (forall i o,
     transduces (VerbalizeFinalFst_fst verbalize_fst word_fst) i o <->
     exists lead bs b ob trail,
       is_white lead /\
       Forall (block_ok verbalize_fst word_fst) bs /\
       transduces (tokens_graph verbalize_fst word_fst) b ob /\
       is_white trail /\
       i = lead ++ blocks_in bs ++ b ++ trail /\
       o = join_space (map block_out bs ++ [ob])) /\
  (forall b o,
     transduces (tokens_graph verbalize_fst word_fst) b o <->
     exists w1 w2 c w3,
       is_white w1 /\ is_white w2 /\ is_white w3 /\
       transduces (types verbalize_fst word_fst) c o /\
       b = str "tokens" ++ w1 ++ str "{" ++ w2 ++ c ++ w3 ++ str "}") /\
  (forall l : list bytes,
     (hd [] l <> [] ->
      starts_white (join_space l) = starts_white (hd [] l)) /\
     (last l [] <> [] ->
      ends_white (join_space l) = ends_white (last l []))).
Proof.
  intros Hv Hw. split; [|split].
  - intros i o. now apply transduces_VerbalizeFinalFst.
  - intros b o. now apply transduces_tokens_graph.
  - intros l. split.
    + apply starts_white_join_space.
    + apply ends_white_join_space.
Qed.

(** The only output for [sample_sentence_space], which has no white space
    around its block, begins with a space. *)
Lemma VerbalizeFinalFst_joins_counterexample :
  (forall o,
     transduces
       (VerbalizeFinalFst_fst (DateFst_fst sample_months []) sample_word)
       sample_sentence_space o <->
     o = str " 1 de enero") /\
  starts_white (str " 1 de enero") = true.
Proof.
  split; [|reflexivity]. intros o. rewrite <- in_outputs.
  assert (E : outputs
                (VerbalizeFinalFst_fst (DateFst_fst sample_months [])
                   sample_word) sample_sentence_space =
              [str " 1 de enero"; str " 1 de enero"])
    by (vm_compute; reflexivity).
  rewrite E. simpl. split; [intros [H|[H|[]]]; now subst | auto].
Qed.

Lemma local_sample_word : local sample_word.
Proof. unfold sample_word. solve_local. Qed.

Lemma local_DateFst_fst (months_tsv months_cased_tsv : list (bytes * bytes)) :
  local (DateFst_fst months_tsv months_cased_tsv).
Proof.
  unfold DateFst_fst, delete_tokens, delete_tokens_res. solve_local_date.
Qed.

Lemma VerbalizeFinalFst_joins_witness :
  transduces (VerbalizeFinalFst_fst (DateFst_fst sample_months []) sample_word)
             sample_sentence (str "hoy 1 de enero").
Proof.
  destruct (VerbalizeFinalFst_joins (DateFst_fst sample_months []) sample_word)
    as (H & _).
  - apply local_DateFst_fst.
  - exact local_sample_word.
  - apply H.
    exists [],
      [(str "tokens { name: " ++ quoted (str "hoy") ++ str " }", str "  ",
        str "hoy")],
      (str "tokens { " ++ sample_date ++ str " }"), (str "1 de enero"),
      (str " ").
    split; [reflexivity|]. split.
    + constructor; [|constructor]. split; [|split].
      * apply in_outputs. vm_compute. auto.
      * reflexivity.
      * discriminate.
    + split; [apply in_outputs; vm_compute; auto|].
      split; [reflexivity|]. split; reflexivity.
Defined.

(** ** More on token framing *)

Lemma transduces_delete_tokens_res_iff (self : GraphFst) (T : Fst) (b o : bytes) :
  local T ->
  (transduces (delete_tokens_res self T) b o <->
   exists w1 w2 c w3,
     is_white w1 /\ is_white w2 /\ is_white w3 /\ transduces T c o /\
     b = name self ++ w1 ++ str "{" ++ w2 ++ c ++ w3 ++ str "}").
Proof.
  intros HT. unfold delete_tokens_res. rewrite transduces_yields. split.
  - intros H. split_concat.
    repeat match goal with
           | H : yields delete_space _ _ _ |- _ =>
               apply yields_delete_space in H;
               destruct H as (-> & ? & -> & ?)
           | H : yields (delete (accep _)) _ _ _ |- _ =>
               apply yields_delete_accep in H; destruct H as (-> & ->)
           | H : yields T _ _ _ |- _ =>
               apply (yields_local _ _ _ _ HT) in H;
               destruct H as (? & -> & H)
           end.
    simpl. rewrite !app_nil_r.
    eexists _, _, _, _. repeat split; try eassumption.
  - intros (w1 & w2 & c & w3 & H1 & H2 & H3 & Hc & ->).
    path_nil o (str "}"); [|now apply yields_delete_accep].
    path_nil o (w3 ++ str "}");
      [|apply yields_delete_space; split; [reflexivity|]; eauto].
    apply yields_concat. exists (@nil ascii), (c ++ w3 ++ str "}"), o.
    repeat split; [|now apply yields_extend].
    path_nil (@nil ascii) (w2 ++ c ++ w3 ++ str "}");
      [|apply yields_delete_space; split; [reflexivity|]; eauto].
    path_nil (@nil ascii) (str "{" ++ w2 ++ c ++ w3 ++ str "}");
      [|now apply yields_delete_accep].
    path_nil (@nil ascii) (w1 ++ str "{" ++ w2 ++ c ++ w3 ++ str "}");
      [now apply yields_delete_accep|].
    apply yields_delete_space. split; [reflexivity|]. eauto.
Qed.

(** X1.  [delete_tokens] of a grammar [T] maps an input to an output exactly
    when the input is the name of the unit, an opening brace, a content [c]
    and a closing brace, with any white space (none included) after the
    name and around the content, and the output is what [T] writes for [c],
    a string, with its non-breaking spaces rewritten to spaces. *)
Theorem delete_tokens_frame (self : GraphFst) (T : Fst) (i o : bytes) :
  local T ->
  (transduces (delete_tokens self T) i o <->
   exists w1 w2 c w3 m,
     is_white w1 /\ is_white w2 /\ is_white w3 /\
     transduces T c m /\ is_string m /\ o = nbsp_to_space m /\
     i = name self ++ w1 ++ str "{" ++ w2 ++ c ++ w3 ++ str "}").
Proof.
  intros HT. rewrite transduces_delete_tokens. split.
  - intros (m & H & Hm & ->).
    apply (transduces_delete_tokens_res_iff self T i m HT) in H.
    destruct H as (w1 & w2 & c & w3 & H1 & H2 & H3 & Hc & ->).
    exists w1, w2, c, w3, m. repeat split; assumption.
  - intros (w1 & w2 & c & w3 & m & H1 & H2 & H3 & Hc & Hm & -> & ->).
    exists m. repeat split; try assumption.
    apply (transduces_delete_tokens_res_iff self T _ m HT).
    exists w1, w2, c, w3. repeat split; assumption.
Qed.

Lemma delete_tokens_frame_witness :
  transduces (delete_tokens sample_unit (accep (str "a")))
             (str "tokens{a}") (str "a") <->
  exists w1 w2 c w3 m,
    is_white w1 /\ is_white w2 /\ is_white w3 /\
    transduces (accep (str "a")) c m /\ is_string m /\
    str "a" = nbsp_to_space m /\
    str "tokens{a}" = name sample_unit ++ w1 ++ str "{" ++ w2 ++ c ++ w3 ++ str "}".
Proof.
  apply (delete_tokens_frame sample_unit (accep (str "a"))).
  apply local_accep.
Defined.

(** X2.  The tagger and the verbalizer compose: when a classify-side
    grammar [G] maps [i] to a content [c], and a verbalize-side grammar [V]
    maps [c] to a string [o], then [add_tokens] of [G] followed by
    [delete_tokens] of [V] maps [i] to [o] with its non-breaking spaces
    rewritten to spaces. *)
Theorem add_tokens_delete_tokens_compose
    (self : GraphFst) (G V : Fst) (i c o : bytes) :
  local V ->
  transduces G i c ->
  transduces V c o ->
  is_string o ->
  transduces (compose (add_tokens self G) (delete_tokens self V)) i
             (nbsp_to_space o).
Proof.
  intros HV HG Hc Ho. rewrite transduces_yields, yields_compose.
  exists (name self ++ str " { " ++ c ++ str " }"). split.
  - apply transduces_add_tokens. eauto.
  - apply transduces_delete_tokens. exists o. repeat split; try assumption.
    now apply transduces_delete_tokens_res_framed.
Qed.

Lemma add_tokens_delete_tokens_compose_witness :
  transduces
    (compose (add_tokens sample_unit (cross (str "uno") (str "1")))
             (delete_tokens sample_unit (cross (str "1") (str "one"))))
    (str "uno") (nbsp_to_space (str "one")).
Proof.
  apply (add_tokens_delete_tokens_compose sample_unit
           (cross (str "uno") (str "1")) (cross (str "1") (str "one"))
           (str "uno") (str "1") (str "one")).
  - apply local_cross.
  - apply in_outputs. vm_compute. auto.
  - apply in_outputs. vm_compute. auto.
  - reflexivity.
Defined.

(** ** Spaces to non-breaking spaces *)

Lemma space_to_nbsp_space (t : bytes) :
  space_to_nbsp (" "%char :: t) = NEMO_NON_BREAKING_SPACE ++ space_to_nbsp t.
Proof. reflexivity. Qed.

Lemma space_to_nbsp_other (c : ascii) (t : bytes) :
  c <> " "%char -> space_to_nbsp (c :: t) = c :: space_to_nbsp t.
Proof.
  intros Hc. unfold space_to_nbsp. rewrite rewrite_ltr_cons.
  change (strip_prefix NEMO_SPACE (c :: t))
    with (if Ascii.eqb " "%char c then strip_prefix [] t else None).
  destruct (Ascii.eqb_spec " "%char c) as [E|_]; [congruence | reflexivity].
Qed.

Lemma space_to_nbsp_app (a b : bytes) :
  space_to_nbsp (a ++ b) = space_to_nbsp a ++ space_to_nbsp b.
Proof.
  induction a as [|c a IH]; [reflexivity|].
  destruct (ascii_dec c " "%char) as [->|Hc].
  - simpl app. rewrite !space_to_nbsp_space, IH. reflexivity.
  - simpl app. rewrite !(space_to_nbsp_other _ _ Hc), IH. reflexivity.
Qed.

Lemma space_to_nbsp_no_space (s : bytes) : ~ In " "%char (space_to_nbsp s).
Proof.
  induction s as [|c s IH]; [simpl; tauto|].
  destruct (ascii_dec c " "%char) as [->|Hc].
  - rewrite space_to_nbsp_space. simpl. intros [H|[H|H]]; try discriminate.
    contradiction.
  - rewrite (space_to_nbsp_other _ _ Hc). simpl. intros [H|H]; auto.
Qed.

Lemma space_to_nbsp_high (s : bytes) :
  Forall (fun k => 128 <= nat_of_ascii k) s -> space_to_nbsp s = s.
Proof.
  induction 1 as [|c s Hc _ IH]; [reflexivity|].
  rewrite space_to_nbsp_other, IH; [reflexivity|].
  intros ->. apply Nat.leb_le in Hc. discriminate.
Qed.

Lemma is_string_space_to_nbsp (s : bytes) :
  is_string s -> is_string (space_to_nbsp s).
Proof.
  remember (List.length s) as n eqn:En. revert s En.
  induction n as [n IH] using lt_wf_ind. intros s En H.
  apply is_string_cons_iff in H.
  destruct H as [->|(c & t & -> & Hc & H1 & H2)]; [reflexivity|].
  rewrite space_to_nbsp_app. apply is_string_app.
  - pose proof H1 as Hs. apply NEMO_CHAR_shape in Hs.
    destruct Hs as (c0 & cs & -> & [(-> & Hr)|(_ & H192 & Hall)]).
    + destruct (ascii_dec c0 " "%char) as [->|Hne]; [reflexivity|].
      rewrite (space_to_nbsp_other _ _ Hne). now apply is_string_single.
    + rewrite space_to_nbsp_high.
      * apply is_string_cons_iff. right. exists (c0 :: cs), [].
        rewrite app_nil_r. repeat split; assumption.
      * constructor; [lia | assumption].
  - apply (IH (List.length t)); try assumption; try reflexivity.
    rewrite length_app in En. destruct c; [congruence | simpl in En; lia].
Qed.

(** The second byte of a non-breaking space begins the rewritten string
    only where it began the string. *)
Lemma space_to_nbsp_head (s x : bytes) :
  space_to_nbsp s = byte_of 160 :: x -> exists t, s = byte_of 160 :: t.
Proof.
  destruct s as [|c s]; [discriminate|].
  destruct (ascii_dec c " "%char) as [->|Hc].
  - rewrite space_to_nbsp_space. discriminate.
  - rewrite (space_to_nbsp_other _ _ Hc). intros H. injection H as -> _. eauto.
Qed.

Lemma nbsp_to_space_space_to_nbsp (s : bytes) :
  ~ infix_of NEMO_NON_BREAKING_SPACE s -> nbsp_to_space (space_to_nbsp s) = s.
Proof.
  induction s as [|c s IH]; intros H; [reflexivity|].
  assert (Hs : ~ infix_of NEMO_NON_BREAKING_SPACE s).
  { intros (l & r & ->). apply H. exists (c :: l), r. reflexivity. }
  destruct (ascii_dec c " "%char) as [->|Hc].
  - rewrite space_to_nbsp_space, nbsp_to_space_nbsp, (IH Hs). reflexivity.
  - rewrite (space_to_nbsp_other _ _ Hc), nbsp_to_space_other, (IH Hs);
      [reflexivity|].
    destruct (strip_prefix NEMO_NON_BREAKING_SPACE (c :: space_to_nbsp s))
      as [r|] eqn:E; [|reflexivity].
    apply strip_prefix_spec in E. injection E as -> E.
    apply space_to_nbsp_head in E. destruct E as (t & ->).
    exfalso. apply H. exists [], t. reflexivity.
Qed.

Lemma transduces_convert_space (T : Fst) (i o : bytes) :
  transduces (convert_space T) i o <->
  exists m, transduces T i m /\ is_string m /\ o = space_to_nbsp m.
Proof.
  unfold convert_space. rewrite transduces_yields, yields_compose.
  split; intros (m & H1 & H2); exists m; split; try assumption;
    now apply transduces_cdrewrite_cross.
Qed.

(** X3.  Every output of [convert_space] of [T] is an output of [T] in which
    the spaces are rewritten to non-breaking spaces, and no ordinary space
    is left in it. *)
Theorem convert_space_no_space (T : Fst) (i o : bytes) :
  transduces (convert_space T) i o ->
  (exists m, transduces T i m /\ o = space_to_nbsp m) /\ ~ In " "%char o.
Proof.
  intros H. apply transduces_convert_space in H.
  destruct H as (m & H & _ & ->). split; [eauto|].
  apply space_to_nbsp_no_space.
Qed.

Lemma convert_space_no_space_witness :
  (exists m, transduces (accep (str "hello kitty")) (str "hello kitty") m /\
             space_to_nbsp (str "hello kitty") = space_to_nbsp m) /\
  ~ In " "%char (space_to_nbsp (str "hello kitty")).
Proof.
  apply (convert_space_no_space (accep (str "hello kitty")) (str "hello kitty")).
  apply in_outputs. vm_compute. auto.
Defined.

(** X4.  The spaces protected on the classify side come back on the
    verbalize side: when [T] maps [i] to a string [m] that has no
    non-breaking space of its own, [add_tokens] of [convert_space] of [T],
    followed by [delete_tokens] of the grammar that accepts any string, maps
    [i] to [m]. *)
Theorem convert_space_round_trip (self : GraphFst) (T : Fst) (i m : bytes) :
  transduces T i m ->
  is_string m ->
  ~ infix_of NEMO_NON_BREAKING_SPACE m ->
  transduces
    (compose (add_tokens self (convert_space T)) (delete_tokens self NEMO_SIGMA))
    i m.
Proof.
  intros HT Hm Hn.
  pose proof (is_string_space_to_nbsp m Hm) as Hc.
  rewrite transduces_yields, yields_compose.
  exists (name self ++ str " { " ++ space_to_nbsp m ++ str " }"). split.
  - apply transduces_add_tokens. exists (space_to_nbsp m).
    split; [|reflexivity]. apply transduces_convert_space. eauto.
  - apply transduces_delete_tokens. exists (space_to_nbsp m).
    repeat split; try assumption.
    + apply transduces_delete_tokens_res_framed; [apply local_NEMO_SIGMA|].
      now apply transduces_NEMO_SIGMA.
    + now rewrite nbsp_to_space_space_to_nbsp.
Qed.

Lemma convert_space_round_trip_witness :
  transduces
    (compose (add_tokens sample_unit (convert_space (accep (str "hello kitty"))))
             (delete_tokens sample_unit NEMO_SIGMA))
    (str "hello kitty") (str "hello kitty").
Proof.
  apply (convert_space_round_trip sample_unit (accep (str "hello kitty"))).
  - apply in_outputs. vm_compute. auto.
  - reflexivity.
  - intros (l & r & E). vm_compute in E.
    repeat (destruct l as [|? l]; [discriminate|injection E as _ E]).
    destruct l; discriminate.
Defined.

(** ** More on the Spanish date verbalizer *)

Lemma accepts_dquote_false (c : bytes) :
  ~ In (byte_of 34) c -> accepts (accep dquote) c = false.
Proof.
  intros Hc. apply accepts_false. intros o H. apply transduces_accep in H.
  destruct H as (_ & ->). apply Hc. simpl. auto.
Qed.

Lemma yields_closure_NEMO_NOT_QUOTE (v r : bytes) :
  is_string v -> ~ In (byte_of 34) v ->
  yields (closure NEMO_NOT_QUOTE) (v ++ r) v r.
Proof.
  remember (List.length v) as n eqn:En. revert v En.
  induction n as [n IH] using lt_wf_ind. intros v En Hv Hq.
  apply is_string_cons_iff in Hv.
  destruct Hv as [->|(c & t & -> & Hc & H1 & H2)].
  - apply yields_closure. auto.
  - apply yields_closure. right. exists c, (t ++ r), t.
    rewrite <- app_assoc. repeat split.
    + unfold NEMO_NOT_QUOTE, optimize. apply yields_difference. split.
      * apply yields_extend; [apply local_NEMO_CHAR | assumption].
      * apply accepts_dquote_false. intros H. apply Hq, in_or_app. auto.
    + rewrite !length_app. destruct c; [congruence | simpl; lia].
    + apply (IH (List.length t)); try assumption; try reflexivity.
      * rewrite length_app in En. destruct c; [congruence | simpl in En; lia].
      * intros H. apply Hq, in_or_app. auto.
Qed.

Lemma yields_closure_1_NEMO_NOT_QUOTE (v r : bytes) :
  is_string v -> v <> [] -> ~ In (byte_of 34) v ->
  yields (closure_1 NEMO_NOT_QUOTE) (v ++ r) v r.
Proof.
  intros Hv Hne Hq.
  pose proof (yields_closure_NEMO_NOT_QUOTE v r Hv Hq) as H.
  apply yields_closure in H.
  destruct H as [(E & _)|(o1 & m & o2 & H1 & _ & H2 & E)]; [congruence|].
  unfold closure_1. apply yields_concat. exists o1, m, o2. auto.
Qed.

(** The name of a field, a space and the opening quote of its value. *)
Lemma yields_field_open (field rest : bytes) :
  yields
    (concat (concat (delete (accep field)) delete_space) (delete (accep dquote)))
    (field ++ str " " ++ dquote ++ rest) [] rest.
Proof.
  path_nil (@nil ascii) (dquote ++ rest); [|now apply yields_delete_accep].
  path_nil (@nil ascii) (str " " ++ dquote ++ rest).
  - now apply yields_delete_accep.
  - apply yields_delete_space_space.
Qed.

(** A quoted value after the name of its field. *)
Lemma yields_quoted_value (field v r : bytes) :
  is_string v -> v <> [] -> ~ In (byte_of 34) v ->
  yields
    (concat (concat (concat (concat
       (delete (accep field)) delete_space) (delete (accep dquote)))
       (closure_1 NEMO_NOT_QUOTE)) (delete (accep dquote)))
    (field ++ str " " ++ quoted v ++ r) v r.
Proof.
  intros Hv Hne Hq. unfold quoted. rewrite <- !app_assoc.
  path_nil v (dquote ++ r); [|now apply yields_delete_accep].
  apply yields_concat. exists (@nil ascii), (v ++ dquote ++ r), v.
  repeat split.
  - apply yields_field_open.
  - now apply yields_closure_1_NEMO_NOT_QUOTE.
Qed.

Lemma NEMO_NOT_QUOTE_dquote (rest o r : bytes) :
  ~ yields NEMO_NOT_QUOTE (byte_of 34 :: rest) o r.
Proof.
  unfold NEMO_NOT_QUOTE, optimize. rewrite yields_difference.
  intros (H & Hq).
  pose proof (yields_acceptor _ _ _ _ acceptor_NEMO_CHAR H) as E.
  apply NEMO_CHAR_shape in H.
  destruct H as (c0 & cs & -> & [(-> & _)|(_ & H192 & _)]);
    injection E as <- E.
  - discriminate.
  - apply Nat.leb_le in H192. discriminate.
Qed.

Section DateRendering.

Variables months_tsv months_cased_tsv : list (bytes * bytes).

Local Abbreviation date_fst := (DateFst_fst months_tsv months_cased_tsv).

Lemma transduces_graph_dm (d m v : bytes) :
  is_string d -> d <> [] -> ~ In (byte_of 34) d ->
  In (m, v) (months_tsv ++ months_cased_tsv) ->
  transduces (graph_dm months_tsv months_cased_tsv)
    (str "day: " ++ quoted d ++ str " month: " ++ quoted m)
    (d ++ str " de " ++ v).
Proof.
  intros Hd Hne Hq Hm. unfold graph_dm. rewrite transduces_yields.
  apply yields_concat.
  exists (d ++ str " de "), (str "month: " ++ quoted m), v. repeat split.
  - apply yields_concat.
    exists (d ++ str " de"), (str "month: " ++ quoted m), (str " ").
    repeat split; [|now apply yields_insert|now rewrite <- !app_assoc].
    apply yields_concat.
    exists (d ++ str " "), (str "month: " ++ quoted m), (str "de").
    repeat split; [|now apply yields_insert|now rewrite <- !app_assoc].
    apply yields_concat.
    exists d, (str " month: " ++ quoted m), (str " ").
    repeat split.
    + apply (yields_quoted_value (str "day:")); assumption.
    + apply yields_delete_extra_space. split; [reflexivity|].
      exists (str " "). repeat split. discriminate.
  - unfold month, quoted.
    path_nil v dquote; [|apply yields_delete_accep; now rewrite app_nil_r].
    apply yields_concat. exists (@nil ascii), (m ++ dquote), v.
    repeat split.
    + apply (yields_field_open (str "month:") (m ++ dquote)).
    + apply yields_graph_month. eauto.
  - now rewrite <- !app_assoc.
Qed.

End DateRendering.

(** X5.  For a day [d], a non-empty string without a double quote, and a
    row of the tables of months with key [m] and value [v], a string, the
    date verbalizer maps the record of day [d] and month [m], with or
    without the marker [preserve_order: true], to [d], [de] and [v] with one
    space between them, the non-breaking spaces rewritten to spaces. *)
Theorem DateFst_day_month
    (months_tsv months_cased_tsv : list (bytes * bytes)) (d m v : bytes) :
  is_string d -> d <> [] -> ~ In (byte_of 34) d ->
  In (m, v) (months_tsv ++ months_cased_tsv) -> is_string v ->
  transduces (DateFst_fst months_tsv months_cased_tsv)
    (str "date { "
       ++ (str "day: " ++ quoted d ++ str " month: " ++ quoted m)
       ++ str " }")
    (nbsp_to_space (d ++ str " de " ++ v)) /\
  transduces (DateFst_fst months_tsv months_cased_tsv)
    (str "date { "
       ++ ((str "day: " ++ quoted d ++ str " month: " ++ quoted m)
             ++ str " preserve_order: true")
       ++ str " }")
    (nbsp_to_space (d ++ str " de " ++ v)).
Proof.
  intros Hd Hne Hq Hm Hv.
  assert (Ho : is_string (d ++ str " de " ++ v)).
  { apply is_string_app; [assumption|].
    apply (is_string_app (str " de ")); [reflexivity | assumption]. }
  assert (H : transduces (union (graph_dm months_tsv months_cased_tsv) year)
                (str "day: " ++ quoted d ++ str " month: " ++ quoted m)
                (d ++ str " de " ++ v)).
  { rewrite transduces_yields. apply yields_union. left.
    now apply transduces_graph_dm. }
  split; apply DateFst_framed; try assumption.
  - now apply transduces_final_graph_plain.
  - now apply transduces_final_graph_marker.
Qed.

Lemma DateFst_day_month_witness :
  transduces (DateFst_fst sample_months [])
    (str "date { "
       ++ (str "day: " ++ quoted (str "15") ++ str " month: "
             ++ quoted (str "marzo"))
       ++ str " }")
    (nbsp_to_space (str "15" ++ str " de " ++ str "marzo")) /\
  transduces (DateFst_fst sample_months [])
    (str "date { "
       ++ ((str "day: " ++ quoted (str "15") ++ str " month: "
              ++ quoted (str "marzo"))
             ++ str " preserve_order: true")
       ++ str " }")
    (nbsp_to_space (str "15" ++ str " de " ++ str "marzo")).
Proof.
  apply (DateFst_day_month sample_months [] (str "15") (str "marzo")
           (str "marzo")).
  - reflexivity.
  - discriminate.
  - vm_compute. intuition discriminate.
  - vm_compute. tauto.
  - reflexivity.
Defined.

(** X6.  For a year [y], a non-empty string without a double quote, the
    date verbalizer maps the record of year [y] to [y] with its non-breaking
    spaces rewritten to spaces, whatever the tables of months. *)
Theorem DateFst_year
    (months_tsv months_cased_tsv : list (bytes * bytes)) (y : bytes) :
  is_string y -> y <> [] -> ~ In (byte_of 34) y ->
  transduces (DateFst_fst months_tsv months_cased_tsv)
    (str "date { " ++ (str "year: " ++ quoted y) ++ str " }")
    (nbsp_to_space y).
Proof.
  intros Hy Hne Hq. apply DateFst_framed; [assumption|].
  apply transduces_final_graph_plain.
  rewrite transduces_yields. apply yields_union. right.
  pose proof (yields_quoted_value (str "year:") y [] Hy Hne Hq) as H.
  now rewrite app_nil_r in H.
Qed.

Lemma DateFst_year_witness :
  transduces (DateFst_fst sample_months [])
    (str "date { " ++ (str "year: " ++ quoted (str "1999")) ++ str " }")
    (nbsp_to_space (str "1999")).
Proof.
  apply (DateFst_year sample_months [] (str "1999")).
  - reflexivity.
  - discriminate.
  - vm_compute. intuition discriminate.
Defined.

Lemma closure_1_NEMO_NOT_QUOTE_dquote (rest o r : bytes) :
  ~ yields (closure_1 NEMO_NOT_QUOTE) (byte_of 34 :: rest) o r.
Proof.
  unfold closure_1. rewrite yields_concat.
  intros (o1 & m & o2 & H & _). exact (NEMO_NOT_QUOTE_dquote _ _ _ H).
Qed.

(** X7.  A record whose day, or whose year, has an empty value is rejected,
    whatever follows the value and whatever the tables of months. *)
Theorem DateFst_empty_value
    (months_tsv months_cased_tsv : list (bytes * bytes)) (rest o : bytes) :
  ~ transduces (DateFst_fst months_tsv months_cased_tsv)
      (str "date { day: " ++ quoted [] ++ rest) o /\
  ~ transduces (DateFst_fst months_tsv months_cased_tsv)
      (str "date { year: " ++ quoted [] ++ rest) o.
Proof.
  split; unfold DateFst_fst, optimize; intros H;
    apply transduces_delete_tokens in H; destruct H as (m & H & _ & ->);
    unfold delete_tokens_res, final_graph, graph_dm, day, year in H;
    rewrite transduces_yields in H; split_concat; run_partial;
    match goal with
    | H : yields (closure_1 NEMO_NOT_QUOTE) _ _ _ |- _ =>
        exact (closure_1_NEMO_NOT_QUOTE_dquote _ _ _ H)
    end.
Qed.

(** ** More on capitalized input *)

Lemma is_lower_range (c : ascii) :
  is_lower c = true -> 97 <= nat_of_ascii c <= 122.
Proof.
  unfold is_lower. rewrite existsb_exists. intros (x & Hx & E).
  apply Ascii.eqb_eq in E. subst x. simpl in Hx.
  repeat (destruct Hx as [<-|Hx];
          [split; apply Nat.leb_le; reflexivity|]).
  contradiction.
Qed.

Lemma nat_of_to_upper (c : ascii) :
  is_lower c = true -> nat_of_ascii (to_upper c) = nat_of_ascii c - 32.
Proof.
  intros Hc. unfold to_upper. rewrite Hc. apply nat_ascii_embedding.
  apply is_lower_range in Hc. lia.
Qed.

Lemma to_upper_inj (c c' : ascii) :
  is_lower c = true -> is_lower c' = true ->
  to_upper c = to_upper c' -> c = c'.
Proof.
  intros Hc Hc' E. apply (f_equal nat_of_ascii) in E.
  rewrite !nat_of_to_upper in E by assumption.
  apply is_lower_range in Hc, Hc'.
  rewrite <- (ascii_nat_embedding c), <- (ascii_nat_embedding c').
  f_equal. lia.
Qed.

Lemma to_upper_not_lower (c : ascii) :
  is_lower c = true -> is_lower (to_upper c) = false.
Proof.
  intros Hc. destruct (is_lower (to_upper c)) eqn:E; [|reflexivity].
  apply is_lower_range in E. rewrite nat_of_to_upper in E by assumption.
  apply is_lower_range in Hc. lia.
Qed.

Lemma yields_TO_LOWER (i o r : bytes) :
  yields TO_LOWER i o r <->
  exists c, is_lower c = true /\ i = to_upper c :: r /\ o = [c].
Proof.
  split.
  - unfold TO_LOWER. rewrite yields_union_list. intros (T & HT & H).
    simpl in HT.
    repeat (destruct HT as [<-|HT];
            [apply yields_cross_to in H; destruct H as (-> & o' & H);
             apply yields_accep in H; destruct H as (_ & ->);
             eexists; split; [|split; [|reflexivity]]; reflexivity|]).
    contradiction.
  - intros (c & Hc & -> & ->). now apply TO_LOWER_to_upper.
Qed.

Lemma transduces_capitalized_input_graph
    (G : Fst) (ow cw : option pyfloat) (i o : bytes) :
  transduces (capitalized_input_graph G ow cw) i o <->
  (keeps_paths ow = true /\ transduces G i o) \/
  (keeps_paths cw = true /\
   exists c t, is_lower c = true /\ i = to_upper c :: t /\ is_string t /\
               transduces G (c :: t) o).
Proof.
  rewrite transduces_yields, yields_capitalized_input_graph, yields_compose.
  rewrite <- transduces_yields.
  apply or_iff_compat_l. apply and_iff_compat_l. split.
  - intros (m & H & HG). apply yields_concat in H.
    destruct H as (o1 & m1 & o2 & H1 & H2 & ->).
    apply yields_TO_LOWER in H1. destruct H1 as (c & Hc & -> & ->).
    apply transduces_NEMO_SIGMA in H2. destruct H2 as (-> & H2).
    exists c, m1. auto.
  - intros (c & t & Hc & -> & Ht & HG). exists (c :: t). split; [|assumption].
    apply yields_concat. exists [c], t, t. repeat split.
    + now apply TO_LOWER_to_upper.
    + now apply transduces_NEMO_SIGMA.
Qed.

Lemma transduces_capitalized_input_graph_plain (G : Fst) (i o : bytes) :
  transduces (capitalized_input_graph G None None) i o <->
  transduces G i o \/
  exists c t, is_lower c = true /\ i = to_upper c :: t /\ is_string t /\
              transduces G (c :: t) o.
Proof. rewrite transduces_capitalized_input_graph. simpl. tauto. Qed.

(** X8.  [TO_LOWER] maps the one-letter string of an upper-case ASCII
    letter to that of its lower-case letter, and accepts nothing else, a
    lower-case letter included.  It is one to one, so that its inverse
    [TO_UPPER] is a function from the lower-case letters onto the
    upper-case letters. *)
Theorem TO_LOWER_letters :
  (forall i o,
     transduces TO_LOWER i o <->
     exists c, is_lower c = true /\ i = [to_upper c] /\ o = [c]) /\
  (forall c o, is_lower c = true -> ~ transduces TO_LOWER [c] o) /\
  (forall i o o', transduces TO_LOWER i o -> transduces TO_LOWER i o' -> o = o') /\
  (forall i o o', TO_UPPER i o -> TO_UPPER i o' -> o = o') /\
  (forall c, is_lower c = true -> TO_UPPER [c] [to_upper c]).
Proof.
  assert (H : forall i o,
             transduces TO_LOWER i o <->
             exists c, is_lower c = true /\ i = [to_upper c] /\ o = [c])
    by (intros i o; apply yields_TO_LOWER).
  split; [exact H|]. split; [|split; [|split]].
  - intros c o Hc Ho. apply H in Ho. destruct Ho as (c' & Hc' & E & _).
    injection E as ->. rewrite to_upper_not_lower in Hc by assumption.
    discriminate.
  - intros i o o' Ho Ho'. apply H in Ho, Ho'.
    destruct Ho as (c & Hc & -> & ->), Ho' as (c' & Hc' & E & ->).
    injection E as E. now rewrite (to_upper_inj c c' Hc Hc' E).
  - unfold TO_UPPER, invert. intros i o o' Ho Ho'. apply H in Ho, Ho'.
    destruct Ho as (c & Hc & -> & ->), Ho' as (c' & Hc' & -> & E).
    now injection E as ->.
  - intros c Hc. apply H. eauto.
Qed.

(** X9.  With weights that are absent or read as weights of the semiring,
    [capitalized_input_graph] of [G] maps an input to an output exactly
    when the original graph is not given an infinite weight and [G] maps
    the input to the output, or when the capitalized graph is not given an
    infinite weight, the input begins with an upper-case ASCII letter, what
    follows it is a string, and [G] maps the input with its first letter in
    lower case to the output.  So, the weight of the original graph being
    finite, it maps an input that does not begin with an upper-case ASCII
    letter as [G] does. *)
Theorem capitalized_input_graph_outputs
    (G : Fst) (ow cw : option pyfloat) (i o : bytes) :
  member_weight ow ->
  member_weight cw ->
  (transduces (capitalized_input_graph G ow cw) i o <->
   (keeps_paths ow = true /\ transduces G i o) \/
   (keeps_paths cw = true /\
    exists c t, is_lower c = true /\ i = to_upper c :: t /\ is_string t /\
                transduces G (c :: t) o)) /\
  (finite_weight ow ->
   (forall c t, is_lower c = true -> i <> to_upper c :: t) ->
   (transduces (capitalized_input_graph G ow cw) i o <-> transduces G i o)).
Proof.
  intros _ _. split; [apply transduces_capitalized_input_graph|].
  intros Ho Hi. apply finite_weight_keeps in Ho.
  rewrite transduces_capitalized_input_graph, Ho. split; [|auto].
  intros [(_ & H)|(_ & c & t & Hc & E & _)]; [assumption|].
  exfalso. exact (Hi c t Hc E).
Qed.

(** X11.  [MINUS] accepts the inputs that the capitalized-input graph of
    the acceptor of [minus] accepts, which are [minus] and [Minus]; [MINUS]
    writes its input, and the capitalized-input graph writes [minus]. *)
Theorem MINUS_capitalized (i : bytes) :
  ((exists o, transduces MINUS i o) <->
   (exists o, transduces
                (capitalized_input_graph (accep (str "minus")) None None) i o)) /\
  (forall o, transduces MINUS i o <->
             o = i /\ (i = str "minus" \/ i = str "Minus")) /\
  (forall o, transduces
               (capitalized_input_graph (accep (str "minus")) None None) i o <->
             o = str "minus" /\ (i = str "minus" \/ i = str "Minus")).
Proof.
  assert (HM : forall o, transduces MINUS i o <->
                         o = i /\ (i = str "minus" \/ i = str "Minus")).
  { intros o. unfold MINUS, optimize.
    rewrite transduces_yields, yields_union_list. split.
    - intros (T & HT & H). simpl in HT.
      destruct HT as [<-|[<-|[]]]; apply yields_accep in H;
        destruct H as (-> & ->); auto.
    - intros (-> & [ -> | -> ]).
      + exists (accep (str "minus")). split; [simpl; auto|].
        now apply yields_accep.
      + exists (accep (str "Minus")). split; [simpl; auto|].
        now apply yields_accep. }
  assert (HC : forall o,
             transduces
               (capitalized_input_graph (accep (str "minus")) None None) i o <->
             o = str "minus" /\ (i = str "minus" \/ i = str "Minus")).
  { intros o. rewrite transduces_capitalized_input_graph_plain. split.
    - intros [H|(c & t & Hc & -> & Ht & H)]; apply transduces_accep in H.
      + destruct H as (-> & ->). auto.
      + destruct H as (-> & E). injection E as -> ->. auto.
    - intros (-> & [ -> | -> ]).
      + left. now apply transduces_accep.
      + right. exists "m"%char, (str "inus"). repeat split.
        now apply transduces_accep. }
  split; [|split; assumption]. split.
  - intros (o & H). apply HM in H. destruct H as (_ & H).
    exists (str "minus"). apply HC. auto.
  - intros (o & H). apply HC in H. destruct H as (_ & H).
    exists i. apply HM. auto.
Qed.

Lemma capitalized_input_graph_outputs_witness :
  transduces
    (capitalized_input_graph (cross (str "one") (str "1"))
       (Some MIN_POS_WEIGHT) (Some sample_1e39))
    (str "one") (str "1") <->
  transduces (cross (str "one") (str "1")) (str "one") (str "1").
Proof.
  apply (capitalized_input_graph_outputs (cross (str "one") (str "1"))
           (Some MIN_POS_WEIGHT) (Some sample_1e39) (str "one") (str "1")).
  - vm_compute. discriminate.
  - vm_compute. discriminate.
  - vm_compute. reflexivity.
  - intros c t Hc E. injection E as E _.
    apply to_upper_not_lower in Hc. rewrite <- E in Hc. discriminate.
Defined.

(** ** The order markers *)

Lemma split_at_dquote (a b x y : bytes) :
  ~ In (byte_of 34) a -> ~ In (byte_of 34) b ->
  a ++ dquote ++ x = b ++ dquote ++ y -> a = b /\ x = y.
Proof.
  revert b. induction a as [|c a IH]; intros [|c' b] Ha Hb E.
  - injection E as ->. auto.
  - injection E as <- _. exfalso. apply Hb. now left.
  - injection E as -> _. exfalso. apply Ha. now left.
  - injection E as -> E. apply IH in E.
    + destruct E as (-> & ->). auto.
    + intros H. apply Ha. now right.
    + intros H. apply Hb. now right.
Qed.

Lemma NEMO_CHAR_no_dquote (c : bytes) :
  transduces NEMO_CHAR c c -> accepts (accep dquote) c = false ->
  ~ In (byte_of 34) c.
Proof.
  intros H Hq. apply NEMO_CHAR_shape in H.
  destruct H as (c0 & cs & -> & [(-> & _)|(_ & H192 & Hall)]).
  - intros [E|[]]. subst c0. discriminate.
  - intros [E|H].
    + subst c0. apply Nat.leb_le in H192. discriminate.
    + rewrite Forall_forall in Hall. apply Hall in H.
      apply Nat.leb_le in H. discriminate.
Qed.

(** The marker [preserve_order: true], as [delete_preserve_order] reads it. *)
Lemma delete_preserve_order_step (i o r : bytes) :
  yields delete_preserve_order i o r <->
  (o = [] /\ r = i) \/
  (exists m, i = str " preserve_order: true" ++ m /\
             yields delete_preserve_order m o r) \/
  (exists c m o2,
     i = (str " field_order: " ++ dquote) ++ c ++ dquote ++ m /\
     transduces NEMO_NOT_QUOTE c c /\
     yields delete_preserve_order m o2 r /\ o = c ++ o2).
Proof.
  unfold delete_preserve_order at 1. rewrite yields_closure.
  apply or_iff_compat_l. split.
  - intros (o1 & m & o2 & H1 & Hlt & H2 & ->).
    apply yields_union in H1. destruct H1 as [H1|H1].
    + left. apply yields_delete_accep in H1. destruct H1 as (-> & ->).
      exists m. auto.
    + right. split_concat.
      repeat match goal with
             | H : yields (delete (accep _)) _ _ _ |- _ =>
                 apply yields_delete_accep in H; destruct H as (-> & ->)
             end.
      match goal with
      | H : yields NEMO_NOT_QUOTE _ ?c _ |- _ =>
          apply (yields_local _ _ _ _ local_NEMO_NOT_QUOTE) in H;
          destruct H as (p & E & H);
          pose proof (transduces_acceptor _ _ _ acceptor_NEMO_NOT_QUOTE H) as Ep;
          subst p; exists c, m, o2
      end.
      repeat split; try assumption.
      * rewrite E. reflexivity.
      * simpl. now rewrite app_nil_r.
  - intros [(m & -> & H)|(c & m & o2 & -> & Hc & H & ->)].
    + exists [], m, o. repeat split; try assumption.
      * apply yields_union. left. now apply yields_delete_accep.
      * rewrite length_app. simpl. lia.
    + exists c, m, o2. repeat split; try assumption.
      * apply yields_union. right.
        path_nil c (dquote ++ m); [|now apply yields_delete_accep].
        apply yields_concat. exists (@nil ascii), (c ++ dquote ++ m), c.
        repeat split; [now apply yields_delete_accep|].
        apply yields_extend; [apply local_NEMO_NOT_QUOTE | assumption].
      * rewrite !length_app. simpl. lia.
Qed.

Lemma delete_preserve_order_nil (o : bytes) :
  yields delete_preserve_order [] o [] -> o = [].
Proof.
  intros H. apply delete_preserve_order_step in H.
  destruct H as [(-> & _)|[(m & E & _)|(c & m & o2 & E & _)]];
    [reflexivity | discriminate E | discriminate E].
Qed.

(** X12.  [delete_preserve_order] accepts any number of markers
    [preserve_order: true], each after one space, and writes nothing for
    them. *)
Theorem delete_preserve_order_markers (n : nat) (o : bytes) :
  transduces delete_preserve_order
             (List.concat (repeat (str " preserve_order: true") n)) o <->
  o = [].
Proof.
  rewrite transduces_yields. split.
  - revert o. induction n as [|n IH]; intros o H.
    + now apply delete_preserve_order_nil.
    + apply delete_preserve_order_step in H.
      destruct H as [(-> & _)|[(m & E & H)|(c & m & o2 & E & _)]].
      * reflexivity.
      * change (List.concat (repeat (str " preserve_order: true") (S n)))
          with (str " preserve_order: true"
                  ++ List.concat (repeat (str " preserve_order: true") n)) in E.
        apply app_inv_head in E. subst m. now apply IH.
      * simpl in E. discriminate E.
  - intros ->. induction n as [|n IH].
    + apply delete_preserve_order_step. auto.
    + apply delete_preserve_order_step. right. left.
      exists (List.concat (repeat (str " preserve_order: true") n)). auto.
Qed.

(** X13.  For a value [v] without a double quote, [delete_preserve_order]
    accepts the marker [field_order] of value [v] exactly when [v] is one
    character, and it writes that character: a name of several characters
    is rejected, and the character of a name of one is not deleted. *)
Theorem delete_preserve_order_field_order (v o : bytes) :
  ~ In (byte_of 34) v ->
  (transduces delete_preserve_order (str " field_order: " ++ quoted v) o <->
   transduces NEMO_CHAR v v /\ o = v).
Proof.
  intros Hv. rewrite transduces_yields. unfold quoted. split.
  - intros H. apply delete_preserve_order_step in H.
    destruct H as [(_ & E)|[(m & E & _)|(c & m & o2 & E & Hc & H & ->)]].
    + discriminate E.
    + simpl in E. discriminate E.
    + rewrite <- !app_assoc in E. do 2 apply app_inv_head in E.
      unfold NEMO_NOT_QUOTE, optimize in Hc.
      rewrite transduces_yields in Hc. apply yields_difference in Hc.
      destruct Hc as (Hc & Hq).
      rewrite <- (app_nil_r (v ++ dquote)), <- app_assoc in E.
      apply split_at_dquote in E;
        [|assumption | now apply NEMO_CHAR_no_dquote].
      destruct E as (-> & <-). apply delete_preserve_order_nil in H. subst o2.
      rewrite app_nil_r. auto.
  - intros (Hc & ->). apply delete_preserve_order_step. right. right.
    exists v, [], []. repeat split.
    + unfold NEMO_NOT_QUOTE, optimize. rewrite transduces_yields.
      apply yields_difference. split; [assumption|].
      now apply accepts_dquote_false.
    + apply delete_preserve_order_step. auto.
    + now rewrite app_nil_r.
Qed.

Lemma delete_preserve_order_field_order_witness :
  transduces delete_preserve_order (str " field_order: " ++ quoted (str "x"))
             (str "x") <->
  transduces NEMO_CHAR (str "x") (str "x") /\ str "x" = str "x".
Proof.
  apply (delete_preserve_order_field_order (str "x") (str "x")).
  vm_compute. intuition discriminate.
Defined.

(** ** White space *)

Lemma yields_NEMO_WHITE_SPACE (i o r : bytes) :
  yields NEMO_WHITE_SPACE i o r <-> In o white_units /\ i = o ++ r.
Proof.
  unfold NEMO_WHITE_SPACE, optimize. rewrite yields_union_list. split.
  - intros (T & HT & H). simpl in HT.
    destruct HT as [<-|[<-|[<-|[<-|[<-|[]]]]]]; apply yields_accep in H;
      destruct H as (-> & ->); simpl; tauto.
  - intros (Ho & ->). exists (accep o). split; [|now apply yields_accep].
    simpl in Ho. simpl.
    destruct Ho as [<-|[<-|[<-|[<-|[<-|[]]]]]]; tauto.
Qed.

Lemma is_white_cons_iff (s : bytes) :
  is_white s <->
  s = [] \/ exists u t, s = u ++ t /\ In u white_units /\ is_white t.
Proof.
  unfold is_white at 1. rewrite accepts_true. split.
  - intros (o & H). rewrite transduces_yields in H. apply yields_closure in H.
    destruct H as [(_ & <-)|(o1 & m & o2 & H1 & _ & H2 & _)]; [auto|].
    right. apply yields_NEMO_WHITE_SPACE in H1. destruct H1 as (Hu & ->).
    exists o1, m. repeat split; try assumption.
    apply accepts_true. eauto.
  - intros [->|(u & t & -> & Hu & Ht)].
    + exists []. rewrite transduces_yields. apply yields_closure. auto.
    + apply accepts_true in Ht. destruct Ht as (o & Ht).
      exists (u ++ o). rewrite transduces_yields. apply yields_closure. right.
      exists u, t, o. repeat split; try assumption.
      * now apply yields_NEMO_WHITE_SPACE.
      * rewrite length_app. simpl in Hu.
        destruct Hu as [<-|[<-|[<-|[<-|[<-|[]]]]]]; simpl; lia.
Qed.

Lemma is_white_units (s : bytes) :
  is_white s <->
  exists l, Forall (fun u => In u white_units) l /\ s = List.concat l.
Proof.
  split.
  - remember (List.length s) as n eqn:En. revert s En.
    induction n as [n IH] using lt_wf_ind. intros s En H.
    apply is_white_cons_iff in H.
    destruct H as [->|(u & t & -> & Hu & Ht)]; [exists []; auto|].
    apply (IH (List.length t)) in Ht; [| |reflexivity].
    + destruct Ht as (l & Hl & ->). exists (u :: l). auto.
    + subst n. rewrite length_app. simpl in Hu.
      destruct Hu as [<-|[<-|[<-|[<-|[<-|[]]]]]]; simpl; lia.
  - intros (l & Hl & ->). induction Hl as [|u l Hu _ IH].
    + reflexivity.
    + apply is_white_cons_iff. right. exists u, (List.concat l). auto.
Qed.

(** X14.  White space is any sequence of spaces, tabs, line feeds, carriage
    returns and non-breaking spaces.  [delete_space] accepts white space,
    the empty string included, and nothing else, and writes nothing;
    [delete_extra_space] accepts white space that is not empty and writes
    one space; [delete_zero_or_one_space] accepts the empty string and one
    white space character, and writes nothing. *)
Theorem white_space_deleters :
  (forall s,
     is_white s <->
     exists l, Forall (fun u => In u white_units) l /\ s = List.concat l) /\
  (forall i o, transduces delete_space i o <-> o = [] /\ is_white i) /\
  (forall i o,
     transduces delete_extra_space i o <->
     o = str " " /\ is_white i /\ i <> []) /\
  (forall i o,
     transduces delete_zero_or_one_space i o <->
     o = [] /\ (i = [] \/ In i white_units)).
Proof.
  split; [exact is_white_units|]. split; [|split].
  - intros i o. rewrite transduces_yields, yields_delete_space. split.
    + intros (-> & ws & -> & H). now rewrite app_nil_r.
    + intros (-> & H). split; [reflexivity|]. exists i. now rewrite app_nil_r.
  - intros i o. rewrite transduces_yields, yields_delete_extra_space. split.
    + intros (-> & ws & -> & H). now rewrite app_nil_r.
    + intros (-> & H). split; [reflexivity|]. exists i. now rewrite app_nil_r.
  - intros i o. unfold delete_zero_or_one_space, closure_0_1.
    rewrite transduces_yields, yields_delete. split.
    + intros (-> & o' & H). split; [reflexivity|].
      apply yields_union in H. destruct H as [H|H].
      * left. apply yields_accep in H. now destruct H as (_ & ->).
      * right. apply yields_NEMO_WHITE_SPACE in H. destruct H as (H & ->).
        now rewrite app_nil_r.
    + intros (-> & [->|H]); (split; [reflexivity|]).
      * exists []. apply yields_union. left. now apply yields_accep.
      * exists i. apply yields_union. right. apply yields_NEMO_WHITE_SPACE.
        now rewrite app_nil_r.
Qed.

Lemma is_white_bytes (s : bytes) (c : ascii) :
  is_white s -> In c s -> In c (List.concat white_units).
Proof.
  intros H Hc. apply is_white_units in H. destruct H as (l & Hl & ->).
  apply List.in_concat in Hc. destruct Hc as (u & Hu & Hc).
  rewrite Forall_forall in Hl. apply Hl in Hu.
  apply List.in_concat. eauto.
Qed.

(** X15.  The sentence verbalizer rejects an input that is only white
    space, the empty input included: a sentence has at least one block. *)
Theorem VerbalizeFinalFst_no_block (verbalize_fst word_fst : Fst) (i o : bytes) :
  local verbalize_fst ->
  local word_fst ->
  is_white i ->
  ~ transduces (VerbalizeFinalFst_fst verbalize_fst word_fst) i o.
Proof.
  intros Hv Hw Hi H.
  apply (transduces_VerbalizeFinalFst _ _ Hv Hw) in H.
  destruct H as (lead & bs & b & ob & trail & _ & _ & Hb & _ & -> & _).
  apply (transduces_tokens_graph _ _ Hv Hw) in Hb.
  destruct Hb as (w1 & w2 & c & w3 & _ & _ & _ & _ & ->).
  assert (Ht : In "t"%char (List.concat white_units)).
  { apply (is_white_bytes _ _ Hi).
    apply in_or_app. right. apply in_or_app. right.
    apply in_or_app. left. simpl. auto. }
  vm_compute in Ht. intuition discriminate.
Qed.

Lemma VerbalizeFinalFst_no_block_witness :
  ~ transduces (VerbalizeFinalFst_fst (DateFst_fst sample_months []) sample_word)
      (str "  ") [].
Proof.
  apply (VerbalizeFinalFst_no_block (DateFst_fst sample_months []) sample_word).
  - apply local_DateFst_fst.
  - exact local_sample_word.
  - reflexivity.
Defined.

(** ** More on plurals *)

Lemma regular_plural_e (w : bytes) :
  regular_plural (w ++ str "e") = w ++ str "es".
Proof.
  unfold regular_plural, ends_consonant_y, ends_sibilant, ends_with, rule_s.
  rewrite rev_app_distr. simpl rev. simpl app at 1 2.
  assert (E : match rev w with
              | [] => false
              | c :: _ => Ascii.eqb "e"%char "y"%char && is_consonant c
              end = false) by (destruct (rev w); reflexivity).
  change (match "e"%char :: rev w with
          | y :: c :: _ => Ascii.eqb y "y"%char && is_consonant c
          | _ => false
          end)
    with (match rev w with
          | [] => false
          | c :: _ => Ascii.eqb "e"%char "y"%char && is_consonant c
          end).
  rewrite E. simpl existsb. now rewrite <- app_assoc.
Qed.

(** X16.  [PLURAL_TO_SINGULAR] is not a function: for a string [w] that
    ends in s, sh, ch, x or z and not in a consonant and y, when neither [w]
    nor [w] followed by e is in the table of exceptions, it relates the
    plural [w] followed by es both to [w] and to [w] followed by e. *)
Theorem PLURAL_TO_SINGULAR_two_singulars (t : list (bytes * bytes)) (w : bytes) :
  is_string w ->
  ends_consonant_y w = false ->
  ends_sibilant w = true ->
  lookup t w = [] ->
  lookup t (w ++ str "e") = [] ->
  PLURAL_TO_SINGULAR t (w ++ str "es") w /\
  PLURAL_TO_SINGULAR t (w ++ str "es") (w ++ str "e") /\
  w <> w ++ str "e".
Proof.
  intros Hw H1 H2 Hl Hle. unfold PLURAL_TO_SINGULAR, invert. split; [|split].
  - apply transduces_graph_plural. right. repeat split; try assumption.
    unfold regular_plural. now rewrite H1, H2.
  - apply transduces_graph_plural. right. split; [assumption|]. split.
    + apply is_string_app; [assumption | reflexivity].
    + now rewrite regular_plural_e.
  - intros E. apply (f_equal (@List.length ascii)) in E.
    rewrite length_app in E. simpl in E. lia.
Qed.

Lemma PLURAL_TO_SINGULAR_two_singulars_witness :
  PLURAL_TO_SINGULAR sample_suppletive (str "box" ++ str "es") (str "box") /\
  PLURAL_TO_SINGULAR sample_suppletive (str "box" ++ str "es")
                     (str "box" ++ str "e") /\
  str "box" <> str "box" ++ str "e".
Proof.
  apply (PLURAL_TO_SINGULAR_two_singulars sample_suppletive (str "box"));
    reflexivity.
Defined.

(** X17.  For a string [s] that is not in the table of exceptions,
    [get_plurals] of [T] maps [s] to what [T] writes for the regular plural
    of [s], and [get_singulars] of [T] relates the regular plural of [s] to
    what [T] writes for [s]. *)
Theorem get_plurals_get_singulars
    (t : list (bytes * bytes)) (T : Fst) (s o : bytes) :
  is_string s ->
  lookup t s = [] ->
  (transduces (get_plurals t T) s o <-> transduces T (regular_plural s) o) /\
  (transduces T s o -> get_singulars t T (regular_plural s) o).
Proof.
  intros Hs Hl.
  assert (H : forall p, transduces (graph_plural t) s p <-> p = regular_plural s).
  { intros p. rewrite transduces_graph_plural, Hl. simpl. tauto. }
  split.
  - unfold get_plurals, SINGULAR_TO_PLURAL.
    rewrite transduces_yields, yields_compose. split.
    + intros (m & Hm & HT). apply H in Hm. now subst m.
    + intros HT. exists (regular_plural s). split; [now apply H | assumption].
  - intros HT. exists s. split; [|assumption].
    unfold PLURAL_TO_SINGULAR, invert. now apply H.
Qed.

Lemma get_plurals_get_singulars_witness :
  (transduces (get_plurals sample_suppletive (cross (str "boxes") (str "bx")))
              (str "box") (str "bx") <->
   transduces (cross (str "boxes") (str "bx")) (regular_plural (str "box"))
              (str "bx")) /\
  (transduces (cross (str "boxes") (str "bx")) (str "box") (str "bx") ->
   get_singulars sample_suppletive (cross (str "boxes") (str "bx"))
                 (regular_plural (str "box")) (str "bx")).
Proof.
  apply (get_plurals_get_singulars sample_suppletive
           (cross (str "boxes") (str "bx")) (str "box") (str "bx"));
    reflexivity.
Defined.

(** ** Character classes *)

Lemma NEMO_LOWER_NOT_A_runs (i : bytes) :
  NEMO_LOWER_NOT_A i = difference NEMO_LOWER (accep (str "a")) i.
Proof.
  destruct i as [|c r]; [reflexivity|].
  destruct c as [[] [] [] [] [] [] [] []]; reflexivity.
Qed.

(** X18.  [NEMO_LOWER_NOT_A] reads a lower-case ASCII letter other than a:
    its runs are those of [NEMO_LOWER] that do not write a. *)
Theorem NEMO_LOWER_NOT_A_spec (i o r : bytes) :
  yields NEMO_LOWER_NOT_A i o r <-> yields NEMO_LOWER i o r /\ o <> str "a".
Proof.
  unfold yields at 1. rewrite NEMO_LOWER_NOT_A_runs.
  change (exists w, In (o, w, r) (difference NEMO_LOWER (accep (str "a")) i))
    with (yields (difference NEMO_LOWER (accep (str "a"))) i o r).
  rewrite yields_difference, accepts_false.
  apply and_iff_compat_l. split.
  - intros H ->. apply (H (str "a")). now apply transduces_accep.
  - intros H o' Ho. apply transduces_accep in Ho. destruct Ho as (_ & ->).
    now apply H.
Qed.

Lemma string_acceptor_closure (T : Fst) :
  string_acceptor T -> string_acceptor (closure T).
Proof.
  intros HT i. remember (List.length i) as n eqn:En. revert i En.
  induction n as [n IH] using lt_wf_ind. intros i En o r H.
  apply yields_closure in H.
  destruct H as [(-> & ->)|(o1 & m & o2 & H1 & Hlt & H2 & ->)].
  - split; [reflexivity | apply is_string_nil].
  - apply HT in H1. destruct H1 as (-> & Ho1).
    apply (IH (List.length m)) in H2; [|lia|reflexivity].
    destruct H2 as (-> & Ho2). split; [now rewrite app_assoc|].
    now apply is_string_app.
Qed.

Lemma string_acceptor_union (A B : Fst) :
  string_acceptor A -> string_acceptor B -> string_acceptor (union A B).
Proof. intros HA HB i o r H. apply yields_union in H. destruct H; auto. Qed.

Lemma string_acceptor_accep (s : bytes) :
  is_string s -> string_acceptor (accep s).
Proof.
  intros Hs i o r H. apply yields_accep in H. now destruct H as (-> & ->).
Qed.

Lemma string_acceptor_NEMO_SIGMA : string_acceptor NEMO_SIGMA.
Proof. intros i o r H. now apply yields_NEMO_SIGMA in H. Qed.

Lemma string_acceptor_NEMO_WHITE_SPACE : string_acceptor NEMO_WHITE_SPACE.
Proof.
  intros i o r H. apply yields_NEMO_WHITE_SPACE in H.
  destruct H as (Ho & ->). split; [reflexivity|]. simpl in Ho.
  destruct Ho as [<-|[<-|[<-|[<-|[<-|[]]]]]]; reflexivity.
Qed.

Lemma string_acceptor_NEMO_DIGIT : string_acceptor NEMO_DIGIT.
Proof.
  intros i o r (w & H). apply in_byte_range in H.
  destruct H as (c & -> & -> & _ & Hc). split; [reflexivity|].
  apply is_string_single. lia.
Qed.

(** X19.  [NEMO_SPACES_AND_ALHPANUMERICS] accepts every string, and nothing
    else: as a relation it is [NEMO_SIGMA]. *)
Theorem NEMO_SPACES_AND_ALHPANUMERICS_sigma (i o : bytes) :
  transduces NEMO_SPACES_AND_ALHPANUMERICS i o <-> transduces NEMO_SIGMA i o.
Proof.
  rewrite transduces_NEMO_SIGMA.
  unfold NEMO_SPACES_AND_ALHPANUMERICS, optimize. split.
  - intros H. rewrite transduces_yields in H.
    apply string_acceptor_closure in H.
    + rewrite app_nil_r in H. now destruct H as (-> & H).
    + repeat apply string_acceptor_union.
      * exact string_acceptor_NEMO_SIGMA.
      * apply string_acceptor_closure, string_acceptor_accep. reflexivity.
      * apply string_acceptor_closure, string_acceptor_accep. reflexivity.
      * apply string_acceptor_closure. exact string_acceptor_NEMO_DIGIT.
      * apply string_acceptor_closure. exact string_acceptor_NEMO_WHITE_SPACE.
  - intros (-> & H). rewrite transduces_yields. apply yields_closure.
    destruct i as [|c i]; [auto|]. right.
    exists (c :: i), [], []. repeat split.
    + repeat (apply yields_union; left). now apply transduces_NEMO_SIGMA.
    + simpl. lia.
    + apply yields_closure. auto.
    + now rewrite app_nil_r.
Qed.

(** ** Labels with cased variants *)

Lemma str_replace_space (s : pystr) :
  str_replace s (pystr_of " ") [] = filter (fun c => negb (N.eqb 32 c)) s.
Proof.
  unfold str_replace. induction s as [|c t IH]; [reflexivity|].
  change (replace_from (pystr_of " ") [] (c :: t) 0)
    with (if N.eqb 32 c && true
          then [] ++ replace_from (pystr_of " ") [] t 0
          else c :: replace_from (pystr_of " ") [] t 0).
  rewrite andb_true_r, IH.
  destruct (N.eqb 32 c) eqn:E; cbn [filter]; rewrite E; reflexivity.
Qed.

Lemma length_filter_not_space (s : pystr) :
  List.length (filter (fun c => negb (N.eqb 32 c)) s)
  + count_occ N.eq_dec s 32%N = List.length s.
Proof.
  induction s as [|c t IH]; [reflexivity|]. cbn [filter count_occ].
  destruct (N.eq_dec c 32) as [->|Hc].
  - rewrite N.eqb_refl. cbn [negb List.length]. lia.
  - assert (E : N.eqb 32 c = false) by (apply N.eqb_neq; congruence).
    rewrite E. cbn [negb List.length]. lia.
Qed.

(** X20.  The test for an abbreviation only counts: it holds exactly when
    the spoken form has one more character that is not a space than it has
    spaces, that is when its length is twice its number of spaces plus one.
    It fails on the empty string. *)
Theorem abbreviation_test_counts (spoken : pystr) :
  (abbreviation_test spoken = true <->
   List.length spoken = 2 * count_occ N.eq_dec spoken 32%N + 1) /\
  abbreviation_test [] = false.
Proof.
  split; [|reflexivity].
  unfold abbreviation_test. rewrite str_replace_space, Z.eqb_eq.
  pose proof (length_filter_not_space spoken) as H. lia.
Qed.

Section StringMapCasedProofs.

Variables str_upper str_capitalize : pystr -> pystr.

Local Abbreviation added := (added_rows str_upper str_capitalize).
Local Abbreviation additional :=
  (additional_labels str_upper str_capitalize).

Lemma added_rows_ok (r : row) :
  (exists a, added r = Ok a) <-> 2 <= List.length r /\ hd [] r <> [].
Proof.
  destruct r as [|written [|spoken weight]]; simpl.
  - split; [intros (a & H); discriminate | lia].
  - split; [intros (a & H); discriminate | lia].
  - destruct written as [|c t].
    + split; [intros (a & H); discriminate | tauto].
    + split; [intros _; split; [lia | discriminate]|]. intros _.
      destruct (abbreviation_test spoken); [destruct weight|]; eauto.
Qed.

Lemma added_rows_length (r : row) (a : list row) :
  added r = Ok a ->
  List.length a = if abbreviation_test (spoken_of r) then 4 else 2.
Proof.
  unfold spoken_of.
  destruct r as [|written [|spoken weight]]; simpl; try discriminate.
  destruct written as [|c t]; [discriminate|].
  destruct (abbreviation_test spoken); [destruct weight|];
    intros H; injection H as <-; reflexivity.
Qed.

Lemma additional_labels_ok (labels : list row) :
  (exists a, additional labels = Ok a) <->
  Forall (fun r => 2 <= List.length r /\ hd [] r <> []) labels.
Proof.
  induction labels as [|r rest IH].
  - simpl. split; eauto.
  - split.
    + intros (a & H). simpl in H.
      destruct (added r) as [x| | |] eqn:Er; try discriminate.
      destruct (additional rest) as [y| | |] eqn:Ea; try discriminate.
      constructor.
      * apply added_rows_ok. eauto.
      * apply IH. eauto.
    + intros H. inversion H as [|x l Hr Hrest]; subst.
      apply added_rows_ok in Hr. destruct Hr as (x & Hx).
      apply IH in Hrest. destruct Hrest as (y & Hy).
      exists (x ++ y). simpl. now rewrite Hx, Hy.
Qed.

Lemma additional_labels_length (labels : list row) (a : list row) :
  additional labels = Ok a ->
  List.length a =
  2 * List.length labels
  + 2 * List.length (filter (fun r => abbreviation_test (spoken_of r)) labels).
Proof.
  revert a. induction labels as [|r rest IH]; intros a H.
  - injection H as <-. reflexivity.
  - simpl in H.
    destruct (added r) as [x| | |] eqn:Er; try discriminate.
    destruct (additional rest) as [y| | |] eqn:Ea; try discriminate.
    injection H as <-. rewrite length_app, (IH y eq_refl).
    rewrite (added_rows_length r x Er). cbn [filter].
    destruct (abbreviation_test (spoken_of r)); cbn [List.length]; lia.
Qed.

End StringMapCasedProofs.

(** X21.  With the input case [cased], the labels are built without an
    exception exactly when every row has at least two columns and a written
    form that is not empty.  They then begin with the rows read from the
    file, in their order, followed by two rows for each of them and two more
    for each row whose spoken form passes the test for an abbreviation.
    With any other input case, the labels are the rows read from the
    file. *)
Theorem cased_labels_rows
    (str_upper str_capitalize : pystr -> pystr) (labels : list row) :
  ((exists l, cased_labels str_upper str_capitalize labels INPUT_CASED = Ok l) <->
   Forall (fun r => 2 <= List.length r /\ hd [] r <> []) labels) /\
  (forall l,
     cased_labels str_upper str_capitalize labels INPUT_CASED = Ok l ->
     firstn (List.length labels) l = labels /\
     List.length l =
     3 * List.length labels
     + 2 * List.length
             (filter (fun r => abbreviation_test (spoken_of r)) labels)) /\
  (forall input_case,
     input_case <> INPUT_CASED ->
     cased_labels str_upper str_capitalize labels input_case = Ok labels).
Proof.
  unfold cased_labels. split; [|split].
  - rewrite <- (additional_labels_ok str_upper str_capitalize).
    simpl String.eqb. split.
    + intros (l & H).
      destruct (additional_labels str_upper str_capitalize labels);
        try discriminate. eauto.
    + intros (a & ->). eauto.
  - intros l H. simpl String.eqb in H.
    destruct (additional_labels str_upper str_capitalize labels) as [a| | |]
      eqn:Ea; try discriminate.
    injection H as <-. split.
    + rewrite firstn_app, Nat.sub_diag, firstn_all. simpl. apply app_nil_r.
    + rewrite length_app, (additional_labels_length _ _ _ _ Ea). lia.
  - intros input_case H. apply String.eqb_neq in H. now rewrite H.
Qed.

Lemma transduces_cross (a b i o : bytes) :
  transduces (cross a b) i o <-> i = a /\ o = b.
Proof.
  unfold cross. rewrite transduces_yields, yields_cross_to. split.
  - intros (-> & o' & H). apply yields_accep in H. destruct H as (_ & ->).
    now rewrite app_nil_r.
  - intros (-> & ->). split; [reflexivity|]. exists a. apply yields_accep.
    now rewrite app_nil_r.
Qed.

Section StringMapRelation.

Variables str_upper str_capitalize : pystr -> pystr.
Variable encode : pystr -> bytes.
Variable read_weight : pystr -> weight.

(** A row of two columns. *)
Local Abbreviation pair_row := (fun r : row => exists w s, r = [w; s]).

Lemma string_map_rows_pairs (rows : list row) :
  Forall pair_row rows ->
  exists T,
    string_map_rows encode read_weight rows = Ok T /\
    forall i o,
      transduces T i o <->
      exists w s, In [w; s] rows /\ i = encode w /\ o = encode s.
Proof.
  induction 1 as [|r rest (w & s & ->) _ (T & HT & IH)].
  - exists (union_list []). split; [reflexivity|]. intros i o. split.
    + intros (c & []).
    + intros (w & s & [] & _).
  - exists (union (cross (encode w) (encode s)) T). split.
    + simpl. now rewrite HT.
    + intros i o. rewrite transduces_yields, yields_union.
      rewrite <- !transduces_yields, transduces_cross, IH. split.
      * intros [(-> & ->)|(w' & s' & Hin & E)].
        -- exists w, s. simpl. auto.
        -- exists w', s'. simpl. auto.
      * intros (w' & s' & [E|Hin] & -> & ->).
        -- injection E as -> ->. auto.
        -- right. eauto.
Qed.

Lemma additional_labels_pairs (labels : list row) :
  Forall (fun r => exists w s, r = [w; s] /\ w <> []) labels ->
  exists a,
    additional_labels str_upper str_capitalize labels = Ok a /\
    Forall pair_row a /\
    forall w s,
      In [w; s] labels ->
      In [str_upper (firstn 1 w) ++ skipn 1 w; str_capitalize s] a /\
      In [str_upper (firstn 1 w) ++ skipn 1 w;
          str_replace (str_upper s) (pystr_of " AND ") (pystr_of " and ")] a.
Proof.
  induction 1 as [|r rest (w & s & -> & Hw) _ (a & Ha & Hp & IH)].
  - exists []. split; [reflexivity|]. split; [constructor|].
    intros w s [].
  - destruct w as [|c t]; [congruence|].
    assert (Hadd : exists x,
               added_rows str_upper str_capitalize [c :: t; s] = Ok x /\
               Forall pair_row x /\
               In [str_upper [c] ++ t; str_capitalize s] x /\
               In [str_upper [c] ++ t;
                   str_replace (str_upper s) (pystr_of " AND ")
                               (pystr_of " and ")] x).
    { simpl. destruct (abbreviation_test s); eexists;
        (split; [reflexivity|]); (split; [|simpl; auto]);
        repeat constructor; eauto. }
    destruct Hadd as (x & Hx & Hpx & H1 & H2).
    exists (x ++ a). split; [|split].
    + cbn [additional_labels]. now rewrite Hx, Ha.
    + apply Forall_app. auto.
    + intros w' s' [E|Hin].
      * injection E as <- <-. split; apply in_or_app; left; assumption.
      * destruct (IH w' s' Hin). split; apply in_or_app; right; assumption.
Qed.

End StringMapRelation.

(** X22.  With an input case other than [cased] and rows of two columns,
    [string_map_cased] gives, without an exception, the relation from the
    spoken form of each row to its written form, and nothing more. *)
Theorem string_map_cased_lower
    (str_upper str_capitalize : pystr -> pystr) (encode : pystr -> bytes)
    (read_weight : pystr -> weight) (labels : list row) (input_case : string) :
  input_case <> INPUT_CASED ->
  Forall (fun r => exists w s, r = [w; s]) labels ->
  exists R,
    string_map_cased str_upper str_capitalize encode read_weight labels
                     input_case = Ok R /\
    forall i o,
      R i o <-> exists w s, In [w; s] labels /\ i = encode s /\ o = encode w.
Proof.
  intros Hc Hl. unfold string_map_cased, cased_labels.
  apply String.eqb_neq in Hc. rewrite Hc.
  destruct (string_map_rows_pairs encode read_weight labels Hl) as (T & HT & H).
  rewrite HT. exists (invert T). split; [reflexivity|].
  intros i o. unfold invert. rewrite H. split.
  - intros (w & s & Hin & -> & ->). eauto.
  - intros (w & s & Hin & -> & ->). eauto.
Qed.

(** X23.  With the input case [cased] and rows of two columns whose
    written form is not empty, [string_map_cased] gives, without an
    exception, a relation that keeps each row, from its spoken form to its
    written form, and that relates the capitalized spoken form, and the
    spoken form in upper case with its [AND] lowered, to the written form
    with its first character in upper case. *)
Theorem string_map_cased_cased
    (str_upper str_capitalize : pystr -> pystr) (encode : pystr -> bytes)
    (read_weight : pystr -> weight) (labels : list row) :
  Forall (fun r => exists w s, r = [w; s] /\ w <> []) labels ->
  exists R,
    string_map_cased str_upper str_capitalize encode read_weight labels
                     INPUT_CASED = Ok R /\
    forall w s,
      In [w; s] labels ->
      R (encode s) (encode w) /\
      R (encode (str_capitalize s))
        (encode (str_upper (firstn 1 w) ++ skipn 1 w)) /\
      R (encode (str_replace (str_upper s) (pystr_of " AND ")
                             (pystr_of " and ")))
        (encode (str_upper (firstn 1 w) ++ skipn 1 w)).
Proof.
  intros Hl. unfold string_map_cased, cased_labels. simpl String.eqb.
  destruct (additional_labels_pairs str_upper str_capitalize labels Hl)
    as (a & Ha & Hp & Hin).
  rewrite Ha.
  assert (Hall : Forall (fun r : row => exists w s, r = [w; s]) (labels ++ a)).
  { apply Forall_app. split; [|assumption].
    apply (Forall_impl _ (P := fun r => exists w s, r = [w; s] /\ w <> []));
      [|assumption].
    intros r (w & s & -> & _). eauto. }
  destruct (string_map_rows_pairs encode read_weight (labels ++ a) Hall)
    as (T & HT & H).
  rewrite HT. exists (invert T). split; [reflexivity|].
  intros w s Hws. destruct (Hin w s Hws) as (H1 & H2).
  unfold invert. rewrite !H. repeat split.
  - exists w, s. rewrite in_app_iff. auto.
  - eexists _, _. rewrite in_app_iff. eauto.
  - eexists _, _. rewrite in_app_iff. eauto.
Qed.

Lemma string_map_cased_lower_witness :
  exists R,
    string_map_cased (fun s => s) (fun s => s)
      (fun s => map (fun c => ascii_of_N c) s) (fun _ => One)
      [[pystr_of "Dr."; pystr_of "doctor"]] INPUT_LOWER_CASED = Ok R /\
    forall i o,
      R i o <->
      exists w s, In [w; s] [[pystr_of "Dr."; pystr_of "doctor"]] /\
                  i = map (fun c => ascii_of_N c) s /\
                  o = map (fun c => ascii_of_N c) w.
Proof.
  apply (string_map_cased_lower (fun s => s) (fun s => s)
           (fun s => map (fun c => ascii_of_N c) s) (fun _ => One)
           [[pystr_of "Dr."; pystr_of "doctor"]] INPUT_LOWER_CASED).
  - discriminate.
  - repeat constructor. eauto.
Defined.

Lemma string_map_cased_cased_witness :
  exists R,
    string_map_cased (fun s => s) (fun s => s)
      (fun s => map (fun c => ascii_of_N c) s) (fun _ => One)
      [[pystr_of "Dr."; pystr_of "doctor"]] INPUT_CASED = Ok R /\
    forall w s,
      In [w; s] [[pystr_of "Dr."; pystr_of "doctor"]] ->
      R (map (fun c => ascii_of_N c) s) (map (fun c => ascii_of_N c) w) /\
      R (map (fun c => ascii_of_N c) s)
        (map (fun c => ascii_of_N c) (firstn 1 w ++ skipn 1 w)) /\
      R (map (fun c => ascii_of_N c)
             (str_replace s (pystr_of " AND ") (pystr_of " and ")))
        (map (fun c => ascii_of_N c) (firstn 1 w ++ skipn 1 w)).
Proof.
  apply (string_map_cased_cased (fun s => s) (fun s => s)
           (fun s => map (fun c => ascii_of_N c) s) (fun _ => One)
           [[pystr_of "Dr."; pystr_of "doctor"]]).
  repeat constructor. eexists _, _. split; [reflexivity | discriminate].
Defined.

Lemma TO_LOWER_letters_witness : ~ transduces TO_LOWER [("a"%char)] (str "a").
Proof.
  destruct TO_LOWER_letters as (_ & H & _). apply H. reflexivity.
Defined.

Lemma cased_labels_rows_witness :
  cased_labels (fun s => s) (fun s => s)
    [[pystr_of "Dr."; pystr_of "doctor"]] INPUT_LOWER_CASED
  = Ok [[pystr_of "Dr."; pystr_of "doctor"]].
Proof.
  destruct (cased_labels_rows (fun s => s) (fun s => s)
              [[pystr_of "Dr."; pystr_of "doctor"]]) as (_ & _ & H).
  apply H. discriminate.
Defined.

(** ** Printable characters *)

Lemma runs_NEMO_GRAPH (c : ascii) (r : bytes) :
  runs NEMO_GRAPH (c :: r) =
  if (33 <=? nat_of_ascii c) && (nat_of_ascii c <=? 126)
  then [([c], r)] else [].
Proof. destruct c as [[] [] [] [] [] [] [] []]; reflexivity. Qed.

Lemma runs_NEMO_HEX (c : ascii) (r : bytes) :
  runs NEMO_HEX (c :: r) = [] \/
  (runs NEMO_HEX (c :: r) = [([c], r)] /\
   runs NEMO_ALNUM (c :: r) = [([c], r)]).
Proof.
  destruct c as [[] [] [] [] [] [] [] []];
    first [left; reflexivity | right; split; reflexivity].
Qed.

(** X24.  [NEMO_GRAPH], the letters, digits and punctuation, reads exactly
    one byte from 33 to 126, the printable ASCII characters other than the
    space.  [NEMO_ALNUM] reads exactly what one of [NEMO_DIGIT],
    [NEMO_LOWER] and [NEMO_UPPER] reads, and every run of [NEMO_HEX] is a
    run of [NEMO_ALNUM]. *)
Theorem NEMO_GRAPH_printable (i o r : bytes) :
  (yields NEMO_GRAPH i o r <->
   exists c, i = c :: r /\ o = [c] /\ 33 <= nat_of_ascii c <= 126) /\
  (yields NEMO_ALNUM i o r <->
   yields NEMO_DIGIT i o r \/ yields NEMO_LOWER i o r \/ yields NEMO_UPPER i o r) /\
  (yields NEMO_HEX i o r -> yields NEMO_ALNUM i o r).
Proof.
  split; [|split].
  - rewrite yields_runs. destruct i as [|c t].
    + split; [intros [] | intros (c & E & _); discriminate].
    + rewrite runs_NEMO_GRAPH.
      destruct (33 <=? nat_of_ascii c) eqn:E1;
        destruct (nat_of_ascii c <=? 126) eqn:E2; cbn [andb];
        first [apply Nat.leb_le in E1 | apply Nat.leb_gt in E1];
        first [apply Nat.leb_le in E2 | apply Nat.leb_gt in E2].
      * split.
        -- intros [H|[]]. injection H as <- <-. exists c. auto.
        -- intros (c' & E & -> & _). injection E as <- <-. simpl. auto.
      * split; [intros []|]. intros (c' & E & _ & H). injection E as <- _. lia.
      * split; [intros []|]. intros (c' & E & _ & H). injection E as <- _. lia.
      * split; [intros []|]. intros (c' & E & _ & H). injection E as <- _. lia.
  - unfold NEMO_ALNUM, NEMO_ALPHA, optimize.
    now rewrite !yields_union.
  - rewrite !yields_runs. destruct i as [|c t]; [intros []|].
    destruct (runs_NEMO_HEX c t) as [E|(E1 & E2)].
    + rewrite E. intros [].
    + now rewrite E1, E2.
Qed.
